(** * Bond yield calculator

    A shallow embedding of the calculation core of the bond yield
    calculator, [backend/src/bond/bond-calculation.ts]: the input validator,
    the Newton/bisection yield solver and the metrics and schedule builder.

    JavaScript numbers are IEEE 754 binary64 values and are modelled by Rocq's
    primitive floats, whose operations are specified bit for bit by
    [SpecFloat]; the parts of the platform the code calls and ECMAScript
    leaves to the implementation ([Math.pow], the [Date] object, the clock)
    are the fields of a [Host]. *)

From Stdlib Require Import ZArith List String Ascii Bool Lia Floats Reals Lra Zpower.
Import ListNotations.

#[local] Set Warnings "-inexact-float".
#[local] Open Scope string_scope.
#[local] Open Scope list_scope.
#[local] Open Scope float_scope.

(** ** JavaScript numbers and the [Math] functions the code uses *)

Module JS.

Definition number := float.

(** [Number.EPSILON], 2^-52. *)
Definition EPSILON : number := 0x1p-52.

(** The number with the integer value [n] (rounded when [n] needs more than
    53 bits). *)
Definition of_Z (n : Z) : number :=
  SF2Prim (binary_normalize prec emax n 0 false).

Definition of_nat (n : nat) : number := of_Z (Z.of_nat n).

(** [Number.isFinite]. *)
Definition isFinite (x : number) : bool := is_finite x.

(** [Number.isNaN]. *)
Definition isNaN (x : number) : bool := is_nan x.

(** [Math.max] of two numbers: NaN when either is, and +0 above -0. *)
Definition Math_max (a b : number) : number :=
  if is_nan a || is_nan b then nan
  else if a <? b then b
  else if b <? a then a
  else if is_zero a && get_sign a then b else a.

(** [Math.min] of two numbers: NaN when either is, and -0 below +0. *)
Definition Math_min (a b : number) : number :=
  if is_nan a || is_nan b then nan
  else if a <? b then a
  else if b <? a then b
  else if is_zero a && get_sign a then a else b.

(** [Math.round]: the integer closest to [x], a tie going to the one closer
    to +infinity, that is the floor of [x + 1/2] computed exactly; a zero
    result keeps the sign of [x]. *)
Definition Math_round (x : number) : number :=
  match Prim2SF x with
  | S754_finite s m e =>
      if (0 <=? e)%Z then x
      else
        let n := Z.shiftl (2 * cond_Zopp s (Zpos m) + Z.shiftl 1 (- e)) (e - 1) in
        if (n =? 0)%Z then (if s then neg_zero else zero) else of_Z n
  | _ => x
  end.

(** [ToIntegerOrInfinity]: truncation toward zero, NaN to 0; [None] stands
    for an infinity. *)
Definition integer_part (x : number) : option Z :=
  match Prim2SF x with
  | S754_finite s m e => Some (cond_Zopp s (Z.shiftl (Zpos m) e))
  | S754_infinity _ => None
  | _ => Some 0%Z
  end.

(** The length of the array that [Array.from({ length: x }, f)] creates:
    [ToLength] clamps [x] to 0 .. 2^53 - 1, and creating an array longer
    than 2^32 - 1 throws a RangeError ([None]). *)
Definition array_length (x : number) : option nat :=
  match integer_part x with
  | Some n => if (n <=? 4294967295)%Z then Some (Z.to_nat n) else None
  | None => if get_sign x then Some O else None
  end.

(** What a call that may never return gives: [None] when it does not. *)
Definition and_then {A B : Type} (call : option A) (rest : A -> option B) : option B :=
  match call with
  | Some value => rest value
  | None => None
  end.

Notation "'let*' x ':=' call 'in' rest" :=
  (and_then call (fun x => rest))
  (at level 10, x name, call at level 100, rest at level 200).

(** The loop [for (let t = ...; t <= periods; t += 1) acc = body(t, acc)]
    from the counter [t] on, run for at most [fuel] tests of its condition;
    [None] when the loop has not ended by then. *)
Fixpoint for_loop {A : Type} (fuel : nat) (t periods : number)
    (body : number -> A -> A) (acc : A) : option A :=
  match fuel with
  | O => None
  | S fuel' =>
      if t <=? periods then for_loop fuel' (t + 1) periods body (body t acc)
      else Some acc
  end.

(** The number of times the body of
    [for (let t = 1; t <= periods; t += 1)] runs. The counter is exact up to
    2^53 and stays there, as 2^53 + 1 rounds to 2^53: the loop never ends
    ([None]) when [periods] is 2^53 or more. *)
Definition iterations (periods : number) : option nat :=
  if 0x1p53 <=? periods then None
  else
    match integer_part periods with
    | Some n => Some (Z.to_nat n)
    | None => Some O
    end.

(** [for (let t = 1; t <= periods; t += 1) acc = body(t, acc)]: the loop
    with the fuel it needs, when it ends. *)
Definition for_periods {A : Type} (periods : number)
    (body : number -> A -> A) (init : A) : option A :=
  match iterations periods with
  | Some n => for_loop (S n) 1 periods body init
  | None => None
  end.

(** JavaScript truthiness of an optional string property: absent and the
    empty string are falsy. *)
Definition truthy (s : option string) : option string :=
  match s with
  | Some EmptyString => None
  | other => other
  end.

(** [Array.prototype.push], as a value. *)
Definition push {A : Type} (xs : list A) (x : A) : list A := xs ++ [x].

End JS.

Import JS.

(** ** The platform

    [Math.pow] is implementation-approximated in ECMAScript, and [Date] works
    in the time zone and with the clock of the process; the model takes them
    as they come. *)

Class Host : Type := {
  (** [Math.pow(base, exponent)] *)
  Math_pow : number -> number -> number;
  Date : Type;
  (** [new Date()], the clock reading *)
  Date_now : Date;
  (** [new Date(text)] *)
  Date_parse : string -> Date;
  (** [getTime()], NaN for an invalid date *)
  Date_getTime : Date -> number;
  Date_getDate : Date -> number;
  Date_getMonth : Date -> number;
  Date_getFullYear : Date -> number;
  (** [setDate] and [setMonth], returning the updated date *)
  Date_setDate : Date -> number -> Date;
  Date_setMonth : Date -> number -> Date;
  (** [new Date(year, monthIndex, day)] *)
  Date_of_parts : number -> number -> number -> Date;
  (** [toISOString()]; [None] is the RangeError of an invalid date *)
  Date_toISOString : Date -> option string
}.

(** ** The data model *)

(** [CouponFrequency] is a TypeScript union of two string literals; at run time
    the field holds whatever string the caller sent, which is what the
    validator checks. *)
Definition CouponFrequency := string.

Record BondCalculationInput : Type := {
  faceValue : number;
  annualCouponRatePct : number;
  marketPrice : number;
  yearsToMaturity : number;
  couponFrequency : CouponFrequency;
  settlementDate : option string
}.

Module CashFlowRow.
Record t : Type := {
  period : number;
  paymentDate : string;
  couponPayment : number;
  cumulativeInterest : number;
  remainingPrincipal : number
}.
End CashFlowRow.

Inductive TradingStatus : Type := premium | discount | par.

Record BondCalculationResult : Type := {
  inputs : BondCalculationInput;
  annualCouponAmount : number;
  couponPayment : number;
  totalPeriods : number;
  currentYieldPct : number;
  ytmPct : number;
  totalInterestEarned : number;
  tradingStatus : TradingStatus;
  premiumDiscountAmount : number;
  cashFlowSchedule : list CashFlowRow.t
}.

(** What a call produces: a value, a thrown error, or nothing at all when a
    pricing loop never ends. *)
Inductive outcome (A : Type) : Type :=
| Returned (value : A)
| Thrown (message : string)
| NoResult.
Arguments Returned {A} value.
Arguments Thrown {A} message.
Arguments NoResult {A}.

(** ** Rounding of outputs *)

Definition round2 (value : number) : number :=
  Math_round ((value + EPSILON) * 100) / 100.

Definition round6 (value : number) : number :=
  Math_round ((value + EPSILON) * 1000000) / 1000000.

Section Core.

Context {host : Host}.

(** ** Dates *)

Definition addMonthsClamped (date : Date) (months : number) : Date :=
  let d := date in
  let day := Date_getDate d in
  let d := Date_setDate d 1 in
  let d := Date_setMonth d (Date_getMonth d + months) in
  let lastDay :=
    Date_getDate (Date_of_parts (Date_getFullYear d) (Date_getMonth d + 1) 0) in
  Date_setDate d (Math_min day lastDay).

(** ** Pricing *)

Definition priceFromPeriodicYield
    (periodicYield couponPayment faceValue periods : number) : option number :=
  if abs periodicYield <? 1e-12 then Some (couponPayment * periods + faceValue)
  else
    let* pv :=
      for_periods periods
        (fun t pv => pv + couponPayment / Math_pow (1 + periodicYield) t) 0 in
    Some (pv + faceValue / Math_pow (1 + periodicYield) periods).

Definition derivativePriceFromPeriodicYield
    (periodicYield couponPayment faceValue periods : number) : option number :=
  let* derivative :=
    for_periods periods
      (fun t derivative =>
         derivative + ((- t) * couponPayment) / Math_pow (1 + periodicYield) (t + 1))
      0 in
  Some (derivative
        + ((- periods) * faceValue) / Math_pow (1 + periodicYield) (periods + 1)).

(** ** The yield solver *)

Section Solver.

Variables marketPrice couponPayment faceValue periods : number.

Definition residual (r : number) : option number :=
  let* price := priceFromPeriodicYield r couponPayment faceValue periods in
  Some (price - marketPrice).

(** How the Newton loop ends: with a [return], or by falling through to
    the bisection (a [break], or 50 iterations done). *)
Inductive newton_exit : Type :=
| Converged (r : number)
| Abandoned.

(** The Newton loop with [remaining] iterations to go. *)
Fixpoint newton (remaining : nat) (x : number) : option newton_exit :=
  match remaining with
  | O => Some Abandoned
  | S remaining' =>
      let* fx := residual x in
      if abs fx <? 1e-10 then Some (Converged x)
      else
        let* dfx :=
          derivativePriceFromPeriodicYield x couponPayment faceValue periods in
        if negb (isFinite dfx) || (abs dfx <? 1e-12) then Some Abandoned
        else
          let next := x - fx / dfx in
          if negb (isFinite next) || (next <=? -0.999999) || (10 <? next)
          then Some Abandoned
          else if abs (next - x) <? 1e-12 then Some (Converged next)
          else newton remaining' next
  end.

(** [while (fLow * fHigh > 0 && expandCount < 20)], with
    [remaining = 20 - expandCount]. *)
Fixpoint expand (remaining : nat) (fLow high fHigh : number)
    : option (number * number) :=
  match remaining with
  | O => Some (high, fHigh)
  | S remaining' =>
      if 0 <? fLow * fHigh then
        let high := high * 2 in
        let* fHigh := residual high in
        expand remaining' fLow high fHigh
      else Some (high, fHigh)
  end.

(** The bisection loop with [remaining] iterations to go, and the
    [return] after it. *)
Fixpoint bisect (remaining : nat) (low high fLow : number) : option number :=
  match remaining with
  | O => Some ((low + high) / 2)
  | S remaining' =>
      let mid := (low + high) / 2 in
      let* fMid := residual mid in
      if abs fMid <? 1e-10 then Some mid
      else if fLow * fMid <=? 0 then bisect remaining' low mid fLow
      else bisect remaining' mid high fMid
  end.

Definition bisection : option number :=
  let low := -0.99 in
  let high := 1.0 in
  let* fLow := residual low in
  let* fHigh := residual high in
  let* bracket := expand 20 fLow high fHigh in
  bisect 200 low (fst bracket) fLow.

Definition solvePeriodicYtm (frequencyPerYear couponRateDecimal : number)
    : option number :=
  let x := Math_max (-0.95) (couponRateDecimal / frequencyPerYear) in
  let* exit := newton 50 x in
  match exit with
  | Converged r => Some r
  | Abandoned => bisection
  end.

End Solver.

(** ** The validator *)

Definition validateBondInput (input : BondCalculationInput) : list string :=
  let errors : list string := [] in
  let errors :=
    if negb (isFinite (faceValue input)) || (faceValue input <=? 0)
    then push errors "Face value must be positive." else errors in
  let errors :=
    if negb (isFinite (annualCouponRatePct input)) || (annualCouponRatePct input <? 0)
    then push errors "Annual coupon rate must be zero or greater." else errors in
  let errors :=
    if negb (isFinite (marketPrice input)) || (marketPrice input <=? 0)
    then push errors "Market price must be positive." else errors in
  let errors :=
    if negb (isFinite (yearsToMaturity input)) || (yearsToMaturity input <=? 0)
    then push errors "Years to maturity must be positive." else errors in
  let errors :=
    if negb (existsb (String.eqb (couponFrequency input)) ["annual"; "semi-annual"])
    then push errors "Coupon frequency must be annual or semi-annual." else errors in
  let errors :=
    if match truthy (settlementDate input) with
       | Some text => isNaN (Date_getTime (Date_parse text))
       | None => false
       end
    then push errors "Settlement date is invalid." else errors in
  errors.

(** ** Metrics and schedule *)

Section Schedule.

Variables (settlement : Date) (monthsPerPeriod totalPeriods : number).
Variables (couponPayment faceValue : number).

(** The callback of [Array.from] run for [index], [index + 1], ...,
    [count] times in all, threading the captured [cumulativeInterest];
    [toISOString] may throw on the way. *)
Fixpoint schedule_rows (count index : nat) (cumulativeInterest : number)
    : outcome (list CashFlowRow.t) :=
  match count with
  | O => Returned []
  | S count' =>
      let period := of_nat index + 1 in
      let cumulativeInterest := cumulativeInterest + couponPayment in
      let paymentDate := addMonthsClamped settlement (monthsPerPeriod * period) in
      match Date_toISOString paymentDate with
      | None => Thrown "Invalid time value"
      | Some iso =>
          let row := {|
            CashFlowRow.period := period;
            CashFlowRow.paymentDate := substring 0 10 iso;
            CashFlowRow.couponPayment := round2 couponPayment;
            CashFlowRow.cumulativeInterest := round2 cumulativeInterest;
            CashFlowRow.remainingPrincipal :=
              if period =? totalPeriods then 0 else round2 faceValue
          |} in
          match schedule_rows count' (S index) cumulativeInterest with
          | Returned rows => Returned (row :: rows)
          | failure => failure
          end
      end
  end.

End Schedule.

Definition calculateBondMetrics (input : BondCalculationInput)
    : outcome BondCalculationResult :=
  let frequencyPerYear : number :=
    if String.eqb (couponFrequency input) "annual" then 1 else 2 in
  let totalPeriods := Math_round (yearsToMaturity input * frequencyPerYear) in
  if totalPeriods <=? 0 then Thrown "Total periods must be at least 1."
  else
    let couponRateDecimal := annualCouponRatePct input / 100 in
    let annualCouponAmount := faceValue input * couponRateDecimal in
    let couponPayment := annualCouponAmount / frequencyPerYear in
    let currentYieldPct := (annualCouponAmount / marketPrice input) * 100 in
    match
      solvePeriodicYtm (marketPrice input) couponPayment (faceValue input)
        totalPeriods frequencyPerYear couponRateDecimal
    with
    | None => NoResult
    | Some periodicYtm =>
        let settlement :=
          match truthy (settlementDate input) with
          | Some text => Date_parse text
          | None => Date_now
          end in
        let monthsPerPeriod := 12 / frequencyPerYear in
        match array_length totalPeriods with
        | None => Thrown "Invalid array length"
        | Some length =>
            match
              schedule_rows settlement monthsPerPeriod totalPeriods couponPayment
                (faceValue input) length 0 0
            with
            | Returned cashFlowSchedule =>
                let premiumDiscountAmount := marketPrice input - faceValue input in
                match Date_toISOString settlement with
                | None => Thrown "Invalid time value"
                | Some iso =>
                    Returned {|
                      inputs := {|
                        faceValue := faceValue input;
                        annualCouponRatePct := annualCouponRatePct input;
                        marketPrice := marketPrice input;
                        yearsToMaturity := yearsToMaturity input;
                        couponFrequency := couponFrequency input;
                        settlementDate := Some (substring 0 10 iso)
                      |};
                      annualCouponAmount := round2 annualCouponAmount;
                      couponPayment := round2 couponPayment;
                      totalPeriods := totalPeriods;
                      currentYieldPct := round6 currentYieldPct;
                      ytmPct := round6 (periodicYtm * frequencyPerYear * 100);
                      totalInterestEarned := round2 (couponPayment * totalPeriods);
                      tradingStatus :=
                        if 0 <? premiumDiscountAmount then premium
                        else if premiumDiscountAmount <? 0 then discount
                        else par;
                      premiumDiscountAmount := round2 premiumDiscountAmount;
                      cashFlowSchedule := cashFlowSchedule
                    |}
                end
            | Thrown message => Thrown message
            | NoResult => NoResult
            end
        end
    end.

End Core.


(** ** A reference platform

    A [Host] to run the model on: [Math.pow] by repeated multiplication (the
    code only raises to period counts), and a UTC calendar of days that reads
    and prints ISO dates [YYYY-MM-DD]. *)

Module ReferenceHost.

#[local] Open Scope Z_scope.

(** Days since 1970-01-01 of a civil date; [month] counts from 1. *)
Definition days_from_civil (year month day : Z) : Z :=
  let y := if month <=? 2 then year - 1 else year in
  let era := y / 400 in
  let yoe := y - era * 400 in
  let doy := (153 * (if 2 <? month then month - 3 else month + 9) + 2) / 5 + day - 1 in
  let doe := yoe * 365 + yoe / 4 - yoe / 100 + doy in
  era * 146097 + doe - 719468.

(** The civil date (year, month from 1, day) of a day number. *)
Definition civil_from_days (days : Z) : Z * Z * Z :=
  let z := days + 719468 in
  let era := z / 146097 in
  let doe := z - era * 146097 in
  let yoe := (doe - doe / 1460 + doe / 36524 - doe / 146096) / 365 in
  let doy := doe - (365 * yoe + yoe / 4 - yoe / 100) in
  let mp := (5 * doy + 2) / 153 in
  let d := doy - (153 * mp + 2) / 5 + 1 in
  let m := if mp <? 10 then mp + 3 else mp - 9 in
  (if m <=? 2 then yoe + era * 400 + 1 else yoe + era * 400, m, d).

(** The first day of [monthIndex] (from 0, any integer) of [year], plus
    [day - 1] days: how [Date] normalises its parts. *)
Definition days_of_parts (year monthIndex day : Z) : Z :=
  days_from_civil (year + monthIndex / 12) (monthIndex mod 12 + 1) 1 + day - 1.

(** A date is a day number, or invalid. *)
Definition date := option Z.

(** The time values of [Date] span 100,000,000 days around the epoch. *)
Definition in_range (days : Z) : date :=
  if Z.abs days <=? 100000000 then Some days else None.

Definition integer (x : number) : option Z :=
  if is_nan x then None else integer_part x.

Definition digit (c : ascii) : option Z :=
  let n := Z.of_nat (nat_of_ascii c) - 48 in
  if (0 <=? n) && (n <=? 9) then Some n else None.

Fixpoint digits (acc : Z) (text : string) : option Z :=
  match text with
  | EmptyString => Some acc
  | String c rest =>
      match digit c with
      | Some n => digits (10 * acc + n) rest
      | None => None
      end
  end.

Fixpoint pad (width : nat) (n : Z) : string :=
  match width with
  | O => EmptyString
  | S width' =>
      (pad width' (n / 10) ++ String (ascii_of_nat (Z.to_nat (48 + n mod 10))) EmptyString)%string
  end.

Definition parse (text : string) : date :=
  if negb (Nat.eqb (String.length text) 10) then None
  else if negb (String.eqb (substring 4 1 text) "-" && String.eqb (substring 7 1 text) "-")
  then None
  else
    match digits 0 (substring 0 4 text), digits 0 (substring 5 2 text),
          digits 0 (substring 8 2 text) with
    | Some y, Some m, Some d =>
        let days := days_from_civil y m d in
        if (1 <=? m) && (m <=? 12) && (1 <=? d)
           && (let '(_, m', _) := civil_from_days days in m' =? m)
        then in_range days else None
    | _, _, _ => None
    end.

Definition toISOString (d : date) : option string :=
  match d with
  | None => None
  | Some days =>
      let '(y, m, day) := civil_from_days days in
      let year :=
        if (0 <=? y) && (y <=? 9999) then pad 4 y
        else
          let sign := if y <? 0 then "-" else "+" in
          (sign ++ pad 6 (Z.abs y))%string in
      Some (year ++ "-" ++ pad 2 m ++ "-" ++ pad 2 day ++ "T00:00:00.000Z")%string
  end.

Definition part (f : Z * Z * Z -> Z) (d : date) : number :=
  match d with
  | Some days => of_Z (f (civil_from_days days))
  | None => nan
  end.

Definition setDate (d : date) (day : number) : date :=
  match d, integer day with
  | Some days, Some k =>
      let '(y, m, _) := civil_from_days days in in_range (days_of_parts y (m - 1) k)
  | _, _ => None
  end.

Definition setMonth (d : date) (monthIndex : number) : date :=
  match d, integer monthIndex with
  | Some days, Some k =>
      let '(y, _, day) := civil_from_days days in in_range (days_of_parts y k day)
  | _, _ => None
  end.

Definition of_parts (year monthIndex day : number) : date :=
  match integer year, integer monthIndex, integer day with
  | Some y, Some m, Some d => in_range (days_of_parts y m d)
  | _, _, _ => None
  end.

(** [base] multiplied [exponent] times, for an exponent that is a count. *)
Definition pow (base exponent : number) : number :=
  match integer_part exponent with
  | Some n => Nat.iter (Z.to_nat n) (fun acc => (acc * base)%float) 1%float
  | None => nan
  end.

(** The platform, with the clock stopped at day [today]. *)
Definition at_day (today : Z) : Host := {|
  Math_pow := pow;
  Date := date;
  Date_now := Some today;
  Date_parse := parse;
  Date_getTime := fun d =>
    match d with Some days => of_Z (days * 86400000) | None => nan end;
  Date_getDate := part (fun '(_, _, d) => d);
  Date_getMonth := part (fun '(_, m, _) => m - 1);
  Date_getFullYear := part (fun '(y, _, _) => y);
  Date_setDate := setDate;
  Date_setMonth := setMonth;
  Date_of_parts := of_parts;
  Date_toISOString := toISOString
|}.

End ReferenceHost.


(** ** Names for the statements

    The constants that [calculateBondMetrics] computes first, as functions of
    the input. *)

Definition frequencyOf (input : BondCalculationInput) : number :=
  if String.eqb (couponFrequency input) "annual" then 1 else 2.

Definition totalPeriodsOf (input : BondCalculationInput) : number :=
  Math_round (yearsToMaturity input * frequencyOf input).

Definition annualCouponAmountOf (input : BondCalculationInput) : number :=
  faceValue input * (annualCouponRatePct input / 100).

Definition couponPaymentOf (input : BondCalculationInput) : number :=
  annualCouponAmountOf input / frequencyOf input.

(** The interest accumulated by the schedule callback after [k] rows: the
    captured variable starts at 0 and grows by the coupon payment per row. *)
Definition accumulated (couponPayment : number) (k : nat) : number :=
  Nat.iter k (fun cumulativeInterest => cumulativeInterest + couponPayment) 0.

(** ** The result as the object the caller receives

    The object literal that [calculateBondMetrics] returns, property by
    property, so that a statement can ask for a property by name. *)

Inductive property_value : Type :=
| PNumber (value : number)
| PText (value : string)
| PInput (value : BondCalculationInput)
| PRows (value : list CashFlowRow.t).

Definition status_text (status : TradingStatus) : string :=
  match status with
  | premium => "premium"
  | discount => "discount"
  | par => "par"
  end.

Definition result_object (result : BondCalculationResult)
    : list (string * property_value) :=
  [("inputs", PInput (inputs result));
   ("annualCouponAmount", PNumber (annualCouponAmount result));
   ("couponPayment", PNumber (couponPayment result));
   ("totalPeriods", PNumber (totalPeriods result));
   ("currentYieldPct", PNumber (currentYieldPct result));
   ("ytmPct", PNumber (ytmPct result));
   ("totalInterestEarned", PNumber (totalInterestEarned result));
   ("tradingStatus", PText (status_text (tradingStatus result)));
   ("premiumDiscountAmount", PNumber (premiumDiscountAmount result));
   ("cashFlowSchedule", PRows (cashFlowSchedule result))].

(** [object[name]]; [None] is [undefined]. *)
Definition property (name : string) (object : list (string * property_value))
    : option property_value :=
  match find (fun entry => String.eqb (fst entry) name) object with
  | Some entry => Some (snd entry)
  | None => None
  end.

(** ** The validation rules, as the specification words them

    Each rule says when a field is acceptable; [violations] lists, in order,
    the messages of the rules that do not hold. *)

Section Rules.

Context {host : Host}.

Definition rule_faceValue (input : BondCalculationInput) : bool :=
  isFinite (faceValue input) && (0 <? faceValue input).

Definition rule_couponRate (input : BondCalculationInput) : bool :=
  isFinite (annualCouponRatePct input) && (0 <=? annualCouponRatePct input).

Definition rule_marketPrice (input : BondCalculationInput) : bool :=
  isFinite (marketPrice input) && (0 <? marketPrice input).

Definition rule_yearsToMaturity (input : BondCalculationInput) : bool :=
  isFinite (yearsToMaturity input) && (0 <? yearsToMaturity input).

Definition rule_couponFrequency (input : BondCalculationInput) : bool :=
  String.eqb (couponFrequency input) "annual"
  || String.eqb (couponFrequency input) "semi-annual".

(** A settlement date that is present (a non-empty string) must parse. *)
Definition rule_settlementDate (input : BondCalculationInput) : bool :=
  match truthy (settlementDate input) with
  | Some text => negb (isNaN (Date_getTime (Date_parse text)))
  | None => true
  end.

Definition rules (input : BondCalculationInput) : list (bool * string) :=
  [(rule_faceValue input, "Face value must be positive.");
   (rule_couponRate input, "Annual coupon rate must be zero or greater.");
   (rule_marketPrice input, "Market price must be positive.");
   (rule_yearsToMaturity input, "Years to maturity must be positive.");
   (rule_couponFrequency input, "Coupon frequency must be annual or semi-annual.");
   (rule_settlementDate input, "Settlement date is invalid.")].

Definition violations (checks : list (bool * string)) : list string :=
  map snd (filter (fun check => negb (fst check)) checks).

End Rules.

(** ** The solver as a state machine

    The control flow of [solvePeriodicYtm], one transition per loop
    iteration, [return] or fall-through, written as a relation: the loop
    counters are part of the state, as in the source. A transition needs the
    calls of the pricing functions it makes to return. *)

Section Machine.

Context {host : Host}.
Variables marketPrice couponPayment faceValue periods : number.

Inductive solver_state : Type :=
| Newton (i : nat) (x : number)
| Bracketing
| Expanding (expandCount : nat) (high fLow fHigh : number)
| Bisecting (i : nat) (low high fLow : number)
| Finished (r : number).

Definition price_residual (r : number) : option number :=
  residual marketPrice couponPayment faceValue periods r.

Definition price_derivative (r : number) : option number :=
  derivativePriceFromPeriodicYield r couponPayment faceValue periods.

Inductive step : solver_state -> solver_state -> Prop :=
| newton_converged i x fx :
    (i < 50)%nat -> price_residual x = Some fx ->
    (abs fx <? 1e-10) = true ->
    step (Newton i x) (Finished x)
| newton_flat i x fx dfx :
    (i < 50)%nat -> price_residual x = Some fx ->
    (abs fx <? 1e-10) = false ->
    price_derivative x = Some dfx ->
    negb (isFinite dfx) || (abs dfx <? 1e-12) = true ->
    step (Newton i x) Bracketing
| newton_out_of_bounds i x fx dfx next :
    (i < 50)%nat -> price_residual x = Some fx ->
    (abs fx <? 1e-10) = false ->
    price_derivative x = Some dfx ->
    negb (isFinite dfx) || (abs dfx <? 1e-12) = false ->
    next = x - fx / dfx ->
    negb (isFinite next) || (next <=? -0.999999) || (10 <? next) = true ->
    step (Newton i x) Bracketing
| newton_settled i x fx dfx next :
    (i < 50)%nat -> price_residual x = Some fx ->
    (abs fx <? 1e-10) = false ->
    price_derivative x = Some dfx ->
    negb (isFinite dfx) || (abs dfx <? 1e-12) = false ->
    next = x - fx / dfx ->
    negb (isFinite next) || (next <=? -0.999999) || (10 <? next) = false ->
    (abs (next - x) <? 1e-12) = true ->
    step (Newton i x) (Finished next)
| newton_continue i x fx dfx next :
    (i < 50)%nat -> price_residual x = Some fx ->
    (abs fx <? 1e-10) = false ->
    price_derivative x = Some dfx ->
    negb (isFinite dfx) || (abs dfx <? 1e-12) = false ->
    next = x - fx / dfx ->
    negb (isFinite next) || (next <=? -0.999999) || (10 <? next) = false ->
    (abs (next - x) <? 1e-12) = false ->
    step (Newton i x) (Newton (S i) next)
| newton_exhausted i x :
    (50 <= i)%nat -> step (Newton i x) Bracketing
| bracket_set fLow fHigh :
    price_residual (-0.99) = Some fLow -> price_residual 1.0 = Some fHigh ->
    step Bracketing (Expanding 0 1.0 fLow fHigh)
| expand_again expandCount high fLow fHigh fHigh' :
    (0 <? fLow * fHigh) = true -> (expandCount < 20)%nat ->
    price_residual (high * 2) = Some fHigh' ->
    step (Expanding expandCount high fLow fHigh)
         (Expanding (S expandCount) (high * 2) fLow fHigh')
| expand_done expandCount high fLow fHigh :
    (0 <? fLow * fHigh) = false \/ (20 <= expandCount)%nat ->
    step (Expanding expandCount high fLow fHigh) (Bisecting 0 (-0.99) high fLow)
| bisect_found i low high fLow mid fMid :
    (i < 200)%nat -> mid = (low + high) / 2 ->
    price_residual mid = Some fMid ->
    (abs fMid <? 1e-10) = true ->
    step (Bisecting i low high fLow) (Finished mid)
| bisect_lower_half i low high fLow mid fMid :
    (i < 200)%nat -> mid = (low + high) / 2 ->
    price_residual mid = Some fMid ->
    (abs fMid <? 1e-10) = false -> (fLow * fMid <=? 0) = true ->
    step (Bisecting i low high fLow) (Bisecting (S i) low mid fLow)
| bisect_upper_half i low high fLow mid fMid :
    (i < 200)%nat -> mid = (low + high) / 2 ->
    price_residual mid = Some fMid ->
    (abs fMid <? 1e-10) = false -> (fLow * fMid <=? 0) = false ->
    step (Bisecting i low high fLow) (Bisecting (S i) mid high fMid)
| bisect_exhausted i low high fLow :
    (200 <= i)%nat ->
    step (Bisecting i low high fLow) (Finished ((low + high) / 2)).

(** A run of the machine that ends with the rate [r]. *)
Inductive returns : solver_state -> number -> Prop :=
| returns_now r : returns (Finished r) r
| returns_later s s' r : step s s' -> returns s' r -> returns s r.

(** The state a call starts in. *)
Definition entry (frequencyPerYear couponRateDecimal : number) : solver_state :=
  Newton 0 (Math_max (-0.95) (couponRateDecimal / frequencyPerYear)).

(** What the code of [solvePeriodicYtm] computes from a state on. *)
Definition rest_of_call (s : solver_state) : option number :=
  match s with
  | Newton i x =>
      let* exit := newton marketPrice couponPayment faceValue periods (50 - i) x in
      match exit with
      | Converged r => Some r
      | Abandoned => bisection marketPrice couponPayment faceValue periods
      end
  | Bracketing => bisection marketPrice couponPayment faceValue periods
  | Expanding expandCount high fLow fHigh =>
      let* bracket :=
        expand marketPrice couponPayment faceValue periods (20 - expandCount)
          fLow high fHigh in
      bisect marketPrice couponPayment faceValue periods 200 (-0.99) (fst bracket) fLow
  | Bisecting i low high fLow =>
      bisect marketPrice couponPayment faceValue periods (200 - i) low high fLow
  | Finished r => Some r
  end.

End Machine.

(** ** The service and the status label

    [BondService.calculate] of [backend/src/bond/bond.service.ts], the one
    caller of the validator and of [calculateBondMetrics], and [statusLabel]
    of [frontend/src/App.tsx], which words the trading status it receives. *)

(** The body of a [BadRequestException]. *)
Module BadRequestException.
Record t : Type := {
  message : string;
  errors : list string
}.
End BadRequestException.

(** What a call of the service produces: the result, a
    [BadRequestException], an error of the calculation that the service lets
    through, or nothing when the calculation never returns. *)
Inductive reply : Type :=
| Replied (result : BondCalculationResult)
| BadRequest (body : BadRequestException.t)
| Failed (message : string)
| NoReply.

Module BondService.

Definition calculate {host : Host} (dto : BondCalculationInput) : reply :=
  let errors := validateBondInput dto in
  if (0 <? List.length errors)%nat then
    BadRequest {| BadRequestException.message := "Validation failed";
                  BadRequestException.errors := errors |}
  else
    match calculateBondMetrics dto with
    | Returned result => Replied result
    | Thrown message => Failed message
    | NoResult => NoReply
    end.

End BondService.

Definition statusLabel (status : string) : string :=
  if String.eqb status "premium" then "Trading at Premium"
  else if String.eqb status "discount" then "Trading at Discount"
  else "Trading at Par".

(** ** Sample inputs

    The platform and the inputs the statements are tried on: the reference
    platform on 2026-02-23, and bonds settled on that day. *)

Definition reference : Host := ReferenceHost.at_day 20507.

Definition bond (face rate price years : number) (frequency : string)
    : BondCalculationInput :=
  {| faceValue := face;
     annualCouponRatePct := rate;
     marketPrice := price;
     yearsToMaturity := years;
     couponFrequency := frequency;
     settlementDate := Some "2026-02-23" |}.

(** ** Binary64 numbers as real numbers

    The operations of primitive floats are specified by [SpecFloat] on
    mantissas and exponents; what follows reads those as real numbers, to
    bound the results of the operations. *)

(** The exponent of the binary64 grid at a magnitude of [e] bits. *)
Abbreviation fexp64 := (SpecFloat.fexp prec emax).

Section Values.

#[local] Open Scope Z_scope.

Definition bpow (e : Z) : R := powerRZ 2 e.
Definition F2R (m e : Z) : R := (IZR m * bpow e)%R.

(** Where a real number lies with respect to the dyadic grid of exponent [e]:
    the round and sticky bits of a shift record. *)
Definition located (m e : Z) (r s : bool) (v : R) : Prop :=
  match r, s with
  | false, false => v = F2R m e
  | false, true => (F2R m e < v < F2R m e + bpow e / 2)%R
  | true, false => v = (F2R m e + bpow e / 2)%R
  | true, true => (F2R m e + bpow e / 2 < v < F2R m e + bpow e)%R
  end.

Definition located_rec (mrs : shr_record) (e : Z) (v : R) : Prop :=
  located (shr_m mrs) e (shr_r mrs) (shr_s mrs) v.

(** A mantissa and exponent on the grid of binary64: at most 53 bits, and 53
    bits exactly above the smallest exponent. *)
Definition on_grid (m e : Z) : Prop :=
  0 <= m < 2 ^ 53 /\ -1074 <= e /\ (e = -1074 \/ 2 ^ 52 <= m).

(** The number a rounding ends with: mantissa [m] (at most 2^53, after the
    rounding of a grid mantissa) and exponent [e], renormalised, with the
    overflow test. *)
Definition pack (s : bool) (m e : Z) : spec_float :=
  match m with
  | Z0 => S754_zero s
  | Zpos p =>
      if m =? 2 ^ 53 then
        if e + 1 <=? 971 then S754_finite s (Z.to_pos (2 ^ 52)) (e + 1) else S754_infinity s
      else if e <=? 971 then S754_finite s p e else S754_infinity s
  | Zneg _ => S754_nan
  end.

(** Rounding to nearest even, from the round and sticky bits. *)
Definition rne (m : Z) (r sb : bool) : Z :=
  round_nearest_even m (loc_of_shr_record (Build_shr_record m r sb)).

Definition SF2R (x : spec_float) : R :=
  match x with
  | S754_finite s m e => F2R (cond_Zopp s (Zpos m)) e
  | _ => 0%R
  end.

Definition SF_finite (x : spec_float) : bool :=
  match x with
  | S754_finite _ _ _ | S754_zero _ => true
  | _ => false
  end.

Definition signed (s : bool) (v : R) : R := if s then (- v)%R else v.

(** [x] is the magnitude [v] rounded to nearest even, with sign [s]. *)
Definition rounded (s : bool) (v : R) (x : spec_float) : Prop :=
  exists m e r sb,
    located m e r sb v /\ on_grid m e /\ x = pack s (rne m r sb) e.

Definition B2R (x : float) : R := SF2R (Prim2SF x).

End Values.

(** ** What the solver keeps *)

(** What the solver returns: a finite rate above -1. *)
Definition sane (r : number) : Prop := is_finite r = true /\ (-1 <? r) = true.

(** Where the bisection keeps its bracket. *)
Definition bracketed (x : number) : Prop :=
  is_finite x = true /\ (B2R (-0.99) <= B2R x <= B2R 1048576)%R.

Definition powers : list number :=
  [1; 2; 4; 8; 16; 32; 64; 128; 256; 512; 1024; 2048; 4096; 8192; 16384; 32768;
   65536; 131072; 262144; 524288; 1048576].

(** The test of the bounds that a Newton iterate passes. *)
Definition within_newton_bounds (r : number) : Prop :=
  is_finite r = true /\ (-0.999999 <? r) = true /\ (r <=? 10) = true.

(** The widest bracket of the bisection. *)
Definition within_bracket (r : number) : Prop :=
  is_finite r = true /\ (-0.99 <=? r) = true /\ (r <=? 1048576) = true.

(** ** Numbers that are not negative *)

(** [X] is the rounding of the magnitude [v], with the sign of a number that
    is not negative (a zero may have either sign). *)
Definition rounded_nonneg_value (v : R) (X : spec_float) : Prop :=
  exists s, rounded s v X /\ (s = false \/ v = 0%R).

(** Zero or more: not negative and not NaN; +Infinity counts. *)
Definition nonneg (x : number) : Prop := (0 <=? x) = true.


(** * Facts about binary64 arithmetic *)

Section ValueFacts.

#[local] Open Scope Z_scope.

Lemma bpow_gt_0 e : (0 < bpow e)%R.
Proof. apply powerRZ_lt. lra. Qed.

Lemma bpow_plus a b : bpow (a + b) = (bpow a * bpow b)%R.
Proof. apply powerRZ_add. lra. Qed.

Lemma bpow_IZR k : 0 <= k -> bpow k = IZR (2 ^ k).
Proof.
  intros Hk. unfold bpow.
  rewrite <- (Z2Nat.id k Hk) at 1. rewrite <- pow_powerRZ.
  rewrite pow_IZR. now rewrite Z2Nat.id.
Qed.

Lemma bpow_lt a b : a < b -> (bpow a < bpow b)%R.
Proof.
  intros H. replace b with (a + (b - a)) by ring. rewrite bpow_plus.
  rewrite (bpow_IZR (b - a)) by lia.
  assert (H0 : 2 <= 2 ^ (b - a)).
  { change 2 with (2 ^ 1) at 1. apply Z.pow_le_mono_r; lia. }
  apply IZR_le in H0. pose proof (bpow_gt_0 a). nra.
Qed.

Lemma bpow_le a b : a <= b -> (bpow a <= bpow b)%R.
Proof.
  intros H. destruct (Z.eq_dec a b) as [->|Hne]; [lra|].
  apply Rlt_le, bpow_lt. lia.
Qed.

Lemma F2R_le m1 m2 e : m1 <= m2 -> (F2R m1 e <= F2R m2 e)%R.
Proof.
  intros H. unfold F2R. apply IZR_le in H. pose proof (bpow_gt_0 e). nra.
Qed.

Lemma F2R_lt m1 m2 e : m1 < m2 -> (F2R m1 e < F2R m2 e)%R.
Proof.
  intros H. unfold F2R. apply IZR_lt in H. pose proof (bpow_gt_0 e). nra.
Qed.

Lemma F2R_lt_inv m1 m2 e : (F2R m1 e < F2R m2 e)%R -> m1 < m2.
Proof.
  intros H. destruct (Z_lt_le_dec m1 m2) as [|Hle]; [assumption|].
  apply (F2R_le _ _ e) in Hle. lra.
Qed.

Lemma F2R_le_inv m1 m2 e : (F2R m1 e <= F2R m2 e)%R -> m1 <= m2.
Proof.
  intros H. destruct (Z_le_gt_dec m1 m2) as [|Hgt]; [assumption|].
  apply Z.gt_lt, (F2R_lt _ _ e) in Hgt. lra.
Qed.

(** Changing the exponent of a dyadic number. *)
Lemma F2R_shift m e k : 0 <= k -> F2R (m * 2 ^ k) e = F2R m (e + k).
Proof.
  intros Hk. unfold F2R. rewrite mult_IZR, (Z.add_comm e k), bpow_plus.
  rewrite <- (bpow_IZR k Hk). ring.
Qed.

Lemma F2R_0 e : F2R 0 e = 0%R.
Proof. unfold F2R. ring. Qed.

(** Digits *)
Lemma digits2_pos_bounds p :
  2 ^ (Zpos (digits2_pos p) - 1) <= Zpos p < 2 ^ Zpos (digits2_pos p).
Proof.
  induction p as [p IH|p IH|]; simpl digits2_pos.
  - rewrite Pos2Z.inj_succ. replace (Z.succ (Zpos (digits2_pos p)) - 1) with (Z.succ (Zpos (digits2_pos p) - 1)) by lia.
    rewrite !Z.pow_succ_r by lia. lia.
  - rewrite Pos2Z.inj_succ. replace (Z.succ (Zpos (digits2_pos p)) - 1) with (Z.succ (Zpos (digits2_pos p) - 1)) by lia.
    rewrite !Z.pow_succ_r by lia. lia.
  - simpl. lia.
Qed.

Lemma Zdigits2_bounds m : 0 < m -> 2 ^ (Zdigits2 m - 1) <= m < 2 ^ Zdigits2 m.
Proof. destruct m; try lia. intros _. apply digits2_pos_bounds. Qed.

Lemma Zdigits2_nonneg m : 0 <= Zdigits2 m.
Proof. destruct m; simpl; lia. Qed.

Lemma Zdigits2_pos m : 0 < m -> 0 < Zdigits2 m.
Proof. destruct m; simpl; lia. Qed.

Lemma Zdigits2_unique m d : 0 < d -> 2 ^ (d - 1) <= m < 2 ^ d -> Zdigits2 m = d.
Proof.
  intros Hd [Hlo Hhi].
  assert (0 < m) by (pose proof (Z.pow_pos_nonneg 2 (d - 1)); lia).
  pose proof (Zdigits2_bounds m H) as [Hlo' Hhi'].
  pose proof (Zdigits2_pos m H).
  destruct (Z.lt_trichotomy (Zdigits2 m) d) as [Hlt|[Heq|Hgt]]; [|exact Heq|].
  - assert (2 ^ Zdigits2 m <= 2 ^ (d - 1)) by (apply Z.pow_le_mono_r; lia). lia.
  - assert (2 ^ d <= 2 ^ (Zdigits2 m - 1)) by (apply Z.pow_le_mono_r; lia). lia.
Qed.

Lemma Zdigits2_le m d : 0 <= m -> 0 <= d -> m < 2 ^ d -> Zdigits2 m <= d.
Proof.
  intros Hm Hd Hlt. destruct (Z.eq_dec m 0) as [->|Hne]; [simpl; lia|].
  pose proof (Zdigits2_bounds m ltac:(lia)) as [Hlo _].
  destruct (Z_le_gt_dec (Zdigits2 m) d) as [|Hgt]; [assumption|].
  assert (2 ^ d <= 2 ^ (Zdigits2 m - 1)) by (apply Z.pow_le_mono_r; lia). lia.
Qed.

Lemma Zdigits2_ge m d : 0 <= d -> 2 ^ d <= m -> d + 1 <= Zdigits2 m.
Proof.
  intros Hd Hle.
  assert (0 < m) by (pose proof (Z.pow_pos_nonneg 2 d); lia).
  pose proof (Zdigits2_bounds m H) as [_ Hhi]. pose proof (Zdigits2_pos m H).
  destruct (Z_le_gt_dec (d + 1) (Zdigits2 m)) as [|Hgt]; [assumption|].
  assert (2 ^ Zdigits2 m <= 2 ^ d) by (apply Z.pow_le_mono_r; lia). lia.
Qed.

Lemma bpow_succ e : bpow (e + 1) = (2 * bpow e)%R.
Proof. rewrite bpow_plus. unfold bpow at 2. simpl. ring. Qed.

Lemma shr_1_located mrs e v :
  0 <= shr_m mrs -> located_rec mrs e v ->
  located_rec (shr_1 mrs) (e + 1) v /\ shr_m (shr_1 mrs) = shr_m mrs / 2.
Proof.
  destruct mrs as [m r s]. unfold located_rec. simpl shr_m. simpl shr_r. simpl shr_s.
  intros Hm H. pose proof (bpow_gt_0 e) as Hb.
  destruct m as [|p|p]; [| |lia].
  - simpl. split; [|reflexivity].
    unfold located, F2R in *. rewrite bpow_succ. simpl IZR in *.
    destruct r, s; simpl; lra.
  - destruct p as [p|p|].
    + split; [|simpl shr_m; rewrite Pos2Z.inj_xI; apply Z.div_unique with 1; lia].
      simpl. unfold located, F2R in *. rewrite bpow_succ.
      rewrite Pos2Z.inj_xI, plus_IZR, mult_IZR in H. simpl (IZR 2) in H. simpl (IZR 1) in H.
      destruct r, s; simpl; lra.
    + split; [|simpl shr_m; rewrite Pos2Z.inj_xO; apply Z.div_unique with 0; lia].
      simpl. unfold located, F2R in *. rewrite bpow_succ.
      rewrite Pos2Z.inj_xO, mult_IZR in H. simpl (IZR 2) in H.
      destruct r, s; simpl; lra.
    + split; [|reflexivity].
      simpl. unfold located, F2R in *. rewrite bpow_succ. simpl IZR in *.
      destruct r, s; simpl; lra.
Qed.

Lemma pow2_xO k : 2 ^ Zpos k~0 = 2 ^ Zpos k * 2 ^ Zpos k.
Proof. rewrite <- Z.pow_add_r by lia. f_equal. lia. Qed.

Lemma pow2_xI k : 2 ^ Zpos k~1 = 2 * (2 ^ Zpos k * 2 ^ Zpos k).
Proof.
  rewrite <- Z.pow_add_r by lia. rewrite <- (Z.pow_succ_r 2) by lia. f_equal. lia.
Qed.

Lemma iter_shr_located k :
  forall mrs e v,
    0 <= shr_m mrs -> located_rec mrs e v ->
    located_rec (SpecFloat.iter_pos shr_1 k mrs) (e + Zpos k) v /\
    shr_m (SpecFloat.iter_pos shr_1 k mrs) = shr_m mrs / 2 ^ Zpos k.
Proof.
  induction k as [k IH|k IH|]; intros mrs e v Hm H; simpl SpecFloat.iter_pos.
  - destruct (shr_1_located mrs e v Hm H) as [H1 E1].
    assert (Hm1 : 0 <= shr_m (shr_1 mrs)) by (rewrite E1; apply Z.div_pos; lia).
    destruct (IH _ _ _ Hm1 H1) as [H2 E2].
    assert (Hm2 : 0 <= shr_m (SpecFloat.iter_pos shr_1 k (shr_1 mrs))) by (rewrite E2; apply Z.div_pos; lia).
    destruct (IH _ _ _ Hm2 H2) as [H3 E3].
    split.
    + replace (e + Zpos k~1) with (e + 1 + Zpos k + Zpos k) by lia. exact H3.
    + rewrite E3, E2, E1. rewrite !Z.div_div by lia. f_equal.
      rewrite pow2_xI. ring.
  - destruct (IH _ _ _ Hm H) as [H2 E2].
    assert (Hm2 : 0 <= shr_m (SpecFloat.iter_pos shr_1 k mrs)) by (rewrite E2; apply Z.div_pos; lia).
    destruct (IH _ _ _ Hm2 H2) as [H3 E3].
    split.
    + replace (e + Zpos k~0) with (e + Zpos k + Zpos k) by lia. exact H3.
    + rewrite E3, E2. rewrite !Z.div_div by lia. f_equal.
      rewrite pow2_xO. ring.
  - destruct (shr_1_located mrs e v Hm H) as [H1 E1]. split; [exact H1|].
    rewrite E1. reflexivity.
Qed.

(** The result of [shr]: a shift by [n] when [n] is positive. *)
Lemma shr_located mrs e n v :
  0 <= shr_m mrs -> located_rec mrs e v ->
  let '(mrs', e') := shr mrs e n in
  e' = e + Z.max n 0 /\ located_rec mrs' e' v /\
  shr_m mrs' = shr_m mrs / 2 ^ Z.max n 0.
Proof.
  intros Hm H. destruct n as [|p|p]; simpl shr.
  - rewrite Z.add_0_r. simpl Z.max. rewrite Z.pow_0_r, Z.div_1_r. auto.
  - destruct (iter_shr_located p mrs e v Hm H) as [H1 E1].
    replace (Z.max (Zpos p) 0) with (Zpos p) by lia. auto.
  - replace (Z.max (Zneg p) 0) with 0 by lia.
    rewrite Z.add_0_r, Z.pow_0_r, Z.div_1_r. auto.
Qed.

Lemma located_of_loc m l :
  shr_m (shr_record_of_loc m l) = m.
Proof. destruct l as [|[]]; reflexivity. Qed.

Lemma loc_of_record_of_loc m l : loc_of_shr_record (shr_record_of_loc m l) = l.
Proof. destruct l as [|[]]; reflexivity. Qed.

Lemma fexp64_eq e : fexp64 e = Z.max (e - 53) (-1074).
Proof. reflexivity. Qed.

Lemma shr_fexp_spec m e l v :
  0 <= m -> e <= fexp64 (Zdigits2 m + e) ->
  located_rec (shr_record_of_loc m l) e v ->
  let '(mrs, e1) := shr_fexp prec emax m e l in
  located_rec mrs e1 v /\ on_grid (shr_m mrs) e1.
Proof.
  intros Hm He Hv. unfold shr_fexp. rewrite fexp64_eq in *.
  set (n := Z.max (Zdigits2 m + e - 53) (-1074) - e).
  assert (Hm' : 0 <= shr_m (shr_record_of_loc m l)) by now rewrite located_of_loc.
  pose proof (shr_located _ e n v Hm' Hv) as H.
  destruct (shr (shr_record_of_loc m l) e n) as [mrs e1].
  destruct H as (He1 & Hloc & Hm1). rewrite located_of_loc in Hm1.
  split; [exact Hloc|].
  assert (Hn : 0 <= n) by (unfold n; lia).
  rewrite Z.max_l in He1, Hm1 by exact Hn.
  pose proof (Zdigits2_nonneg m) as Hd.
  assert (Hpow : 0 < 2 ^ n) by (apply Z.pow_pos_nonneg; lia).
  unfold on_grid. rewrite Hm1. repeat split.
  - apply Z.div_pos; lia.
  - apply Z.div_lt_upper_bound; [exact Hpow|].
    rewrite <- Z.pow_add_r by lia.
    destruct (Z.eq_dec m 0) as [->|Hne]; [apply Z.pow_pos_nonneg; lia|].
    pose proof (Zdigits2_bounds m ltac:(lia)) as [_ Hhi].
    assert (2 ^ Zdigits2 m <= 2 ^ (n + 53)) by (apply Z.pow_le_mono_r; unfold n; lia).
    lia.
  - unfold n in He1. lia.
  - destruct (Z.eq_dec e1 (-1074)) as [|Hne]; [left; assumption|right].
    assert (Hn' : n = Zdigits2 m - 53) by (unfold n in *; lia).
    assert (Hmpos : 0 < m) by (destruct m; simpl in *; lia).
    pose proof (Zdigits2_bounds m Hmpos) as [Hlo _].
    apply Z.div_le_lower_bound; [exact Hpow|].
    rewrite <- Z.pow_add_r by lia.
    replace (n + 52) with (Zdigits2 m - 1) by lia. exact Hlo.
Qed.

Lemma round_nearest_even_range m l :
  m <= round_nearest_even m l <= m + 1.
Proof.
  destruct l as [|[]]; simpl; try lia. destruct (Z.even m); lia.
Qed.

Lemma second_shr_fexp s m e :
  0 <= m <= 2 ^ 53 -> -1074 <= e ->
  (let '(mrs, e') := shr_fexp prec emax m e loc_Exact in
   match shr_m mrs with
   | Z0 => S754_zero s
   | Zpos p => if e' <=? emax - prec then S754_finite s p e' else S754_infinity s
   | Zneg _ => S754_nan
   end) = pack s m e.
Proof.
  intros Hm He. unfold shr_fexp, pack. rewrite fexp64_eq.
  change (emax - prec) with 971.
  destruct (Z.eq_dec m 0) as [->|Hm0].
  - simpl Zdigits2. replace (Z.max (0 + e - 53) (-1074) - e) with (- (e - Z.max (e - 53) (-1074))) by lia.
    destruct (e - Z.max (e - 53) (-1074)) eqn:E; try lia; reflexivity.
  - destruct (Z.eq_dec m (2 ^ 53)) as [->|Hm53].
    + change (Zdigits2 (2 ^ 53)) with 54.
      replace (Z.max (54 + e - 53) (-1074) - e) with 1 by lia.
      reflexivity.
    + assert (Hd : Zdigits2 m <= 53) by (apply Zdigits2_le; lia).
      destruct m as [|p|p]; try lia.
      replace (Z.pos p =? 2 ^ 53) with false by (symmetry; apply Z.eqb_neq; exact Hm53).
      remember (Z.max (Zdigits2 (Z.pos p) + e - 53) (-1074) - e) as n eqn:En.
      assert (n <= 0) by lia.
      destruct n as [|q|q]; try lia; reflexivity.
Qed.

(** [binary_round_aux] shifts the mantissa to the grid, rounds it to nearest
    even and packs the result. *)
Lemma binary_round_aux_spec s m e l v :
  0 <= m -> e <= fexp64 (Zdigits2 m + e) ->
  located_rec (shr_record_of_loc m l) e v ->
  exists mrs e1,
    located_rec mrs e1 v /\ on_grid (shr_m mrs) e1 /\
    binary_round_aux prec emax s m e l
      = pack s (round_nearest_even (shr_m mrs) (loc_of_shr_record mrs)) e1.
Proof.
  intros Hm He Hv. unfold binary_round_aux.
  pose proof (shr_fexp_spec m e l v Hm He Hv) as H.
  destruct (shr_fexp prec emax m e l) as [mrs e1]. destruct H as [Hloc Hgrid].
  exists mrs, e1. split; [exact Hloc|]. split; [exact Hgrid|].
  pose proof (round_nearest_even_range (shr_m mrs) (loc_of_shr_record mrs)) as Hr.
  destruct Hgrid as (Hm1 & He1 & _).
  apply second_shr_fexp; lia.
Qed.

Lemma F2R_bpow e k : 0 <= k -> F2R (2 ^ k) e = bpow (e + k).
Proof.
  intros Hk. replace (2 ^ k) with (1 * 2 ^ k) by ring. rewrite F2R_shift by exact Hk.
  unfold F2R. simpl. ring.
Qed.

Lemma F2R_succ m e : F2R (m + 1) e = (F2R m e + bpow e)%R.
Proof. unfold F2R. rewrite plus_IZR. simpl. ring. Qed.

Lemma on_grid_lt_bpow m e : on_grid m e -> (F2R m e < bpow (e + 53))%R.
Proof.
  intros ((_ & Hm) & _). rewrite <- F2R_bpow by lia. apply F2R_lt. exact Hm.
Qed.

Lemma on_grid_ge_bpow m e : on_grid m e -> -1074 < e -> (bpow (e + 52) <= F2R m e)%R.
Proof.
  intros (_ & _ & [He|Hm]) Hlt; [lia|].
  rewrite <- F2R_bpow by lia. apply F2R_le. exact Hm.
Qed.

(** Two grid numbers are never strictly inside one step of each other's grid. *)
Lemma grid_above m e mb eb :
  on_grid m e -> on_grid mb eb ->
  (F2R m e < F2R mb eb)%R -> (F2R (m + 1) e <= F2R mb eb)%R.
Proof.
  intros Hg Hb Hlt. destruct (Z_le_gt_dec e eb) as [Hle|Hgt].
  - replace eb with (e + (eb - e)) in * by ring.
    rewrite <- F2R_shift in * by lia.
    apply F2R_le. apply F2R_lt_inv in Hlt. lia.
  - exfalso. pose proof (on_grid_lt_bpow _ _ Hb) as H1.
    destruct Hb as (_ & Hb & _).
    pose proof (on_grid_ge_bpow _ _ Hg ltac:(lia)) as H2.
    pose proof (bpow_le (eb + 53) (e + 52) ltac:(lia)). lra.
Qed.

Lemma grid_below m e mb eb :
  on_grid m e -> on_grid mb eb ->
  (F2R mb eb < F2R (m + 1) e)%R -> (F2R mb eb <= F2R m e)%R.
Proof.
  intros Hg Hb Hlt. destruct (Z_le_gt_dec e eb) as [Hle|Hgt].
  - replace eb with (e + (eb - e)) in * by ring.
    rewrite <- F2R_shift in * by lia.
    apply F2R_le. apply F2R_lt_inv in Hlt. lia.
  - pose proof (on_grid_lt_bpow _ _ Hb) as H1.
    destruct Hb as (_ & Hb & _).
    pose proof (on_grid_ge_bpow _ _ Hg ltac:(lia)) as H2.
    pose proof (bpow_le (eb + 53) (e + 52) ltac:(lia)). lra.
Qed.

Lemma rne_rec mrs :
  round_nearest_even (shr_m mrs) (loc_of_shr_record mrs)
  = rne (shr_m mrs) (shr_r mrs) (shr_s mrs).
Proof. destruct mrs as [m [] []]; reflexivity. Qed.

Lemma rne_range m r sb : m <= rne m r sb <= m + 1.
Proof. apply round_nearest_even_range. Qed.

Lemma rne_exact m : rne m false false = m.
Proof. reflexivity. Qed.

Lemma located_range m e r sb v :
  located m e r sb v -> (F2R m e <= v < F2R (m + 1) e)%R.
Proof.
  rewrite F2R_succ. pose proof (bpow_gt_0 e).
  unfold located. destruct r, sb; lra.
Qed.

Lemma located_inexact m e r sb v :
  located m e r sb v -> (r || sb = true) -> (F2R m e < v)%R.
Proof.
  pose proof (bpow_gt_0 e). unfold located. destruct r, sb; simpl; intros; try lra; discriminate.
Qed.

Lemma round_upper m e r sb v mb eb :
  located m e r sb v -> on_grid m e -> on_grid mb eb ->
  (v <= F2R mb eb)%R -> (F2R (rne m r sb) e <= F2R mb eb)%R.
Proof.
  intros Hloc Hg Hb Hle.
  destruct (r || sb) eqn:Hbits.
  - pose proof (located_inexact _ _ _ _ _ Hloc Hbits) as Hlt.
    pose proof (grid_above m e mb eb Hg Hb ltac:(lra)) as Hup.
    pose proof (rne_range m r sb) as [_ Hr]. apply (F2R_le _ _ e) in Hr. lra.
  - apply orb_false_iff in Hbits as [-> ->]. rewrite rne_exact.
    unfold located in Hloc. lra.
Qed.

Lemma round_lower m e r sb v mb eb :
  located m e r sb v -> on_grid m e -> on_grid mb eb ->
  (F2R mb eb <= v)%R -> (F2R mb eb <= F2R (rne m r sb) e)%R.
Proof.
  intros Hloc Hg Hb Hle.
  pose proof (located_range _ _ _ _ _ Hloc) as [_ Hhi].
  pose proof (grid_below m e mb eb Hg Hb ltac:(lra)) as Hdown.
  pose proof (rne_range m r sb) as [Hr _]. apply (F2R_le _ _ e) in Hr. lra.
Qed.

(** ** Values of floating-point numbers *)

Lemma F2R_cond_Zopp s m e : F2R (cond_Zopp s m) e = signed s (F2R m e).
Proof. destruct s; simpl; [|reflexivity]. unfold F2R. rewrite opp_IZR. ring. Qed.

Lemma valid_on_grid s m e :
  valid_binary (S754_finite s m e) = true -> on_grid (Zpos m) e /\ e <= 971.
Proof.
  unfold SpecFloat.valid_binary, SpecFloat.bounded, SpecFloat.canonical_mantissa.
  rewrite andb_true_iff, Z.eqb_eq, Z.leb_le, fexp64_eq.
  change (emax - prec) with 971. intros [Hc He]. split; [|exact He].
  pose proof (digits2_pos_bounds m) as [Hlo Hhi].
  unfold on_grid. repeat split; try lia.
  - assert (2 ^ Zpos (digits2_pos m) <= 2 ^ 53) by (apply Z.pow_le_mono_r; lia). lia.
  - destruct (Z.eq_dec e (-1074)) as [|Hne]; [left; assumption|right].
    replace (Zpos (digits2_pos m)) with 53 in Hlo by lia. exact Hlo.
Qed.

(** The value and finiteness of a packed result. *)
Lemma pack_finite s m e mb eb :
  0 <= m <= 2 ^ 53 -> -1074 <= e -> (e = -1074 \/ 2 ^ 52 <= m) ->
  on_grid mb eb -> eb <= 971 ->
  (F2R m e <= F2R mb eb)%R ->
  SF_finite (pack s m e) = true /\ SF2R (pack s m e) = signed s (F2R m e).
Proof.
  intros Hm He Hn Hb Heb Hle. unfold pack.
  pose proof (on_grid_lt_bpow _ _ Hb) as HB.
  destruct m as [|p|p]; [| |lia].
  - simpl. split; [reflexivity|]. rewrite F2R_0. destruct s; simpl; lra.
  - destruct (Z.eqb_spec (Zpos p) (2 ^ 53)) as [E|NE].
    + rewrite E in *. rewrite F2R_bpow in Hle by lia.
      destruct (Z.leb_spec (e + 1) 971) as [Hok|Hov].
      * split; [reflexivity|]. unfold SF2R. rewrite F2R_cond_Zopp. f_equal.
        change (Zpos (Z.to_pos (2 ^ 52))) with (2 ^ 52).
        rewrite !F2R_bpow by lia. f_equal. lia.
      * exfalso. pose proof (bpow_le (eb + 53) (e + 53) ltac:(lia)). lra.
    + destruct (Z.leb_spec e 971) as [Hok|Hov].
      * split; [reflexivity|]. unfold SF2R. apply F2R_cond_Zopp.
      * exfalso. destruct Hn as [Hn|Hn]; [lia|].
        apply (F2R_le _ _ e) in Hn. rewrite F2R_bpow in Hn by lia.
        pose proof (bpow_le (eb + 53) (e + 52) ltac:(lia)). lra.
Qed.

(** A packed result that is not finite is the infinity of its sign. *)
Lemma pack_cases s m e :
  0 <= m ->
  (m = 0 /\ pack s m e = S754_zero s) \/
  (0 < m /\ pack s m e = S754_infinity s) \/
  (0 < m /\ SF_finite (pack s m e) = true /\ SF2R (pack s m e) = signed s (F2R m e)
   /\ exists p e', pack s m e = S754_finite s p e').
Proof.
  intros Hm. unfold pack. destruct m as [|p|p]; [left; auto|right|lia].
  destruct (Z.eqb_spec (Zpos p) (2 ^ 53)) as [E|NE].
  - destruct (Z.leb_spec (e + 1) 971); [right|left; split; [lia|reflexivity]].
    split; [lia|]. split; [reflexivity|]. split; [|eauto].
    unfold SF2R. rewrite F2R_cond_Zopp. f_equal. rewrite E.
    change (Zpos (Z.to_pos (2 ^ 52))) with (2 ^ 52).
    rewrite !F2R_bpow by lia. f_equal. lia.
  - destruct (Z.leb_spec e 971); [right|left; split; [lia|reflexivity]].
    split; [lia|]. split; [reflexivity|]. split; [|eauto].
    unfold SF2R. apply F2R_cond_Zopp.
Qed.

Lemma binary_round_aux_rounded s m e l v :
  0 <= m -> e <= fexp64 (Zdigits2 m + e) ->
  located_rec (shr_record_of_loc m l) e v ->
  rounded s v (binary_round_aux prec emax s m e l).
Proof.
  intros Hm He Hv.
  destruct (binary_round_aux_spec s m e l v Hm He Hv) as (mrs & e1 & Hloc & Hg & E).
  exists (shr_m mrs), e1, (shr_r mrs), (shr_s mrs).
  rewrite <- rne_rec. auto.
Qed.

Lemma rne_grid m e r sb :
  on_grid m e ->
  0 <= rne m r sb <= 2 ^ 53 /\ -1074 <= e /\ (e = -1074 \/ 2 ^ 52 <= rne m r sb).
Proof.
  intros (Hm & He & Hn). pose proof (rne_range m r sb). repeat split; try lia.
Qed.

(** An upper bound that is a binary64 number is kept by rounding, and the
    result is finite. *)
Lemma rounded_upper s v x mb eb :
  rounded s v x -> on_grid mb eb -> eb <= 971 -> (v <= F2R mb eb)%R ->
  SF_finite x = true /\
  exists w, SF2R x = signed s w /\ (0 <= w <= F2R mb eb)%R.
Proof.
  intros (m & e & r & sb & Hloc & Hg & ->) Hb Heb Hle.
  pose proof (round_upper _ _ _ _ _ _ _ Hloc Hg Hb Hle) as Hup.
  destruct (rne_grid m e r sb Hg) as (H1 & H2 & H3).
  destruct (pack_finite s _ e mb eb H1 H2 H3 Hb Heb Hup) as [Hf Hv].
  split; [exact Hf|]. exists (F2R (rne m r sb) e). split; [exact Hv|].
  split; [|exact Hup]. rewrite <- (F2R_0 e). apply F2R_le. lia.
Qed.

(** A lower bound that is a positive binary64 number is kept by rounding. *)
Lemma rounded_lower s v x mb eb :
  rounded s v x -> on_grid mb eb -> 0 < mb -> (F2R mb eb <= v)%R ->
  x = S754_infinity s \/
  exists p e, x = S754_finite s p e /\ (F2R mb eb <= F2R (Zpos p) e)%R.
Proof.
  intros (m & e & r & sb & Hloc & Hg & ->) Hb Hmb Hle.
  pose proof (round_lower _ _ _ _ _ _ _ Hloc Hg Hb Hle) as Hlow.
  destruct (rne_grid m e r sb Hg) as (H1 & H2 & H3).
  assert (Hpos : 0 < rne m r sb).
  { apply (F2R_lt_inv _ _ e). rewrite F2R_0.
    assert (0 < F2R mb eb)%R by (rewrite <- (F2R_0 eb); apply F2R_lt; exact Hmb). lra. }
  destruct (pack_cases s (rne m r sb) e ltac:(lia)) as [[H0 _]|[[_ Hinf]|(_ & _ & Hv & p & e' & E)]].
  - lia.
  - left. exact Hinf.
  - right. exists p, e'. split; [exact E|].
    rewrite E in Hv. unfold SF2R in Hv. rewrite F2R_cond_Zopp in Hv.
    destruct s; simpl in Hv; lra.
Qed.

Lemma rounded_nonneg s v x : rounded s v x -> (0 <= v)%R.
Proof.
  intros (m & e & r & sb & Hloc & Hg & _).
  pose proof (located_range _ _ _ _ _ Hloc) as [Hlo _].
  destruct Hg as ((Hm & _) & _). apply (F2R_le _ _ e) in Hm. rewrite F2R_0 in Hm. lra.
Qed.

(** ** Alignment and normalisation *)

Lemma shl_align_spec mx ex ez :
  let '(m', e') := shl_align mx ex ez in
  e' = Z.min ex ez /\ Zpos m' = Zpos mx * 2 ^ (ex - e').
Proof.
  unfold shl_align. destruct (ez - ex) as [|d|d] eqn:E.
  - split; [lia|]. rewrite Z.sub_diag. simpl. lia.
  - split; [lia|]. rewrite Z.sub_diag. simpl. lia.
  - split; [lia|]. replace (ex - ez) with (Zpos d) by lia.
    change (Pos.iter xO mx d) with (shift_pos d mx).
    rewrite shift_pos_correct, Z.pow_pos_fold. lia.
Qed.

Lemma Zdigits2_mul_pow2 m k : 0 < m -> 0 <= k -> Zdigits2 (m * 2 ^ k) = Zdigits2 m + k.
Proof.
  intros Hm Hk. pose proof (Zdigits2_bounds m Hm) as [Hlo Hhi].
  pose proof (Zdigits2_pos m Hm) as Hd.
  assert (0 < 2 ^ k) by (apply Z.pow_pos_nonneg; lia).
  apply Zdigits2_unique; [lia|].
  replace (Zdigits2 m + k - 1) with (Zdigits2 m - 1 + k) by lia.
  rewrite !Z.pow_add_r by lia. nia.
Qed.

Lemma fexp64_mono a b : a <= b -> fexp64 a <= fexp64 b.
Proof. rewrite !fexp64_eq. lia. Qed.

Lemma binary_round_rounded s mx ex :
  rounded s (F2R (Zpos mx) ex) (binary_round prec emax s mx ex).
Proof.
  unfold binary_round.
  pose proof (shl_align_spec mx ex (fexp64 (Zpos (digits2_pos mx) + ex))) as H.
  destruct (shl_align mx ex _) as [mz ez]. destruct H as [He Hm].
  assert (Hk : 0 <= ex - ez) by lia.
  apply binary_round_aux_rounded.
  - lia.
  - rewrite Hm, Zdigits2_mul_pow2 by lia. simpl Zdigits2.
    replace (Zpos (digits2_pos mx) + (ex - ez) + ez) with (Zpos (digits2_pos mx) + ex) by lia.
    lia.
  - unfold located_rec. simpl. unfold located. rewrite Hm, F2R_shift by lia.
    f_equal. lia.
Qed.

Lemma binary_normalize_rounded m e sz :
  m <> 0 ->
  rounded (m <? 0) (F2R (Z.abs m) e) (binary_normalize prec emax m e sz).
Proof.
  destruct m as [|p|p]; [congruence| |]; intros _; simpl; apply binary_round_rounded.
Qed.

(** ** Addition and subtraction of finite numbers *)

Lemma F2R_shift_down s m ex ez :
  ez <= ex ->
  F2R (cond_Zopp s (m * 2 ^ (ex - ez))) ez = F2R (cond_Zopp s m) ex.
Proof.
  intros H. replace (cond_Zopp s (m * 2 ^ (ex - ez))) with (cond_Zopp s m * 2 ^ (ex - ez))
    by (destruct s; simpl; ring).
  rewrite F2R_shift by lia. f_equal. lia.
Qed.

Lemma aligned_sum sx mx ex sy my ey :
  let ez := Z.min ex ey in
  F2R (cond_Zopp sx (Zpos (fst (shl_align mx ex ez)))
       + cond_Zopp sy (Zpos (fst (shl_align my ey ez)))) ez
  = (SF2R (S754_finite sx mx ex) + SF2R (S754_finite sy my ey))%R.
Proof.
  intros ez.
  pose proof (shl_align_spec mx ex ez) as Hx. pose proof (shl_align_spec my ey ez) as Hy.
  destruct (shl_align mx ex ez) as [mx' ex']. destruct (shl_align my ey ez) as [my' ey'].
  destruct Hx as [Ex Hx]. destruct Hy as [Ey Hy]. simpl fst.
  assert (ex' = ez) by (unfold ez in *; lia). assert (ey' = ez) by (unfold ez in *; lia).
  subst ex' ey'. unfold SF2R.
  rewrite <- (F2R_shift_down sx (Zpos mx) ex ez), <- (F2R_shift_down sy (Zpos my) ey ez)
    by (unfold ez; lia).
  rewrite Hx, Hy.
  replace (Z.min ex ez) with ez by (unfold ez; lia).
  replace (Z.min ey ez) with ez by (unfold ez; lia).
  unfold F2R. rewrite plus_IZR. ring.
Qed.

Lemma aligned_difference sx mx ex sy my ey :
  let ez := Z.min ex ey in
  F2R (cond_Zopp sx (Zpos (fst (shl_align mx ex ez)))
       - cond_Zopp sy (Zpos (fst (shl_align my ey ez)))) ez
  = (SF2R (S754_finite sx mx ex) - SF2R (S754_finite sy my ey))%R.
Proof.
  intros ez.
  pose proof (aligned_sum sx mx ex (negb sy) my ey) as H. fold ez in H.
  replace (SF2R (S754_finite (negb sy) my ey)) with (- SF2R (S754_finite sy my ey))%R in H.
  - rewrite <- Rminus_def in H. rewrite <- H. f_equal. destruct sy; simpl; lia.
  - unfold SF2R. rewrite !F2R_cond_Zopp. destruct sy; simpl; lra.
Qed.

Lemma F2R_abs m e : F2R (Z.abs m) e = Rabs (F2R m e).
Proof.
  unfold F2R. rewrite abs_IZR, Rabs_mult. f_equal.
  symmetry. apply Rabs_pos_eq. apply Rlt_le, bpow_gt_0.
Qed.

Lemma F2R_sign m e : (m <? 0) = true <-> (F2R m e < 0)%R.
Proof.
  rewrite Z.ltb_lt. rewrite <- (F2R_0 e). split; [apply F2R_lt|apply F2R_lt_inv].
Qed.

(** The sum of two finite numbers is zero when the exact sum is, and the
    exact sum rounded otherwise. *)
Lemma SFadd_finite sx mx ex sy my ey :
  let v := (SF2R (S754_finite sx mx ex) + SF2R (S754_finite sy my ey))%R in
  ((v = 0)%R /\ SFadd prec emax (S754_finite sx mx ex) (S754_finite sy my ey) = S754_zero false)
  \/
  ((v <> 0)%R /\
   (-1074 <= ex -> -1074 <= ey -> (bpow (-1074) <= Rabs v)%R) /\
   exists s, (s = true <-> (v < 0)%R) /\
     rounded s (Rabs v) (SFadd prec emax (S754_finite sx mx ex) (S754_finite sy my ey))).
Proof.
  intros v. unfold SFadd.
  pose proof (aligned_sum sx mx ex sy my ey) as H. cbv zeta in H. fold v in H.
  set (M := cond_Zopp sx _ + cond_Zopp sy _) in *.
  destruct (Z.eq_dec M 0) as [E|NE].
  - left. rewrite E in *. rewrite F2R_0 in H. split; [now symmetry|reflexivity].
  - right. split.
    + intros Hv. rewrite Hv, <- (F2R_0 (Z.min ex ey)) in H.
      destruct (Z.lt_trichotomy M 0) as [Hlt|[|Hgt]]; [|contradiction|].
      * apply (F2R_lt _ _ (Z.min ex ey)) in Hlt. lra.
      * apply (F2R_lt _ _ (Z.min ex ey)) in Hgt. lra.
    + split.
      * intros Hex Hey. rewrite <- H, <- F2R_abs.
        apply Rle_trans with (bpow (Z.min ex ey)); [apply bpow_le; lia|].
        replace (bpow (Z.min ex ey)) with (F2R 1 (Z.min ex ey)) by (unfold F2R; simpl; ring).
        apply F2R_le. lia.
      * exists (M <? 0). split; [rewrite <- H; apply F2R_sign|].
        rewrite <- H, <- F2R_abs. apply binary_normalize_rounded. exact NE.
Qed.

Lemma SFsub_finite sx mx ex sy my ey :
  let v := (SF2R (S754_finite sx mx ex) - SF2R (S754_finite sy my ey))%R in
  ((v = 0)%R /\ SFsub prec emax (S754_finite sx mx ex) (S754_finite sy my ey) = S754_zero false)
  \/
  ((v <> 0)%R /\
   (-1074 <= ex -> -1074 <= ey -> (bpow (-1074) <= Rabs v)%R) /\
   exists s, (s = true <-> (v < 0)%R) /\
     rounded s (Rabs v) (SFsub prec emax (S754_finite sx mx ex) (S754_finite sy my ey))).
Proof.
  intros v. unfold SFsub.
  pose proof (aligned_difference sx mx ex sy my ey) as H. cbv zeta in H. fold v in H.
  set (M := cond_Zopp sx _ - cond_Zopp sy _) in *.
  destruct (Z.eq_dec M 0) as [E|NE].
  - left. rewrite E in *. rewrite F2R_0 in H. split; [now symmetry|reflexivity].
  - right. split.
    + intros Hv. rewrite Hv, <- (F2R_0 (Z.min ex ey)) in H.
      destruct (Z.lt_trichotomy M 0) as [Hlt|[|Hgt]]; [|contradiction|].
      * apply (F2R_lt _ _ (Z.min ex ey)) in Hlt. lra.
      * apply (F2R_lt _ _ (Z.min ex ey)) in Hgt. lra.
    + split.
      * intros Hex Hey. rewrite <- H, <- F2R_abs.
        apply Rle_trans with (bpow (Z.min ex ey)); [apply bpow_le; lia|].
        replace (bpow (Z.min ex ey)) with (F2R 1 (Z.min ex ey)) by (unfold F2R; simpl; ring).
        apply F2R_le. lia.
      * exists (M <? 0). split; [rewrite <- H; apply F2R_sign|].
        rewrite <- H, <- F2R_abs. apply binary_normalize_rounded. exact NE.
Qed.

Lemma F2R_pos p e : (0 < F2R (Zpos p) e)%R.
Proof. rewrite <- (F2R_0 e). apply F2R_lt. lia. Qed.

Lemma grid_exponent_lt m1 e1 m2 e2 :
  on_grid m1 e1 -> on_grid m2 e2 -> e1 < e2 -> (F2R m1 e1 < F2R m2 e2)%R.
Proof.
  intros H1 H2 Hlt.
  pose proof (on_grid_lt_bpow _ _ H1). destruct H1 as (_ & He1 & _).
  pose proof (on_grid_ge_bpow _ _ H2 ltac:(lia)).
  pose proof (bpow_le (e1 + 53) (e2 + 52) ltac:(lia)). lra.
Qed.

Lemma SFcompare_R x y :
  valid_binary x = true -> valid_binary y = true ->
  SF_finite x = true -> SF_finite y = true ->
  exists c, SFcompare x y = Some c /\
    match c with
    | Lt => (SF2R x < SF2R y)%R
    | Eq => SF2R x = SF2R y
    | Gt => (SF2R y < SF2R x)%R
    end.
Proof.
  intros Vx Vy Fx Fy.
  destruct x as [sx|sx| |sx mx ex]; try discriminate Fx;
  destruct y as [sy|sy| |sy my ey]; try discriminate Fy; simpl SFcompare.
  - exists Eq. split; reflexivity.
  - pose proof (F2R_pos my ey). unfold SF2R. rewrite F2R_cond_Zopp.
    destruct sy; eexists; (split; [reflexivity|]); simpl; lra.
  - pose proof (F2R_pos mx ex). unfold SF2R. rewrite F2R_cond_Zopp.
    destruct sx; eexists; (split; [reflexivity|]); simpl; lra.
  - apply valid_on_grid in Vx as [Gx _]. apply valid_on_grid in Vy as [Gy _].
    pose proof (F2R_pos mx ex). pose proof (F2R_pos my ey).
    unfold SF2R. rewrite !F2R_cond_Zopp.
    change (Pos.compare_cont Eq mx my) with (Pos.compare mx my).
    destruct (Z.compare_spec ex ey) as [->|Hlt|Hgt];
      [destruct (Pos.compare_spec mx my) as [->|Hlt|Hgt];
       [|apply Pos2Z.pos_lt_pos, (F2R_lt _ _ ey) in Hlt
        |apply Pos2Z.pos_lt_pos, (F2R_lt _ _ ey) in Hgt]
      |pose proof (grid_exponent_lt _ _ _ _ Gx Gy Hlt)
      |pose proof (grid_exponent_lt _ _ _ _ Gy Gx Hgt)];
      destruct sx, sy; eexists; (split; [reflexivity|]); simpl; lra.
Qed.

(** ** Primitive floats *)

Lemma SFcompare_refl x : x <> S754_nan -> SFcompare x x = Some Eq.
Proof.
  destruct x as [s|s| |s m e]; simpl; try congruence; intros _.
  - destruct s; reflexivity.
  - rewrite Z.compare_refl.
    change (Pos.compare_cont Eq m m) with (Pos.compare m m). rewrite Pos.compare_refl.
    destruct s; reflexivity.
Qed.

Lemma is_nan_spec x : is_nan x = match Prim2SF x with S754_nan => true | _ => false end.
Proof.
  unfold is_nan. rewrite FloatAxioms.eqb_spec. unfold SFeqb.
  destruct (Prim2SF x) eqn:E; try (rewrite SFcompare_refl by congruence); reflexivity.
Qed.

Lemma is_infinity_spec x :
  is_infinity x = match Prim2SF x with S754_infinity _ => true | _ => false end.
Proof.
  unfold is_infinity. rewrite FloatAxioms.eqb_spec, abs_spec.
  change (Prim2SF infinity) with (S754_infinity false).
  destruct (Prim2SF x) as [s|s| |s m e]; reflexivity.
Qed.

Lemma is_finite_spec x : is_finite x = SF_finite (Prim2SF x).
Proof.
  unfold is_finite. rewrite is_nan_spec, is_infinity_spec.
  destruct (Prim2SF x); reflexivity.
Qed.

Lemma compare_R x y :
  is_finite x = true -> is_finite y = true ->
  exists c, SFcompare (Prim2SF x) (Prim2SF y) = Some c /\
    match c with
    | Lt => (B2R x < B2R y)%R
    | Eq => B2R x = B2R y
    | Gt => (B2R y < B2R x)%R
    end.
Proof.
  rewrite !is_finite_spec. intros Fx Fy.
  apply SFcompare_R; auto using Prim2SF_valid.
Qed.

Lemma ltb_R x y :
  is_finite x = true -> is_finite y = true ->
  (x <? y)%float = true <-> (B2R x < B2R y)%R.
Proof.
  intros Fx Fy. rewrite FloatAxioms.ltb_spec. unfold SFltb.
  destruct (compare_R x y Fx Fy) as (c & -> & Hc).
  destruct c; split; intros H; try reflexivity; try discriminate; lra.
Qed.

Lemma leb_R x y :
  is_finite x = true -> is_finite y = true ->
  (x <=? y)%float = true <-> (B2R x <= B2R y)%R.
Proof.
  intros Fx Fy. rewrite FloatAxioms.leb_spec. unfold SFleb.
  destruct (compare_R x y Fx Fy) as (c & -> & Hc).
  destruct c; split; intros H; try reflexivity; try discriminate; lra.
Qed.

Lemma eqb_R x y :
  is_finite x = true -> is_finite y = true ->
  (x =? y)%float = true <-> B2R x = B2R y.
Proof.
  intros Fx Fy. rewrite FloatAxioms.eqb_spec. unfold SFeqb.
  destruct (compare_R x y Fx Fy) as (c & -> & Hc).
  destruct c; split; intros H; try reflexivity; try discriminate; lra.
Qed.

Lemma ltb_false_R x y :
  is_finite x = true -> is_finite y = true ->
  (x <? y)%float = false <-> (B2R y <= B2R x)%R.
Proof.
  intros Fx Fy. pose proof (ltb_R x y Fx Fy) as H.
  destruct (x <? y)%float; split; intros H'; try reflexivity; try discriminate.
  - destruct H as [H _]. specialize (H eq_refl). lra.
  - destruct (Rle_or_lt (B2R y) (B2R x)) as [|Hlt]; [assumption|].
    apply H in Hlt. discriminate.
Qed.

Lemma leb_false_R x y :
  is_finite x = true -> is_finite y = true ->
  (x <=? y)%float = false <-> (B2R y < B2R x)%R.
Proof.
  intros Fx Fy. pose proof (leb_R x y Fx Fy) as H.
  destruct (x <=? y)%float; split; intros H'; try reflexivity; try discriminate.
  - destruct H as [H _]. specialize (H eq_refl). lra.
  - destruct (Rle_or_lt (B2R x) (B2R y)) as [Hle|]; [|assumption].
    apply H in Hle. discriminate.
Qed.

Lemma pack_grid s p e :
  on_grid (Zpos p) e -> e <= 971 -> pack s (Zpos p) e = S754_finite s p e.
Proof.
  intros ((_ & Hm) & _) He. unfold pack.
  replace (Zpos p =? 2 ^ 53) with false by (symmetry; apply Z.eqb_neq; lia).
  replace (e <=? 971) with true by (symmetry; apply Z.leb_le; lia).
  reflexivity.
Qed.

(** A valid finite number is its own value rounded. *)
Lemma valid_rounded s p e :
  valid_binary (S754_finite s p e) = true ->
  rounded s (F2R (Zpos p) e) (S754_finite s p e).
Proof.
  intros V. apply valid_on_grid in V as [G He].
  exists (Zpos p), e, false, false. split; [reflexivity|]. split; [exact G|].
  rewrite rne_exact. symmetry. now apply pack_grid.
Qed.

(** What a rounding that cannot underflow to zero returns. *)
Lemma rounded_nonzero s v x :
  rounded s v x -> (bpow (-1074) <= v)%R ->
  x = S754_infinity s \/ exists p e, x = S754_finite s p e.
Proof.
  intros H Hv.
  destruct (rounded_lower s v x 1 (-1074) H) as [Hinf|(p & e & E & _)].
  - unfold on_grid. lia.
  - lia.
  - unfold F2R. simpl IZR. lra.
  - left. exact Hinf.
  - right. eauto.
Qed.

Lemma finite_cases x :
  is_finite x = true ->
  (exists s, Prim2SF x = S754_zero s) \/
  (exists s p e, Prim2SF x = S754_finite s p e /\ on_grid (Zpos p) e /\ e <= 971).
Proof.
  rewrite is_finite_spec. pose proof (Prim2SF_valid x) as V.
  destruct (Prim2SF x) as [s|s| |s p e]; try discriminate; intros _.
  - left. eauto.
  - right. apply valid_on_grid in V as [G He]. eauto 6.
Qed.

(** The difference of two finite numbers: a zero when the values are equal,
    and otherwise an infinity or a non-zero finite number with the sign of
    the exact difference. *)
Lemma sub_finite x y :
  is_finite x = true -> is_finite y = true ->
  (B2R x = B2R y /\ exists s, Prim2SF (x - y)%float = S754_zero s) \/
  (B2R x <> B2R y /\
   exists s, (s = true <-> (B2R x < B2R y)%R) /\
     (Prim2SF (x - y)%float = S754_infinity s \/
      exists p e, Prim2SF (x - y)%float = S754_finite s p e)).
Proof.
  intros Fx Fy. rewrite sub_spec. unfold B2R.
  destruct (finite_cases x Fx) as [(sx & ->)|(sx & mx & ex & -> & Gx & Hx)];
  destruct (finite_cases y Fy) as [(sy & ->)|(sy & my & ey & -> & Gy & Hy)].
  - left. split; [reflexivity|]. destruct sx, sy; simpl; eauto.
  - right. pose proof (F2R_pos my ey) as Hp. unfold SF2R. rewrite F2R_cond_Zopp.
    split; [destruct sy; simpl; lra|].
    exists (negb sy). split; [destruct sy; simpl; split; intros; try lra; discriminate|].
    right. simpl. eauto.
  - right. pose proof (F2R_pos mx ex) as Hp. unfold SF2R. rewrite F2R_cond_Zopp.
    split; [destruct sx; simpl; lra|].
    exists sx. split; [destruct sx; simpl; split; intros; try lra; discriminate|].
    right. unfold SF64sub. simpl. eauto.
  - destruct (SFsub_finite sx mx ex sy my ey) as [[Hv E]|(Hv & Hmin & s & Hs & Hr)].
    + left. split; [lra|]. exists false. exact E.
    + right. split; [lra|]. exists s. split; [rewrite Hs; split; intros; lra|].
      apply (rounded_nonzero s _ _ Hr). apply Hmin.
      * destruct Gx as (_ & ? & _). lia.
      * destruct Gy as (_ & ? & _). lia.
Qed.

Lemma Prim2SF_zero : Prim2SF 0 = S754_zero false.
Proof. reflexivity. Qed.

(** The sign of a difference, as the code tests it. *)
Lemma sub_sign x y :
  is_finite x = true -> is_finite y = true ->
  ((x <? y)%float = true -> (x - y <? 0)%float = true /\ (0 <? x - y)%float = false) /\
  ((y <? x)%float = true -> (0 <? x - y)%float = true) /\
  ((x =? y)%float = true ->
   (0 <? x - y)%float = false /\ (x - y <? 0)%float = false /\ is_zero (x - y)%float = true).
Proof.
  intros Fx Fy.
  rewrite (ltb_R x y Fx Fy), (ltb_R y x Fy Fx), (eqb_R x y Fx Fy).
  unfold is_zero. rewrite !FloatAxioms.ltb_spec, FloatAxioms.eqb_spec, Prim2SF_zero.
  destruct (sub_finite x y Fx Fy) as [(Hv & s & ->)|(Hv & s & Hs & [->|(p & e & ->)])];
    repeat split; intros; try lra; try reflexivity;
    try (match goal with
         | Hlt : (B2R x < B2R y)%R |- _ => apply Hs in Hlt; subst s; reflexivity
         end);
    (destruct s; [|reflexivity]); destruct Hs as [Hs _]; specialize (Hs eq_refl); lra.
Qed.

(** ** Division *)

(** The location that [new_location] gives to a remainder [k] of a division
    by [n]. *)
Lemma new_location_located q e n k :
  0 < n -> 0 <= k < n ->
  located_rec (shr_record_of_loc q (new_location n k)) e
    (F2R q e + IZR k / IZR n * bpow e)%R.
Proof.
  intros Hn Hk. pose proof (bpow_gt_0 e) as Hb.
  assert (HN : (0 < IZR n)%R) by (apply IZR_lt; exact Hn).
  set (rho := (IZR k / IZR n)%R).
  assert (Hrho : (rho * IZR n = IZR k)%R) by (unfold rho; field; lra).
  clearbody rho.
  assert (HK : (0 <= IZR k)%R) by (apply IZR_le; lia).
  assert (Hlt : (IZR k < IZR n)%R) by (apply IZR_lt; lia).
  unfold located_rec, new_location, new_location_even, new_location_odd.
  destruct (Z.even n) eqn:Heven; destruct (Z.eqb_spec k 0) as [Hk0|Hk0];
    try (assert (H : rho = 0%R) by (subst k; simpl in Hrho; nra);
         unfold located; simpl; rewrite H; ring).
  - destruct (Z.compare_spec (2 * k) n) as [E|L|G]; unfold located; simpl.
    + apply (f_equal IZR) in E. rewrite mult_IZR in E. nra.
    + apply IZR_lt in L. rewrite mult_IZR in L.
      assert (0 < IZR k)%R by (apply IZR_lt; lia). nra.
    + apply IZR_lt in G. rewrite mult_IZR in G. nra.
  - assert (Hodd : 2 * k <> n).
    { intros E. rewrite <- E, Z.even_mul in Heven. discriminate. }
    assert (0 < IZR k)%R by (apply IZR_lt; lia).
    destruct (Z.compare_spec (2 * k + 1) n) as [E|L|G]; unfold located; simpl.
    + assert (L : 2 * k < n) by lia. apply IZR_lt in L. rewrite mult_IZR in L. nra.
    + assert (L' : 2 * k < n) by lia. apply IZR_lt in L'. rewrite mult_IZR in L'. nra.
    + assert (G' : n < 2 * k) by lia. apply IZR_lt in G'. rewrite mult_IZR in G'. nra.
Qed.

Lemma SFdiv_finite sx mx ex sy my ey :
  rounded (xorb sx sy) (F2R (Zpos mx) ex / F2R (Zpos my) ey)
    (SFdiv prec emax (S754_finite sx mx ex) (S754_finite sy my ey)).
Proof.
  unfold SFdiv, SFdiv_core_binary.
  set (d1 := Zdigits2 (Zpos mx)). set (d2 := Zdigits2 (Zpos my)).
  set (e' := Z.min (fexp64 (d1 + ex - (d2 + ey))) (ex - ey)).
  set (s := ex - ey - e').
  assert (Hs : 0 <= s) by (unfold s, e'; lia).
  set (m' := match s with Zpos _ => Z.shiftl (Zpos mx) s | Z0 => Zpos mx | Zneg _ => 0 end).
  assert (Hm' : m' = Zpos mx * 2 ^ s).
  { unfold m'. destruct s as [|p|p] eqn:E; [simpl; lia| |lia].
    apply Z.shiftl_mul_pow2. lia. }
  pose proof (Z_div_mod m' (Zpos my) ltac:(lia)) as Hdiv.
  destruct (Z.div_eucl m' (Zpos my)) as [q r]. destruct Hdiv as [Hq Hr].
  assert (Hpow : 0 < 2 ^ s) by (apply Z.pow_pos_nonneg; lia).
  assert (Hq0 : 0 <= q) by nia.
  pose proof (Zdigits2_bounds (Zpos mx) ltac:(lia)) as [Hlo1 _].
  pose proof (Zdigits2_bounds (Zpos my) ltac:(lia)) as [_ Hhi2].
  fold d1 in Hlo1. fold d2 in Hhi2.
  assert (Hd1 : 0 < d1) by (unfold d1; simpl; lia).
  assert (Hd2 : 0 < d2) by (unfold d2; simpl; lia).
  apply binary_round_aux_rounded.
  - exact Hq0.
  - assert (Hdq : d1 + s - d2 <= Zdigits2 q).
    { destruct (Z_le_gt_dec (d1 + s - d2) 0) as [|Hgt];
        [pose proof (Zdigits2_nonneg q); lia|].
      replace (d1 + s - d2) with (d1 + s - d2 - 1 + 1) by lia.
      apply Zdigits2_ge; [lia|].
      assert (E : 2 ^ (d1 - 1) * 2 ^ s = 2 ^ (d1 + s - d2 - 1) * 2 ^ d2).
      { rewrite <- !Z.pow_add_r by lia. f_equal. lia. }
      assert (0 < 2 ^ (d1 + s - d2 - 1)) by (apply Z.pow_pos_nonneg; lia).
      nia. }
    apply Z.le_trans with (fexp64 (d1 + ex - (d2 + ey))); [unfold e'; lia|].
    apply fexp64_mono. unfold s in Hdq. lia.
  - replace (F2R (Zpos mx) ex / F2R (Zpos my) ey)%R
      with (F2R q e' + IZR r / IZR (Zpos my) * bpow e')%R.
    + apply new_location_located; lia.
    + unfold F2R. replace ex with (ey + (e' + s)) by (unfold s; lia).
      rewrite !bpow_plus, (bpow_IZR s Hs).
      apply (f_equal IZR) in Hq. rewrite Hm', plus_IZR, !mult_IZR in Hq.
      pose proof (bpow_gt_0 ey). pose proof (bpow_gt_0 e').
      assert (0 < IZR (Zpos my))%R by (apply IZR_lt; lia).
      replace (IZR (Zpos mx) * (bpow ey * (bpow e' * IZR (2 ^ s))))%R
        with ((IZR (Zpos my) * IZR q + IZR r) * bpow ey * bpow e')%R
        by (rewrite <- Hq; ring).
      field. lra.
Qed.

Lemma on_grid_0 : on_grid 0 (-1074).
Proof. unfold on_grid. lia. Qed.

(** The magnitude of a finite binary64 number, on the grid. *)
Lemma magnitude_on_grid x :
  valid_binary x = true -> SF_finite x = true ->
  exists m e, on_grid m e /\ e <= 971 /\ F2R m e = Rabs (SF2R x) /\
    (0 < m -> exists s p, x = S754_finite s p e /\ m = Zpos p).
Proof.
  intros V F. destruct x as [s|s| |s p e]; try discriminate F.
  - exists 0, (-1074). split; [exact on_grid_0|]. split; [lia|].
    simpl. rewrite F2R_0, Rabs_R0. split; [reflexivity|lia].
  - apply valid_on_grid in V as [G He]. exists (Zpos p), e.
    split; [exact G|]. split; [exact He|]. split; [|eauto].
    unfold SF2R. rewrite F2R_cond_Zopp. pose proof (F2R_pos p e).
    destruct s; simpl; [rewrite Rabs_Ropp|]; symmetry; apply Rabs_pos_eq; lra.
Qed.

(** Rounding keeps any two binary64 numbers that bracket the exact value
    around the result, and the result is then finite. *)
Lemma rounded_between s w x lo hi :
  rounded s w x ->
  valid_binary lo = true -> SF_finite lo = true ->
  valid_binary hi = true -> SF_finite hi = true ->
  (SF2R lo <= signed s w <= SF2R hi)%R ->
  SF_finite x = true /\ (SF2R lo <= SF2R x <= SF2R hi)%R.
Proof.
  intros Hr Vlo Flo Vhi Fhi [Hlo Hhi].
  pose proof (rounded_nonneg _ _ _ Hr) as Hw.
  destruct (magnitude_on_grid lo Vlo Flo) as (ml & el & Gl & El & Hl & Pl).
  destruct (magnitude_on_grid hi Vhi Fhi) as (mh & eh & Gh & Eh & Hh & Ph).
  destruct s; simpl in Hlo, Hhi.
  - (* a negative result *)
    assert (Habs : Rabs (SF2R lo) = (- SF2R lo)%R) by (apply Rabs_left1; lra).
    destruct (rounded_upper true w x ml el Hr Gl El ltac:(lra)) as (Fx & w' & Ex & Hw').
    split; [exact Fx|]. rewrite Ex. simpl. split; [lra|].
    destruct (Rle_or_lt 0 (SF2R hi)) as [|Hneg]; [lra|].
    assert (Habs' : Rabs (SF2R hi) = (- SF2R hi)%R) by (apply Rabs_left; lra).
    assert (Hmh : 0 < mh).
    { apply (F2R_lt_inv _ _ eh). rewrite F2R_0. lra. }
    destruct (rounded_lower true w x mh eh Hr Gh Hmh ltac:(lra)) as [->|(p & e & -> & Hp)];
      [discriminate Fx|].
    unfold SF2R in Ex. rewrite F2R_cond_Zopp in Ex. simpl in Ex. lra.
  - (* a positive result *)
    assert (Habs : Rabs (SF2R hi) = SF2R hi) by (apply Rabs_pos_eq; lra).
    destruct (rounded_upper false w x mh eh Hr Gh Eh ltac:(lra)) as (Fx & w' & Ex & Hw').
    split; [exact Fx|]. rewrite Ex. simpl. split; [|lra].
    destruct (Rle_or_lt (SF2R lo) 0) as [|Hpos]; [lra|].
    assert (Habs' : Rabs (SF2R lo) = SF2R lo) by (apply Rabs_pos_eq; lra).
    assert (Hml : 0 < ml).
    { apply (F2R_lt_inv _ _ el). rewrite F2R_0. lra. }
    destruct (rounded_lower false w x ml el Hr Gl Hml ltac:(lra)) as [->|(p & e & -> & Hp)];
      [discriminate Fx|].
    unfold SF2R in Ex. rewrite F2R_cond_Zopp in Ex. simpl in Ex. lra.
Qed.

Lemma signed_abs v s : (s = true <-> (v < 0)%R) -> signed s (Rabs v) = v.
Proof.
  intros Hs. destruct s; simpl.
  - destruct Hs as [Hs _]. specialize (Hs eq_refl). rewrite Rabs_left by lra. lra.
  - apply Rabs_pos_eq. destruct (Rle_or_lt 0 v) as [|Hlt]; [assumption|].
    apply Hs in Hlt. discriminate.
Qed.

(** ** Bounds on the results of the primitive operations *)

Lemma add_between x y lo hi :
  is_finite x = true -> is_finite y = true ->
  is_finite lo = true -> is_finite hi = true ->
  (B2R lo <= B2R x + B2R y <= B2R hi)%R ->
  is_finite (x + y)%float = true /\ (B2R lo <= B2R (x + y)%float <= B2R hi)%R.
Proof.
  intros Fx Fy Flo Fhi Hb. rewrite is_finite_spec in *.
  unfold B2R in *. rewrite add_spec. unfold SF64add.
  destruct (Prim2SF x) as [sx|sx| |sx mx ex] eqn:Ex; try discriminate Fx;
  destruct (Prim2SF y) as [sy|sy| |sy my ey] eqn:Ey; try discriminate Fy.
  - destruct sx, sy; simpl in *; (split; [reflexivity|lra]).
  - cbn [SF2R SFadd SF_finite] in *. split; [reflexivity|lra].
  - cbn [SF2R SFadd SF_finite] in *. split; [reflexivity|lra].
  - destruct (SFadd_finite sx mx ex sy my ey) as [[Hv E]|(Hv & _ & s & Hs & Hr)].
    + rewrite E. simpl. split; [reflexivity|lra].
    + apply (rounded_between s _ _ _ _ Hr); auto using Prim2SF_valid.
      rewrite (signed_abs _ s Hs). exact Hb.
Qed.

Lemma signed_xorb sx sy a b :
  (0 < b)%R -> signed (xorb sx sy) (a / b) = (signed sx a / signed sy b)%R.
Proof. intros Hb. destruct sx, sy; simpl; field; lra. Qed.

Lemma div_between x y lo hi :
  is_finite x = true -> is_finite y = true -> B2R y <> 0%R ->
  is_finite lo = true -> is_finite hi = true ->
  (B2R lo <= B2R x / B2R y <= B2R hi)%R ->
  is_finite (x / y)%float = true /\ (B2R lo <= B2R (x / y)%float <= B2R hi)%R.
Proof.
  intros Fx Fy Hy Flo Fhi Hb. rewrite is_finite_spec in *.
  unfold B2R in *. rewrite div_spec. unfold SF64div.
  destruct (Prim2SF y) as [sy|sy| |sy my ey] eqn:Ey; try discriminate Fy;
    [simpl in Hy; lra|].
  destruct (Prim2SF x) as [sx|sx| |sx mx ex] eqn:Ex; try discriminate Fx.
  - cbn [SF2R SFdiv SF_finite] in *. unfold Rdiv in Hb. rewrite Rmult_0_l in Hb.
    split; [reflexivity|exact Hb].
  - pose proof (SFdiv_finite sx mx ex sy my ey) as Hr.
    apply (rounded_between _ _ _ _ _ Hr); auto using Prim2SF_valid.
    rewrite signed_xorb by apply F2R_pos.
    unfold SF2R in Hb. rewrite !F2R_cond_Zopp in Hb. exact Hb.
Qed.

End ValueFacts.

(** * Integers among the binary64 numbers *)

Section IntegerFacts.

#[local] Open Scope Z_scope.

Lemma on_grid_valid s p e :
  on_grid (Zpos p) e -> e <= 971 -> valid_binary (S754_finite s p e) = true.
Proof.
  intros ((_ & Hm) & He & Hn) Hmax.
  unfold SpecFloat.valid_binary, SpecFloat.bounded, SpecFloat.canonical_mantissa.
  apply andb_true_iff. split; [|apply Z.leb_le; exact Hmax].
  apply Z.eqb_eq. rewrite fexp64_eq.
  change (Zpos (digits2_pos p)) with (Zdigits2 (Zpos p)).
  assert (Hd : Zdigits2 (Zpos p) <= 53) by (apply Zdigits2_le; lia).
  destruct Hn as [->|Hn]; [lia|].
  assert (53 <= Zdigits2 (Zpos p)) by (apply (Zdigits2_ge _ 52); lia).
  lia.
Qed.

Lemma pack_valid s m e :
  0 <= m <= 2 ^ 53 -> -1074 <= e -> (e = -1074 \/ 2 ^ 52 <= m) ->
  valid_binary (pack s m e) = true.
Proof.
  intros Hm He Hn. unfold pack. destruct m as [|p|p]; [reflexivity| |lia].
  destruct (Z.eqb_spec (Zpos p) (2 ^ 53)) as [E|NE].
  - destruct (Z.leb_spec (e + 1) 971); [|reflexivity].
    apply on_grid_valid; [|assumption]. unfold on_grid.
    change (Zpos (Z.to_pos (2 ^ 52))) with (2 ^ 52). lia.
  - destruct (Z.leb_spec e 971); [|reflexivity].
    apply on_grid_valid; [|assumption]. unfold on_grid. lia.
Qed.

Lemma rounded_valid s v x : rounded s v x -> valid_binary x = true.
Proof.
  intros (m & e & r & sb & _ & Hg & ->).
  destruct (rne_grid m e r sb Hg) as (H1 & H2 & H3). now apply pack_valid.
Qed.

(** An integer of at most 53 bits is a binary64 number. *)
Lemma integer_on_grid n :
  0 < n <= 2 ^ 53 -> exists p e, on_grid (Zpos p) e /\ e <= 971 /\ F2R (Zpos p) e = IZR n.
Proof.
  intros Hn. destruct (Z.eq_dec n (2 ^ 53)) as [->|Hne].
  - exists (Z.to_pos (2 ^ 52)), 1. change (Zpos (Z.to_pos (2 ^ 52))) with (2 ^ 52).
    split; [unfold on_grid; lia|]. split; [lia|].
    rewrite F2R_bpow, bpow_IZR by lia. reflexivity.
  - pose proof (Zdigits2_bounds n ltac:(lia)) as [Hlo Hhi].
    assert (Hd : Zdigits2 n <= 53) by (apply Zdigits2_le; lia).
    pose proof (Zdigits2_pos n ltac:(lia)) as Hd0.
    set (k := 53 - Zdigits2 n).
    assert (Hpow : 0 < 2 ^ k) by (apply Z.pow_pos_nonneg; unfold k; lia).
    exists (Z.to_pos (n * 2 ^ k)), (- k).
    rewrite Z2Pos.id by nia.
    split; [|split; [unfold k; lia|]].
    + unfold on_grid. split; [|split; [unfold k; lia|right]].
      * split; [nia|].
        replace 53 with (Zdigits2 n + k) by (unfold k; lia).
        rewrite Z.pow_add_r by (unfold k; lia). nia.
      * replace 52 with (Zdigits2 n - 1 + k) by (unfold k; lia).
        rewrite Z.pow_add_r by (unfold k; lia). nia.
    + rewrite F2R_shift by (unfold k; lia). replace (- k + k) with 0 by lia.
      unfold F2R, bpow. simpl. ring.
Qed.

Lemma Prim2SF_of_Z n : n <> 0 -> Prim2SF (of_Z n) = binary_normalize prec emax n 0 false.
Proof.
  intros Hn. unfold of_Z. apply Prim2SF_SF2Prim.
  apply (rounded_valid (n <? 0) (F2R (Z.abs n) 0)).
  now apply binary_normalize_rounded.
Qed.

(** The number of an integer of at most 53 bits is exact. *)
Lemma of_Z_exact n :
  Z.abs n <= 2 ^ 53 -> is_finite (of_Z n) = true /\ B2R (of_Z n) = IZR n.
Proof.
  intros Hn. destruct (Z.eq_dec n 0) as [->|Hne]; [split; reflexivity|].
  rewrite is_finite_spec. unfold B2R. rewrite Prim2SF_of_Z by exact Hne.
  pose proof (binary_normalize_rounded n 0 false Hne) as Hr.
  destruct (integer_on_grid (Z.abs n) ltac:(lia)) as (p & e & Hg & He & Hv).
  assert (Hval : F2R (Z.abs n) 0 = IZR (Z.abs n)) by (unfold F2R, bpow; simpl; ring).
  destruct (rounded_upper _ _ _ _ _ Hr Hg He ltac:(lra)) as (Hf & w & Hw & Hw').
  split; [exact Hf|]. rewrite Hw.
  destruct (rounded_lower _ _ _ _ _ Hr Hg ltac:(lia) ltac:(lra)) as [E|(q & e' & E & Hq)];
    [rewrite E in Hf; discriminate Hf|].
  rewrite E in Hw. unfold SF2R in Hw. rewrite F2R_cond_Zopp in Hw.
  assert (Hw2 : w = IZR (Z.abs n)) by (destruct (n <? 0); simpl in Hw; lra).
  rewrite Hw2. destruct (Z.ltb_spec n 0); simpl.
  - rewrite Z.abs_neq, opp_IZR by lia. lra.
  - rewrite Z.abs_eq by lia. reflexivity.
Qed.

Lemma F2R_integer m e : 0 <= e -> F2R m e = IZR (m * 2 ^ e).
Proof.
  intros He. rewrite <- (Z.add_0_l e) at 1. rewrite <- F2R_shift by exact He.
  unfold F2R, bpow. simpl. ring.
Qed.

Lemma bpow_inverse k : 0 <= k -> (bpow (- k) * IZR (2 ^ k) = 1)%R.
Proof.
  intros Hk. rewrite <- (bpow_IZR k Hk), <- bpow_plus.
  replace (- k + k) with 0 by lia. reflexivity.
Qed.

(** [Math.round] returns the integer [z] with [z - 1/2 <= x < z + 1/2]: the
    nearest integer, a tie going up. *)
Lemma Math_round_spec x :
  is_finite x = true ->
  is_finite (Math_round x) = true /\
  exists z, B2R (Math_round x) = IZR z /\ (IZR z - 1 / 2 <= B2R x < IZR z + 1 / 2)%R.
Proof.
  intros Fx. unfold Math_round.
  assert (Hx : B2R x = SF2R (Prim2SF x)) by reflexivity.
  destruct (finite_cases x Fx) as [(s & E)|(s & p & e & E & Hg & He)]; rewrite E in *.
  - split; [exact Fx|]. exists 0. rewrite Hx. simpl. split; [reflexivity|lra].
  - destruct (Z.leb_spec 0 e) as [Hpos|Hneg].
    + split; [exact Fx|]. exists (cond_Zopp s (Zpos p) * 2 ^ e).
      rewrite Hx. unfold SF2R. rewrite F2R_integer by exact Hpos.
      split; [reflexivity|]. generalize (IZR (cond_Zopp s (Zpos p) * 2 ^ e)). intros t. lra.
    + set (sm := cond_Zopp s (Zpos p)). set (k := - e).
      assert (Hk : 0 < k) by (unfold k; lia).
      assert (Hpow : 2 <= 2 ^ k).
      { change 2 with (2 ^ 1) at 1. apply Z.pow_le_mono_r; lia. }
      rewrite (Z.shiftl_mul_pow2 1 k), Z.mul_1_l by lia.
      rewrite Z.shiftl_div_pow2 by lia.
      replace (- (e - 1)) with (k + 1) by (unfold k; lia).
      rewrite Z.pow_add_r, Z.pow_1_r by lia. fold k.
      set (n := (2 * sm + 2 ^ k) / (2 ^ k * 2)).
      pose proof (Z.div_mod (2 * sm + 2 ^ k) (2 ^ k * 2) ltac:(lia)) as Hdiv.
      pose proof (Z.mod_pos_bound (2 * sm + 2 ^ k) (2 ^ k * 2) ltac:(lia)) as Hmod.
      fold n in Hdiv.
      assert (Hsm : - 2 ^ 53 < sm < 2 ^ 53).
      { destruct Hg as ((_ & Hp) & _). unfold sm. destruct s; simpl; lia. }
      assert (Hn : Z.abs n <= 2 ^ 53) by nia.
      assert (Hvalue : (IZR n - 1 / 2 <= SF2R (S754_finite s p e) < IZR n + 1 / 2)%R).
      { unfold SF2R. fold sm. unfold F2R. replace e with (- k) by (unfold k; lia).
        pose proof (bpow_inverse k ltac:(lia)) as Hinv.
        pose proof (bpow_gt_0 (- k)) as Hb.
        assert (HP : (2 <= IZR (2 ^ k))%R) by (apply IZR_le in Hpow; exact Hpow).
        assert (H1 : 2 ^ k * 2 * n <= 2 * sm + 2 ^ k) by lia.
        assert (H2 : 2 * sm + 2 ^ k < 2 ^ k * 2 * (n + 1)) by lia.
        apply IZR_le in H1. apply IZR_lt in H2.
        rewrite !plus_IZR, !mult_IZR in H1, H2. rewrite plus_IZR in H2.
        simpl (IZR 2) in H1, H2. simpl (IZR 1) in H2.
        set (P := IZR (2 ^ k)) in *. set (b := bpow (- k)) in *.
        set (M := IZR sm) in *. set (N := IZR n) in *.
        assert (HMb : (M * b * P = M)%R) by (rewrite Rmult_assoc, Hinv; ring).
        split; nra. }
      destruct (Z.eqb_spec n 0) as [E0|NE0].
      * split; [destruct s; reflexivity|]. exists 0. rewrite E0 in Hvalue.
        rewrite Hx. split; [destruct s; reflexivity|exact Hvalue].
      * destruct (of_Z_exact n Hn) as [Hf Hv]. split; [exact Hf|].
        exists n. rewrite Hx. split; [exact Hv|exact Hvalue].
Qed.

(** The integer part of a number whose value is an integer. *)
Lemma integer_part_exact x z :
  is_finite x = true -> B2R x = IZR z -> integer_part x = Some z.
Proof.
  intros Fx. unfold integer_part, B2R.
  destruct (finite_cases x Fx) as [(s & E)|(s & p & e & E & Hg & He)]; rewrite E.
  - simpl. intros H. apply eq_IZR in H. now subst z.
  - unfold SF2R. intros H. f_equal.
    destruct (Z.leb_spec 0 e) as [Hpos|Hneg].
    + rewrite F2R_integer in H by exact Hpos. apply eq_IZR in H. subst z.
      rewrite Z.shiftl_mul_pow2 by exact Hpos. unfold cond_Zopp; destruct s; [rewrite Z.mul_opp_l|]; reflexivity.
    + assert (Hm : cond_Zopp s (Zpos p) = z * 2 ^ (- e)).
      { apply eq_IZR. rewrite mult_IZR.
        pose proof (bpow_inverse (- e) ltac:(lia)) as Hinv.
        replace (- - e) with e in Hinv by lia.
        unfold F2R in H. rewrite <- H. rewrite Rmult_assoc, Hinv. ring. }
      assert (Hpow : 0 < 2 ^ (- e)) by (apply Z.pow_pos_nonneg; lia).
      rewrite Z.shiftl_div_pow2 by lia.
      destruct s; simpl in Hm |- *.
      * replace (Zpos p) with (- z * 2 ^ (- e)) by lia.
        rewrite Z.div_mul by lia. lia.
      * rewrite Hm. now rewrite Z.div_mul by lia.
Qed.

End IntegerFacts.

(** * Constants and simple bounds *)

(** The value of a constant, from the comparison the machine computes. *)
Lemma ltb_const x y : (x <? y) = true -> is_finite x = true -> is_finite y = true -> (B2R x < B2R y)%R.
Proof. intros H Fx Fy. now apply ltb_R. Qed.

Lemma leb_const x y : (x <=? y) = true -> is_finite x = true -> is_finite y = true -> (B2R x <= B2R y)%R.
Proof. intros H Fx Fy. now apply leb_R. Qed.

Lemma B2R_1 : B2R 1 = 1%R.
Proof.
  unfold B2R. change (Prim2SF 1) with (S754_finite false (Z.to_pos (2 ^ 52)) (-52)).
  unfold SF2R, cond_Zopp. change (Zpos (Z.to_pos (2 ^ 52))) with (2 ^ 52)%Z.
  rewrite F2R_bpow by lia. reflexivity.
Qed.

Lemma B2R_2 : B2R 2 = 2%R.
Proof.
  unfold B2R. change (Prim2SF 2) with (S754_finite false (Z.to_pos (2 ^ 52)) (-51)).
  unfold SF2R, cond_Zopp. change (Zpos (Z.to_pos (2 ^ 52))) with (2 ^ 52)%Z.
  rewrite F2R_bpow by lia. unfold bpow. simpl. lra.
Qed.

Lemma B2R_0 : B2R 0 = 0%R.
Proof. reflexivity. Qed.

(** Doubling a constant doubles its value. *)
Lemma B2R_double_const s p e :
  SF2R (S754_finite s p (e + 1)) = (2 * SF2R (S754_finite s p e))%R.
Proof. unfold SF2R, F2R. rewrite bpow_succ. ring. Qed.

(** Halving keeps a finite number finite, between it and zero. *)
Lemma div_1_finite x : is_finite x = true -> is_finite (x / 1) = true.
Proof.
  intros Fx. apply (div_between x 1 x x); auto; rewrite B2R_1; lra.
Qed.

Lemma div_2_finite x : is_finite x = true -> is_finite (x / 2) = true.
Proof.
  intros Fx. destruct (Rle_or_lt 0 (B2R x)) as [Hpos|Hneg].
  - apply (div_between x 2 0 x); auto; rewrite B2R_2, ?B2R_0; lra.
  - apply (div_between x 2 x 0); auto; rewrite B2R_2, ?B2R_0; lra.
Qed.

(** A sum of finite numbers whose exact value is positive is positive. *)
Lemma add_positive x y :
  is_finite x = true -> is_finite y = true ->
  (0 < B2R x + B2R y)%R -> (0 <? x + y) = true.
Proof.
  intros Fx Fy. unfold B2R.
  rewrite FloatAxioms.ltb_spec, add_spec, Prim2SF_zero. unfold SF64add.
  destruct (finite_cases x Fx) as [(sx & ->)|(sx & mx & ex & -> & Gx & Hx)];
  destruct (finite_cases y Fy) as [(sy & ->)|(sy & my & ey & -> & Gy & Hy)].
  - simpl. lra.
  - pose proof (F2R_pos my ey). unfold SF2R. rewrite F2R_cond_Zopp.
    destruct sy; simpl; intros; [lra|reflexivity].
  - pose proof (F2R_pos mx ex). unfold SF2R. rewrite F2R_cond_Zopp.
    destruct sx; simpl; intros; [lra|reflexivity].
  - intros Hv.
    destruct (SFadd_finite sx mx ex sy my ey) as [[Hz _]|(_ & Hmin & s & Hs & Hr)];
      [lra|].
    assert (s = false) as -> by (destruct s; [destruct Hs as [Hs _]; specialize (Hs eq_refl); lra|reflexivity]).
    destruct (rounded_nonzero false _ _ Hr) as [->|(p & e & ->)]; try reflexivity.
    apply Hmin; [destruct Gx as (_ & ? & _)|destruct Gy as (_ & ? & _)]; lia.
Qed.


(** * Counting loops

    The counter of [for (let t = 1; t <= periods; t += 1)] is a binary64
    number: it counts exactly up to 2^53 and stays there. *)

Section LoopFacts.

#[local] Open Scope Z_scope.

Lemma not_finite_cases x :
  is_finite x = false ->
  Prim2SF x = S754_nan \/ exists s, Prim2SF x = S754_infinity s.
Proof.
  rewrite is_finite_spec.
  destruct (Prim2SF x) as [s|s| |s p e]; try discriminate; eauto.
Qed.

(** Two finite numbers of the same value, other than zero, are the same. *)
Lemma B2R_inj x y :
  is_finite x = true -> is_finite y = true ->
  B2R x = B2R y -> B2R x <> 0%R -> x = y.
Proof.
  intros Fx Fy H Hnz. apply Prim2SF_inj. unfold B2R in *.
  destruct (finite_cases x Fx) as [(sx & Ex)|(sx & px & ex & Ex & Gx & Hx)];
    rewrite Ex in *; [unfold SF2R in *; lra|].
  destruct (finite_cases y Fy) as [(sy & Ey)|(sy & py & ey & Ey & Gy & Hy)];
    rewrite Ey in *; [unfold SF2R in *; lra|].
  unfold SF2R in H. rewrite !F2R_cond_Zopp in H.
  pose proof (F2R_pos px ex) as Hpx. pose proof (F2R_pos py ey) as Hpy.
  assert (Hs : sx = sy) by (destruct sx, sy; simpl in H; try reflexivity; lra).
  subst sy.
  assert (Hv : F2R (Zpos px) ex = F2R (Zpos py) ey) by (destruct sx; simpl in H; lra).
  destruct (Z.lt_trichotomy ex ey) as [L|[E|L]].
  - pose proof (grid_exponent_lt _ _ _ _ Gx Gy L). lra.
  - subst ey.
    assert (Zpos px <= Zpos py) by (apply (F2R_le_inv _ _ ex); lra).
    assert (Zpos py <= Zpos px) by (apply (F2R_le_inv _ _ ex); lra).
    assert (px = py) by lia. now subst.
  - pose proof (grid_exponent_lt _ _ _ _ Gy Gx L). lra.
Qed.

(** The counter after [t += 1]. *)
Lemma of_Z_next k : 0 <= k < 2 ^ 53 -> (of_Z k + 1)%float = of_Z (k + 1).
Proof.
  intros Hk.
  destruct (of_Z_exact k ltac:(lia)) as [Fk Vk].
  destruct (of_Z_exact (k + 1) ltac:(lia)) as [Fs Vs].
  destruct (add_between (of_Z k) 1 (of_Z (k + 1)) (of_Z (k + 1))) as [Fp Vp]; auto.
  - rewrite Vk, Vs, B2R_1, plus_IZR. lra.
  - rewrite Vs in Vp. apply B2R_inj; auto.
    + rewrite Vs. lra.
    + assert (H : B2R (of_Z k + 1)%float = IZR (k + 1)) by lra.
      rewrite H. apply not_0_IZR. lia.
Qed.

Lemma of_Z_stuck : (of_Z (2 ^ 53) + 1)%float = of_Z (2 ^ 53).
Proof. vm_compute. reflexivity. Qed.

(** The integer part of a finite number. *)
Lemma integer_part_finite x :
  is_finite x = true ->
  exists z, integer_part x = Some z /\
    ((IZR z <= B2R x < IZR z + 1)%R /\ 0 <= z \/ (B2R x < 0)%R /\ z <= 0).
Proof.
  intros Fx. unfold integer_part, B2R.
  destruct (finite_cases x Fx) as [(s & E)|(s & p & e & E & Hg & He)]; rewrite E.
  - exists 0. split; [reflexivity|]. left. simpl. split; [lra|lia].
  - eexists. split; [reflexivity|].
    pose proof (F2R_pos p e) as Hpos. unfold SF2R. rewrite F2R_cond_Zopp.
    assert (Hshift : 0 <= Z.shiftl (Zpos p) e) by (apply Z.shiftl_nonneg; lia).
    destruct s; simpl.
    + right. split; [lra|lia].
    + left. split; [|exact Hshift].
      destruct (Z.leb_spec 0 e) as [Hge|Hlt].
      * rewrite F2R_integer by exact Hge. rewrite Z.shiftl_mul_pow2 by exact Hge.
        generalize (IZR (Zpos p * 2 ^ e)). intros t. lra.
      * rewrite Z.shiftl_div_pow2 by lia.
        set (k := - e). assert (Hk : 0 < k) by (unfold k; lia).
        assert (Hpow : 0 < 2 ^ k) by (apply Z.pow_pos_nonneg; lia).
        pose proof (Z.div_mod (Zpos p) (2 ^ k) ltac:(lia)) as Hdiv.
        pose proof (Z.mod_pos_bound (Zpos p) (2 ^ k) Hpow) as Hmod.
        set (z := Zpos p / 2 ^ k) in *.
        assert (H1 : 2 ^ k * z <= Zpos p) by lia.
        assert (H2 : Zpos p < 2 ^ k * (z + 1)) by lia.
        apply IZR_le in H1. apply IZR_lt in H2.
        rewrite mult_IZR in H1, H2. rewrite plus_IZR in H2. simpl (IZR 1) in H2.
        pose proof (bpow_inverse k ltac:(lia)) as Hinv.
        pose proof (bpow_gt_0 (- k)) as Hb.
        apply IZR_lt in Hpow.
        unfold F2R. replace e with (- k) by (unfold k; lia).
        set (P := IZR (2 ^ k)) in *. set (b := bpow (- k)) in *.
        set (M := IZR (Zpos p)) in *. set (N := IZR z) in *.
        clearbody P b M N.
        assert (HM : (M * b * P = M)%R) by (rewrite Rmult_assoc, Hinv; ring).
        split; nra.
Qed.

Lemma B2R_limit : B2R 0x1p53 = IZR (2 ^ 53).
Proof.
  change 0x1p53%float with (of_Z (2 ^ 53)). apply of_Z_exact. lia.
Qed.

Lemma counter_nonzero k :
  1 <= k <= 2 ^ 53 -> exists s p e, Prim2SF (of_Z k) = S754_finite s p e.
Proof.
  intros Hk. destruct (of_Z_exact k ltac:(lia)) as [Fk Vk].
  destruct (finite_cases _ Fk) as [(s & E)|(s & p & e & E & _)]; [|eauto].
  exfalso. unfold B2R in Vk. rewrite E in Vk. simpl in Vk.
  apply (eq_IZR 0) in Vk. lia.
Qed.

(** The test [t <= periods] of a loop that ends. *)
Lemma test_of_ending_loop periods n k :
  iterations periods = Some n -> 1 <= k <= 2 ^ 53 ->
  (of_Z k <=? periods)%float = (k <=? Z.of_nat n) /\ Z.of_nat n < 2 ^ 53.
Proof.
  unfold iterations. intros Hn Hk.
  destruct (0x1p53 <=? periods)%float eqn:Hlimit; [discriminate Hn|].
  destruct (of_Z_exact k ltac:(lia)) as [Fk Vk].
  destruct (is_finite periods) eqn:Fp.
  - apply leb_false_R in Hlimit; auto. rewrite B2R_limit in Hlimit.
    destruct (integer_part_finite periods Fp) as (z & Hz & Hcases). rewrite Hz in Hn.
    injection Hn as <-.
    destruct Hcases as [[Hv Hpos]|[Hv Hneg]].
    + rewrite Z2Nat.id by exact Hpos.
      assert (Hlt : z < 2 ^ 53) by (apply lt_IZR; lra).
      split; [|exact Hlt].
      destruct (Z.leb_spec k z) as [Hle|Hgt].
      * apply leb_R; auto. rewrite Vk. apply IZR_le in Hle. lra.
      * apply leb_false_R; auto. rewrite Vk.
        assert (H : z + 1 <= k) by lia. apply IZR_le in H. rewrite plus_IZR in H. lra.
    + replace (Z.of_nat (Z.to_nat z)) with 0 by lia. split; [|lia].
      destruct (Z.leb_spec k 0) as [Hle|Hgt]; [lia|].
      apply leb_false_R; auto. rewrite Vk.
      assert (H : (1 <= IZR k)%R) by (apply IZR_le; lia). lra.
  - destruct (counter_nonzero k Hk) as (s & p & e & Ek).
    assert (Hn0 : n = O /\ (of_Z k <=? periods)%float = false).
    { rewrite FloatAxioms.leb_spec in Hlimit |- *. unfold integer_part in Hn.
      unfold SFleb in *. rewrite Ek.
      destruct (not_finite_cases periods Fp) as [E|[sp E]]; rewrite E in *.
      - injection Hn as <-. split; reflexivity.
      - injection Hn as <-. destruct sp; [|discriminate Hlimit].
        split; [reflexivity|]. destruct s; reflexivity. }
    destruct Hn0 as [-> ->]. split; [|simpl; lia].
    destruct (Z.leb_spec k (Z.of_nat 0)); [simpl in *; lia|reflexivity].
Qed.

(** The test [t <= periods] of a loop that does not end. *)
Lemma test_of_endless_loop periods k :
  iterations periods = None -> 1 <= k <= 2 ^ 53 ->
  (of_Z k <=? periods)%float = true.
Proof.
  unfold iterations. intros Hn Hk.
  destruct (0x1p53 <=? periods)%float eqn:Hlimit;
    [|destruct (integer_part periods); discriminate Hn].
  destruct (of_Z_exact k ltac:(lia)) as [Fk Vk].
  destruct (is_finite periods) eqn:Fp.
  - apply leb_R in Hlimit; auto. rewrite B2R_limit in Hlimit.
    apply leb_R; auto. rewrite Vk.
    assert (H : (IZR k <= IZR (2 ^ 53))%R) by (apply IZR_le; lia). lra.
  - destruct (counter_nonzero k Hk) as (s & p & e & Ek).
    rewrite FloatAxioms.leb_spec in Hlimit |- *. unfold SFleb in *. rewrite Ek.
    destruct (not_finite_cases periods Fp) as [E|[sp E]]; rewrite E in *.
    + discriminate Hlimit.
    + destruct sp; [discriminate Hlimit|]. destruct s; reflexivity.
Qed.

Section Loop.

Context {A : Type}.
Variables (periods : number) (body : number -> A -> A).

(** More fuel does not change the result of a loop that has ended. *)
Lemma for_loop_fuel fuel :
  forall fuel' t acc result,
    for_loop fuel t periods body acc = Some result -> (fuel <= fuel')%nat ->
    for_loop fuel' t periods body acc = Some result.
Proof.
  induction fuel as [|fuel IH]; intros fuel' t acc result H Hle; [discriminate H|].
  destruct fuel' as [|fuel']; [lia|]. simpl in *.
  destruct (t <=? periods)%float; [|exact H].
  apply IH; [exact H|lia].
Qed.

(** A loop that ends runs its body on 1, 2, ..., [n]. *)
Lemma for_loop_ends n :
  iterations periods = Some n ->
  forall j k acc,
    1 <= k -> Z.of_nat j + k = Z.of_nat n + 1 ->
    for_loop (S j) (of_Z k) periods body acc
      = Some (fold_left (fun acc t => body (of_nat t) acc) (seq (Z.to_nat k) j) acc).
Proof.
  intros Hn.
  destruct (test_of_ending_loop periods n 1 Hn ltac:(lia)) as [_ Hmax].
  induction j as [|j IH]; intros k acc Hk Hj.
  - destruct (test_of_ending_loop periods n k Hn ltac:(lia)) as [Htest _].
    simpl. rewrite Htest.
    destruct (Z.leb_spec k (Z.of_nat n)); [lia|reflexivity].
  - destruct (test_of_ending_loop periods n k Hn ltac:(lia)) as [Htest _].
    change (for_loop (S (S j)) (of_Z k) periods body acc)
      with (if (of_Z k <=? periods)%float
            then for_loop (S j) (of_Z k + 1)%float periods body (body (of_Z k) acc)
            else Some acc).
    rewrite Htest. destruct (Z.leb_spec k (Z.of_nat n)); [|lia].
    rewrite of_Z_next by lia. rewrite IH by lia.
    replace (Z.to_nat (k + 1)) with (S (Z.to_nat k)) by lia.
    simpl. unfold of_nat at 3. rewrite Z2Nat.id by lia. reflexivity.
Qed.

(** A loop that does not end has no result, whatever the fuel. *)
Lemma for_loop_never_ends :
  iterations periods = None ->
  forall fuel k acc, 1 <= k <= 2 ^ 53 -> for_loop fuel (of_Z k) periods body acc = None.
Proof.
  intros Hn. induction fuel as [|fuel IH]; intros k acc Hk; [reflexivity|].
  simpl. rewrite (test_of_endless_loop periods k Hn Hk).
  destruct (Z.eq_dec k (2 ^ 53)) as [->|Hne].
  - rewrite of_Z_stuck. apply IH. lia.
  - rewrite of_Z_next by lia. apply IH. lia.
Qed.

Lemma for_periods_ends n init :
  iterations periods = Some n ->
  for_periods periods body init
    = Some (fold_left (fun acc t => body (of_nat t) acc) (seq 1 n) init).
Proof.
  intros Hn. unfold for_periods. rewrite Hn.
  change 1%float with (of_Z 1). rewrite (for_loop_ends n Hn n 1) by lia. reflexivity.
Qed.

(** [for_periods] is the result of the loop, when it has one. *)
Lemma for_periods_spec init result :
  for_periods periods body init = Some result <->
  exists fuel, for_loop fuel 1%float periods body init = Some result.
Proof.
  unfold for_periods. destruct (iterations periods) as [n|] eqn:Hn.
  - split; [eauto|]. intros [fuel H].
    pose proof (for_loop_ends n Hn n 1 init ltac:(lia) ltac:(lia)) as E.
    change (of_Z 1) with 1%float in E. rewrite E.
    apply (for_loop_fuel _ (Nat.max fuel (S n))) in H; [|lia].
    apply (for_loop_fuel _ (Nat.max fuel (S n))) in E; [|lia].
    congruence.
  - split; [discriminate|]. intros [fuel H].
    change 1%float with (of_Z 1) in H.
    rewrite (for_loop_never_ends Hn fuel 1 init) in H by lia. discriminate H.
Qed.

End Loop.

End LoopFacts.

(** * The solver stays within bounds *)

Section SolverFacts.

Context {host : Host}.
Variables marketPrice couponPayment faceValue periods : number.

Lemma and_then_some {A B : Type} (call : option A) (rest : A -> option B) result :
  and_then call rest = Some result ->
  exists value, call = Some value /\ rest value = Some result.
Proof. destruct call as [value|]; [eauto|discriminate]. Qed.

Lemma above_sane x c :
  is_finite c = true -> (-1 <? c) = true ->
  is_finite x = true -> (B2R c <= B2R x)%R -> sane x.
Proof.
  intros Fc Hc Fx Hx. split; [exact Fx|].
  apply ltb_R; [reflexivity|exact Fx|].
  apply ltb_R in Hc; [lra|reflexivity|exact Fc].
Qed.

Lemma bracketed_sane x : bracketed x -> sane x.
Proof.
  intros [Fx [Hlo _]]. apply (above_sane x (-0.99)); auto.
Qed.

(** What the Newton loop returns was the initial guess or passed the test of
    the bounds. *)
Lemma newton_sane n :
  forall x r, sane x ->
    newton marketPrice couponPayment faceValue periods n x = Some (Converged r) ->
    sane r.
Proof.
  induction n as [|n IH]; intros x r Hx H; cbn [newton] in H; [discriminate H|].
  destruct (residual _ _ _ _ x) as [fx|]; [|discriminate H]. cbn [and_then] in H.
  destruct (abs fx <? 1e-10); [injection H as <-; exact Hx|].
  destruct (derivativePriceFromPeriodicYield _ _ _ _) as [dfx|]; [|discriminate H].
  cbn [and_then] in H.
  destruct (negb (isFinite dfx) || _); [discriminate H|].
  set (next := x - fx / dfx) in H.
  destruct (isFinite next) eqn:Fnext; cbn [negb orb] in H; [|discriminate H].
  destruct (next <=? -0.999999) eqn:Hlow; [discriminate H|].
  destruct (10 <? next); [discriminate H|].
  assert (Hnext : sane next).
  { apply (above_sane next (-0.999999)); auto.
    apply Rlt_le. apply leb_false_R in Hlow; auto. }
  destruct (abs (next - x) <? 1e-12); [injection H as <-; exact Hnext|].
  exact (IH _ _ Hnext H).
Qed.

Lemma initial_guess_sane q :
  is_finite q = true -> sane (Math_max (-0.95) q).
Proof.
  intros Fq. unfold Math_max.
  assert (Hnan : is_nan q = false).
  { unfold is_finite in Fq. destruct (is_nan q); [discriminate|reflexivity]. }
  change (is_nan (-0.95)) with false. rewrite Hnan. simpl orb.
  destruct (-0.95 <? q) eqn:Hlt.
  - apply (above_sane q (-0.95)); auto.
    apply Rlt_le. apply ltb_R in Hlt; auto.
  - destruct (q <? -0.95); [split; reflexivity|].
    change (is_zero (-0.95) && get_sign (-0.95)) with false. split; reflexivity.
Qed.

(** The upper end of the bracket is 1 doubled at most 20 times. *)
Lemma expand_high n :
  forall fLow high fHigh k bracket,
    (k + n <= 20)%nat -> nth_error powers k = Some high ->
    expand marketPrice couponPayment faceValue periods n fLow high fHigh = Some bracket ->
    exists k', nth_error powers k' = Some (fst bracket).
Proof.
  induction n as [|n IH]; intros fLow high fHigh k bracket Hk Hnth H; cbn [expand] in H.
  - injection H as <-. eauto.
  - destruct (0 <? fLow * fHigh); [|injection H as <-; eauto].
    destruct (residual _ _ _ _ (high * 2)) as [fHigh'|]; [|discriminate H].
    cbn [and_then] in H.
    apply (IH _ _ _ (S k) _ ltac:(lia)) in H; [exact H|].
    assert (Hk' : (k < 20)%nat) by lia.
    do 20 (destruct k as [|k]; [injection Hnth as <-; reflexivity|]).
    lia.
Qed.

Lemma powers_bracketed k x : nth_error powers k = Some x -> bracketed x.
Proof.
  intros H.
  do 21 (destruct k as [|k];
         [injection H as <-; split; [reflexivity|];
          split; apply leb_const; reflexivity|]).
  destruct k; discriminate H.
Qed.

Lemma B2R_lower2 : B2R (-1.98) = (2 * B2R (-0.99))%R.
Proof.
  unfold B2R.
  let v := eval vm_compute in (Prim2SF (-0.99)) in change (Prim2SF (-0.99)) with v.
  let v := eval vm_compute in (Prim2SF (-1.98)) in change (Prim2SF (-1.98)) with v.
  apply (B2R_double_const true _ (-53)).
Qed.

Lemma B2R_upper2 : B2R 2097152 = (2 * B2R 1048576)%R.
Proof.
  unfold B2R.
  let v := eval vm_compute in (Prim2SF 1048576) in change (Prim2SF 1048576) with v.
  let v := eval vm_compute in (Prim2SF 2097152) in change (Prim2SF 2097152) with v.
  apply (B2R_double_const false _ (-32)).
Qed.

Lemma midpoint_bracketed low high :
  bracketed low -> bracketed high -> bracketed ((low + high) / 2).
Proof.
  intros [Fl Hl] [Fh Hh].
  destruct (add_between low high (-1.98) 2097152) as [Fs Hs]; auto.
  { rewrite B2R_lower2, B2R_upper2. lra. }
  rewrite B2R_lower2, B2R_upper2 in Hs.
  apply div_between; auto; rewrite B2R_2; lra.
Qed.

Lemma bisect_sane n :
  forall low high fLow r, bracketed low -> bracketed high ->
    bisect marketPrice couponPayment faceValue periods n low high fLow = Some r ->
    sane r.
Proof.
  induction n as [|n IH]; intros low high fLow r Hl Hh H; cbn [bisect] in H;
    pose proof (midpoint_bracketed low high Hl Hh) as Hm.
  - injection H as <-. apply bracketed_sane. exact Hm.
  - destruct (residual _ _ _ _ ((low + high) / 2)) as [fMid|]; [|discriminate H].
    cbn [and_then] in H.
    destruct (abs fMid <? 1e-10); [injection H as <-; apply bracketed_sane; exact Hm|].
    destruct (fLow * fMid <=? 0); (eapply IH; [| |exact H]; assumption).
Qed.

Lemma bisection_sane r :
  bisection marketPrice couponPayment faceValue periods = Some r -> sane r.
Proof.
  unfold bisection. intros H.
  apply and_then_some in H as (fLow & _ & H).
  apply and_then_some in H as (fHigh & _ & H).
  apply and_then_some in H as (bracket & Hexpand & H).
  destruct (expand_high 20 fLow 1 fHigh 0 bracket ltac:(lia) eq_refl Hexpand) as [k Hk].
  apply (bisect_sane 200 (-0.99) (fst bracket) fLow r); [|exact (powers_bracketed k _ Hk)|exact H].
  split; [reflexivity|]. split; [lra|]. apply leb_const; reflexivity.
Qed.

(** A rate that the solver returns is finite and above -1, when the initial
    quotient is finite. *)
Theorem solvePeriodicYtm_sane frequencyPerYear couponRateDecimal r :
  is_finite (couponRateDecimal / frequencyPerYear) = true ->
  solvePeriodicYtm marketPrice couponPayment faceValue periods
    frequencyPerYear couponRateDecimal = Some r ->
  sane r.
Proof.
  intros Hq. unfold solvePeriodicYtm.
  destruct (newton _ _ _ _ 50 _) as [[r'|]|] eqn:Hnewton; cbn [and_then]; intros H.
  - injection H as <-.
    exact (newton_sane 50 _ _ (initial_guess_sane _ Hq) Hnewton).
  - exact (bisection_sane r H).
  - discriminate H.
Qed.

(** ** The solver returns when its loops end *)

Section Ending.

Variable n : nat.
Hypothesis Hends : iterations periods = Some n.

Lemma priceFromPeriodicYield_ends r c f :
  exists price, priceFromPeriodicYield r c f periods = Some price.
Proof.
  unfold priceFromPeriodicYield. destruct (abs r <? 1e-12); [eauto|].
  rewrite (for_periods_ends periods _ n) by exact Hends. cbn [and_then]. eauto.
Qed.

Lemma derivativePriceFromPeriodicYield_ends r c f :
  exists slope, derivativePriceFromPeriodicYield r c f periods = Some slope.
Proof.
  unfold derivativePriceFromPeriodicYield.
  rewrite (for_periods_ends periods _ n) by exact Hends. cbn [and_then]. eauto.
Qed.

Lemma residual_ends r :
  exists fx, residual marketPrice couponPayment faceValue periods r = Some fx.
Proof.
  unfold residual.
  destruct (priceFromPeriodicYield_ends r couponPayment faceValue) as [price ->].
  cbn [and_then]. eauto.
Qed.

Lemma newton_ends remaining :
  forall x, exists exit,
    newton marketPrice couponPayment faceValue periods remaining x = Some exit.
Proof.
  induction remaining as [|remaining IH]; intros x; cbn [newton]; [eauto|].
  destruct (residual_ends x) as [fx ->]. cbn [and_then].
  destruct (abs fx <? 1e-10); [eauto|].
  destruct (derivativePriceFromPeriodicYield_ends x couponPayment faceValue) as [dfx ->].
  cbn [and_then].
  destruct (negb (isFinite dfx) || _); [eauto|].
  destruct (negb (isFinite _) || _ || _); [eauto|].
  destruct (abs _ <? 1e-12); [eauto|]. apply IH.
Qed.

Lemma expand_ends remaining :
  forall fLow high fHigh, exists bracket,
    expand marketPrice couponPayment faceValue periods remaining fLow high fHigh
      = Some bracket.
Proof.
  induction remaining as [|remaining IH]; intros fLow high fHigh; cbn [expand]; [eauto|].
  destruct (0 <? fLow * fHigh); [|eauto].
  destruct (residual_ends (high * 2)) as [fHigh' ->]. cbn [and_then]. apply IH.
Qed.

Lemma bisect_ends remaining :
  forall low high fLow, exists r,
    bisect marketPrice couponPayment faceValue periods remaining low high fLow = Some r.
Proof.
  induction remaining as [|remaining IH]; intros low high fLow; cbn [bisect]; [eauto|].
  destruct (residual_ends ((low + high) / 2)) as [fMid ->]. cbn [and_then].
  destruct (abs fMid <? 1e-10); [eauto|].
  destruct (fLow * fMid <=? 0); apply IH.
Qed.

Lemma bisection_ends :
  exists r, bisection marketPrice couponPayment faceValue periods = Some r.
Proof.
  unfold bisection.
  destruct (residual_ends (-0.99)) as [fLow ->]. cbn [and_then].
  destruct (residual_ends 1) as [fHigh ->]. cbn [and_then].
  destruct (expand_ends 20 fLow 1 fHigh) as [bracket ->]. cbn [and_then].
  apply bisect_ends.
Qed.

Lemma solvePeriodicYtm_ends frequencyPerYear couponRateDecimal :
  exists r,
    solvePeriodicYtm marketPrice couponPayment faceValue periods
      frequencyPerYear couponRateDecimal = Some r.
Proof.
  unfold solvePeriodicYtm.
  destruct (newton_ends 50 (Math_max (-0.95) (couponRateDecimal / frequencyPerYear)))
    as [[r|] ->]; cbn [and_then]; [eauto|apply bisection_ends].
Qed.

End Ending.

(** A period count below 2^53 makes the loops end. *)
Lemma iterations_below_limit :
  (periods <? 0x1p53) = true -> exists n, iterations periods = Some n.
Proof.
  intros H. unfold iterations.
  assert (Hnot : (0x1p53 <=? periods) = false).
  { destruct (is_finite periods) eqn:Fp.
    - apply leb_false_R; auto. apply ltb_R in H; auto.
    - rewrite FloatAxioms.leb_spec. rewrite FloatAxioms.ltb_spec in H.
      destruct (not_finite_cases periods Fp) as [E|[[|] E]]; rewrite E in *;
        [discriminate H|reflexivity|discriminate H]. }
  rewrite Hnot. destruct (integer_part periods); eauto.
Qed.

End SolverFacts.

(** * The solver's state machine *)

Section MachineFacts.

Context {host : Host}.
Variables marketPrice couponPayment faceValue periods : number.

Abbreviation step := (step marketPrice couponPayment faceValue periods).
Abbreviation returns := (returns marketPrice couponPayment faceValue periods).
Abbreviation rest := (rest_of_call marketPrice couponPayment faceValue periods).
Abbreviation price_residual := (price_residual marketPrice couponPayment faceValue periods).
Abbreviation price_derivative := (price_derivative couponPayment faceValue periods).

Ltac same_calls :=
  repeat match goal with
         | H : ?call = Some ?a, H' : ?call = Some ?b |- _ =>
             rewrite H in H'; injection H' as ?; subst
         end.

Ltac clash :=
  match goal with
  | H : ?b = true, H' : ?b = false |- _ => rewrite H in H'; discriminate H'
  | H : _ \/ _ |- _ => destruct H; clash
  | _ => lia
  end.

(** ** Determinism *)

Lemma step_functional s s1 s2 : step s s1 -> step s s2 -> s1 = s2.
Proof.
  intros H1 H2.
  inversion H1; subst; inversion H2; subst; same_calls; try reflexivity; try clash.
Qed.

Lemma finished_is_final r s : ~ step (Finished r) s.
Proof. intros H. inversion H. Qed.

Lemma returns_unique s r1 r2 : returns s r1 -> returns s r2 -> r1 = r2.
Proof.
  intros H1. revert r2. induction H1 as [r|s s' r Hstep Hrun IH]; intros r2 H2.
  - inversion H2 as [|? ? ? Hstep' _]; subst; [reflexivity|].
    now apply finished_is_final in Hstep'.
  - inversion H2 as [|? s'' ? Hstep' Hrun']; subst.
    + now apply finished_is_final in Hstep.
    + apply IH. now rewrite (step_functional _ _ _ Hstep Hstep').
Qed.

(** ** The machine and the function *)

Lemma newton_unfold n x :
  newton marketPrice couponPayment faceValue periods (S n) x
  = (let* fx := price_residual x in
     if abs fx <? 1e-10 then Some (Converged x)
     else
       let* dfx := price_derivative x in
       if negb (isFinite dfx) || (abs dfx <? 1e-12) then Some Abandoned
       else
         let next := x - fx / dfx in
         if negb (isFinite next) || (next <=? -0.999999) || (10 <? next)
         then Some Abandoned
         else if abs (next - x) <? 1e-12 then Some (Converged next)
         else newton marketPrice couponPayment faceValue periods n next).
Proof. reflexivity. Qed.

Lemma expand_unfold n fLow high fHigh :
  expand marketPrice couponPayment faceValue periods (S n) fLow high fHigh
  = (if 0 <? fLow * fHigh then
       let* fHigh' := price_residual (high * 2) in
       expand marketPrice couponPayment faceValue periods n fLow (high * 2) fHigh'
     else Some (high, fHigh)).
Proof. reflexivity. Qed.

Lemma bisect_unfold n low high fLow :
  bisect marketPrice couponPayment faceValue periods (S n) low high fLow
  = (let* fMid := price_residual ((low + high) / 2) in
     if abs fMid <? 1e-10 then Some ((low + high) / 2)
     else if fLow * fMid <=? 0
          then bisect marketPrice couponPayment faceValue periods n low ((low + high) / 2) fLow
          else bisect marketPrice couponPayment faceValue periods n ((low + high) / 2) high fMid).
Proof. reflexivity. Qed.

Lemma bisection_unfold :
  bisection marketPrice couponPayment faceValue periods
  = (let* fLow := price_residual (-0.99) in
     let* fHigh := price_residual 1.0 in
     rest (Expanding 0 1.0 fLow fHigh)).
Proof. reflexivity. Qed.

(** A transition does not change what the call returns. *)
Lemma step_rest_of_call s s' : step s s' -> rest s = rest s'.
Proof.
  intros H. inversion H; subst; cbn [rest_of_call].
  - replace (50 - i)%nat with (S (49 - i)) by lia.
    rewrite newton_unfold, H1. cbn [and_then]. now rewrite H2.
  - replace (50 - i)%nat with (S (49 - i)) by lia.
    rewrite newton_unfold, H1. cbn [and_then]. rewrite H2, H3. cbn [and_then].
    now rewrite H4.
  - replace (50 - i)%nat with (S (49 - i)) by lia.
    rewrite newton_unfold, H1. cbn [and_then]. rewrite H2, H3. cbn [and_then].
    rewrite H4. cbn zeta. now rewrite H6.
  - replace (50 - i)%nat with (S (49 - i)) by lia.
    rewrite newton_unfold, H1. cbn [and_then]. rewrite H2, H3. cbn [and_then].
    rewrite H4. cbn zeta. now rewrite H6, H7.
  - replace (50 - i)%nat with (S (50 - S i)) by lia.
    rewrite newton_unfold, H1. cbn [and_then]. rewrite H2, H3. cbn [and_then].
    rewrite H4. cbn zeta. now rewrite H6, H7.
  - replace (50 - i)%nat with O by lia. reflexivity.
  - rewrite bisection_unfold, H0, H1. reflexivity.
  - replace (20 - expandCount)%nat with (S (20 - S expandCount)) by lia.
    rewrite expand_unfold, H0, H2. reflexivity.
  - change (200 - 0)%nat with 200%nat.
    destruct H0 as [Hsign|Hcount].
    + destruct (20 - expandCount)%nat; [reflexivity|].
      rewrite expand_unfold, Hsign. reflexivity.
    + replace (20 - expandCount)%nat with O by lia. reflexivity.
  - replace (200 - i)%nat with (S (199 - i)) by lia.
    rewrite bisect_unfold, H2. cbn [and_then]. now rewrite H3.
  - replace (200 - i)%nat with (S (200 - S i)) by lia.
    rewrite bisect_unfold, H2. cbn [and_then]. now rewrite H3, H4.
  - replace (200 - i)%nat with (S (200 - S i)) by lia.
    rewrite bisect_unfold, H2. cbn [and_then]. now rewrite H3, H4.
  - replace (200 - i)%nat with O by lia. reflexivity.
Qed.

(** What a run returns is what the function computes. *)
Lemma returns_rest_of_call s r : returns s r -> rest s = Some r.
Proof.
  induction 1 as [r|s s' r Hstep _ IH]; [reflexivity|].
  now rewrite (step_rest_of_call _ _ Hstep).
Qed.

Lemma bisect_returns n :
  forall i low high fLow r,
    n = (200 - i)%nat ->
    bisect marketPrice couponPayment faceValue periods n low high fLow = Some r ->
    returns (Bisecting i low high fLow) r.
Proof.
  induction n as [|n IH]; intros i low high fLow r Hi H.
  - injection H as <-.
    eapply returns_later; [apply bisect_exhausted; lia|apply returns_now].
  - rewrite bisect_unfold in H. apply and_then_some in H as (fMid & Hmid & H).
    destruct (abs fMid <? 1e-10) eqn:Hfound.
    + injection H as <-. eapply returns_later; [|apply returns_now].
      eapply bisect_found; [lia|reflexivity|exact Hmid|exact Hfound].
    + destruct (fLow * fMid <=? 0) eqn:Hsign.
      * eapply returns_later; [|apply (IH (S i)); [lia|exact H]].
        eapply bisect_lower_half; [lia|reflexivity|exact Hmid|exact Hfound|exact Hsign].
      * eapply returns_later; [|apply (IH (S i)); [lia|exact H]].
        eapply bisect_upper_half; [lia|reflexivity|exact Hmid|exact Hfound|exact Hsign].
Qed.

Lemma expand_returns n :
  forall expandCount high fLow fHigh r,
    n = (20 - expandCount)%nat ->
    rest (Expanding expandCount high fLow fHigh) = Some r ->
    returns (Expanding expandCount high fLow fHigh) r.
Proof.
  induction n as [|n IH]; intros expandCount high fLow fHigh r Hc H;
    cbn [rest_of_call] in H; rewrite <- Hc in H;
    apply and_then_some in H as (bracket & Hbracket & H).
  - cbn [expand] in Hbracket. injection Hbracket as <-. cbn [fst] in H.
    eapply returns_later; [apply expand_done; right; lia|].
    apply (bisect_returns 200 0); [reflexivity|exact H].
  - rewrite expand_unfold in Hbracket. destruct (0 <? fLow * fHigh) eqn:Hsame.
    + apply and_then_some in Hbracket as (fHigh' & Hhigh & Hbracket).
      eapply returns_later; [apply expand_again; [exact Hsame|lia|exact Hhigh]|].
      apply IH; [lia|]. cbn [rest_of_call].
      replace (20 - S expandCount)%nat with n by lia. now rewrite Hbracket.
    + injection Hbracket as <-. cbn [fst] in H.
      eapply returns_later; [apply expand_done; left; exact Hsame|].
      apply (bisect_returns 200 0); [reflexivity|exact H].
Qed.

Lemma bracketing_returns r :
  bisection marketPrice couponPayment faceValue periods = Some r -> returns Bracketing r.
Proof.
  rewrite bisection_unfold. intros H.
  apply and_then_some in H as (fLow & Hlow & H).
  apply and_then_some in H as (fHigh & Hhigh & H).
  eapply returns_later; [apply bracket_set; [exact Hlow|exact Hhigh]|].
  apply (expand_returns 20); [reflexivity|exact H].
Qed.

Lemma newton_returns n :
  forall i x r,
    n = (50 - i)%nat ->
    rest (Newton i x) = Some r ->
    returns (Newton i x) r.
Proof.
  induction n as [|n IH]; intros i x r Hi H;
    cbn [rest_of_call] in H; rewrite <- Hi in H;
    apply and_then_some in H as (exit & Hexit & H).
  - cbn [newton] in Hexit. injection Hexit as <-.
    eapply returns_later; [apply newton_exhausted; lia|].
    apply bracketing_returns. exact H.
  - rewrite newton_unfold in Hexit.
    apply and_then_some in Hexit as (fx & Hfx & Hexit).
    destruct (abs fx <? 1e-10) eqn:Hconverged.
    + injection Hexit as <-. injection H as <-.
      eapply returns_later; [|apply returns_now].
      eapply newton_converged; [lia|exact Hfx|exact Hconverged].
    + apply and_then_some in Hexit as (dfx & Hdfx & Hexit).
      destruct (negb (isFinite dfx) || (abs dfx <? 1e-12)) eqn:Hflat.
      * injection Hexit as <-.
        eapply returns_later; [|apply bracketing_returns; exact H].
        eapply newton_flat; [lia|exact Hfx|exact Hconverged|exact Hdfx|exact Hflat].
      * cbn zeta in Hexit. set (next := x - fx / dfx) in *.
        destruct (negb (isFinite next) || (next <=? -0.999999) || (10 <? next)) eqn:Hout.
        -- injection Hexit as <-.
           eapply returns_later; [|apply bracketing_returns; exact H].
           eapply newton_out_of_bounds;
             [lia|exact Hfx|exact Hconverged|exact Hdfx|exact Hflat|reflexivity|exact Hout].
        -- destruct (abs (next - x) <? 1e-12) eqn:Hclose.
           ++ injection Hexit as <-. injection H as <-.
              eapply returns_later; [|apply returns_now].
              eapply newton_settled;
                [lia|exact Hfx|exact Hconverged|exact Hdfx|exact Hflat|reflexivity
                |exact Hout|exact Hclose].
           ++ eapply returns_later; [|apply (IH (S i)); [lia|]].
              ** eapply newton_continue;
                   [lia|exact Hfx|exact Hconverged|exact Hdfx|exact Hflat|reflexivity
                   |exact Hout|exact Hclose].
              ** cbn [rest_of_call]. replace (50 - S i)%nat with n by lia.
                 fold next. now rewrite Hexit.
Qed.

(** What the function computes from a state on is what a run returns. *)
Lemma rest_of_call_returns s r : rest s = Some r -> returns s r.
Proof.
  destruct s as [i x| |expandCount high fLow fHigh|i low high fLow|r'].
  - apply (newton_returns (50 - i)). reflexivity.
  - apply bracketing_returns.
  - apply (expand_returns (20 - expandCount)). reflexivity.
  - apply (bisect_returns (200 - i)). reflexivity.
  - intros H. injection H as <-. apply returns_now.
Qed.

Lemma solvePeriodicYtm_returns frequencyPerYear couponRateDecimal r :
  returns (entry frequencyPerYear couponRateDecimal) r <->
  solvePeriodicYtm marketPrice couponPayment faceValue periods
    frequencyPerYear couponRateDecimal = Some r.
Proof.
  change (solvePeriodicYtm marketPrice couponPayment faceValue periods
            frequencyPerYear couponRateDecimal)
    with (rest (entry frequencyPerYear couponRateDecimal)).
  split; [apply returns_rest_of_call|apply rest_of_call_returns].
Qed.

End MachineFacts.
(** ** Schedule and metrics: what a returned result holds *)

Section Results.

Context {host : Host}.

Lemma schedule_rows_spec :
  forall settlement monthsPerPeriod total coupon face count index cumulative rows,
    schedule_rows settlement monthsPerPeriod total coupon face count index cumulative
      = Returned rows ->
    List.length rows = count /\
    forall k row,
      nth_error rows k = Some row ->
      CashFlowRow.period row = of_nat (index + k) + 1 /\
      CashFlowRow.couponPayment row = round2 coupon /\
      CashFlowRow.cumulativeInterest row
        = round2 (Nat.iter (S k) (fun c => c + coupon) cumulative) /\
      CashFlowRow.remainingPrincipal row
        = (if of_nat (index + k) + 1 =? total then 0 else round2 face).
Proof.
  intros settlement monthsPerPeriod total coupon face count.
  induction count as [|count IH]; intros index cumulative rows Hrows; simpl in Hrows.
  - injection Hrows as <-. split; [reflexivity|].
    intros [|k] row H; discriminate H.
  - destruct (Date_toISOString _) as [iso|]; [|discriminate Hrows].
    destruct (schedule_rows _ _ _ _ _ count (S index) _) as [rest| |] eqn:Hrest;
      try discriminate Hrows.
    injection Hrows as <-.
    destruct (IH _ _ _ Hrest) as [Hlen Hnth].
    split; [simpl; now rewrite Hlen|].
    intros [|k] row H; simpl in H.
    + injection H as <-. simpl. rewrite Nat.add_0_r. repeat split.
    + destruct (Hnth k row H) as (Hp & Hc & Hi & Hr).
      replace (index + S k)%nat with (S index + k)%nat by lia.
      repeat split; try assumption.
      rewrite Hi. f_equal. clear.
      induction k as [|k IHk]; [reflexivity|].
      change (Nat.iter (S (S k)) ?f ?x) with (f (Nat.iter (S k) f x)).
      rewrite IHk. reflexivity.
Qed.

(** What [calculateBondMetrics] puts in the record it returns. *)
Lemma calculateBondMetrics_returned :
  forall input result,
    calculateBondMetrics input = Returned result ->
    (totalPeriodsOf input <=? 0) = false /\
    annualCouponAmount result = round2 (annualCouponAmountOf input) /\
    couponPayment result = round2 (couponPaymentOf input) /\
    totalPeriods result = totalPeriodsOf input /\
    currentYieldPct result
      = round6 (annualCouponAmountOf input / marketPrice input * 100) /\
    (exists periodicYtm,
        solvePeriodicYtm (marketPrice input) (couponPaymentOf input) (faceValue input)
          (totalPeriodsOf input) (frequencyOf input) (annualCouponRatePct input / 100)
          = Some periodicYtm /\
        ytmPct result = round6 (periodicYtm * frequencyOf input * 100)) /\
    totalInterestEarned result = round2 (couponPaymentOf input * totalPeriodsOf input) /\
    tradingStatus result
      = (if 0 <? marketPrice input - faceValue input then premium
         else if marketPrice input - faceValue input <? 0 then discount
         else par) /\
    premiumDiscountAmount result = round2 (marketPrice input - faceValue input) /\
    exists length settlement,
      array_length (totalPeriodsOf input) = Some length /\
      schedule_rows settlement (12 / frequencyOf input) (totalPeriodsOf input)
        (couponPaymentOf input) (faceValue input) length 0 0
        = Returned (cashFlowSchedule result).
Proof.
  intros input result H.
  unfold calculateBondMetrics in H.
  fold (frequencyOf input) in H. fold (totalPeriodsOf input) in H.
  fold (annualCouponAmountOf input) in H. fold (couponPaymentOf input) in H.
  destruct (totalPeriodsOf input <=? 0) eqn:Hperiods; [discriminate H|].
  destruct (solvePeriodicYtm _ _ _ _ _ _) as [periodicYtm|] eqn:Hsolve; [|discriminate H].
  destruct (array_length (totalPeriodsOf input)) as [length|] eqn:Hlength; [|discriminate H].
  match type of H with
  | match schedule_rows ?s _ _ _ _ _ _ _ with _ => _ end = _ =>
      destruct (schedule_rows s (12 / frequencyOf input) (totalPeriodsOf input)
                  (couponPaymentOf input) (faceValue input) length 0 0)
        as [rows| |] eqn:Hrows; try discriminate H;
      destruct (Date_toISOString s) as [iso|]; [|discriminate H];
      injection H as <-; simpl;
      repeat (split; [reflexivity|]);
      (split; [exists periodicYtm; split; reflexivity|]);
      repeat (split; [reflexivity|]);
      exists length, s; split; [reflexivity|exact Hrows]
  end.
Qed.

End Results.

(** ** Period counts *)

Section PeriodFacts.

(** A rounded number that [Array.from] takes as a positive length is that
    length. *)
Lemma array_length_rounded y n :
  array_length (Math_round y) = Some n -> (0 < n)%nat ->
  is_finite (Math_round y) = true /\
  B2R (Math_round y) = IZR (Z.of_nat n) /\ (Z.of_nat n <= 4294967295)%Z.
Proof.
  intros Hlen Hn. destruct (is_finite y) eqn:Fy.
  - destruct (Math_round_spec y Fy) as (Fr & z & Hz & _).
    unfold array_length in Hlen. rewrite (integer_part_exact _ z Fr Hz) in Hlen.
    destruct (Z.leb_spec z 4294967295); [|discriminate Hlen].
    injection Hlen as <-. rewrite Z2Nat.id by lia. auto.
  - exfalso. unfold array_length, integer_part, Math_round in Hlen.
    destruct (not_finite_cases y Fy) as [E|[s E]]; rewrite E in Hlen.
    + rewrite E in Hlen. injection Hlen as <-. lia.
    + rewrite E in Hlen. destruct (get_sign y); [|discriminate Hlen].
      injection Hlen as <-. lia.
Qed.

(** The period of the row at [index]. *)
Lemma row_period index :
  (Z.of_nat index < 2 ^ 53)%Z ->
  is_finite (of_nat index + 1) = true /\
  B2R (of_nat index + 1) = IZR (Z.of_nat index + 1).
Proof.
  intros Hindex. unfold of_nat.
  destruct (of_Z_exact (Z.of_nat index) ltac:(lia)) as [Fi Vi].
  destruct (of_Z_exact (Z.of_nat index + 1) ltac:(lia)) as [Fs Vs].
  destruct (add_between (of_Z (Z.of_nat index)) 1
              (of_Z (Z.of_nat index + 1)) (of_Z (Z.of_nat index + 1)))
    as [Fp Vp]; auto.
  - rewrite Vi, Vs, B2R_1, plus_IZR. lra.
  - split; [exact Fp|]. rewrite Vs in Vp. lra.
Qed.

(** Only the last row of the schedule has the period [totalPeriods]. *)
Lemma last_period y n index :
  array_length (Math_round y) = Some n -> (index < n)%nat ->
  (of_nat index + 1 =? Math_round y) = Nat.eqb (S index) n.
Proof.
  intros Hlen Hindex.
  destruct (array_length_rounded y n Hlen ltac:(lia)) as (Fr & Vr & Hmax).
  destruct (row_period index ltac:(lia)) as [Fp Vp].
  destruct (Nat.eqb_spec (S index) n) as [E|NE].
  - apply eqb_R; auto. rewrite Vp, Vr. f_equal. lia.
  - destruct (of_nat index + 1 =? Math_round y) eqn:Heq; [|reflexivity].
    apply eqb_R in Heq; auto. rewrite Vp, Vr in Heq. apply eq_IZR in Heq. lia.
Qed.

End PeriodFacts.

Section CountFacts.

(** A rounded number that is at least 1 and that [Array.from] accepts as a
    length is a positive length. *)
Lemma array_length_at_least_one y n :
  (1 <=? Math_round y) = true -> array_length (Math_round y) = Some n -> (0 < n)%nat.
Proof.
  intros Hone Hlen. destruct (is_finite y) eqn:Fy.
  - destruct (Math_round_spec y Fy) as (Fr & z & Hz & _).
    unfold array_length in Hlen. rewrite (integer_part_exact _ z Fr Hz) in Hlen.
    destruct (Z.leb_spec z 4294967295); [|discriminate Hlen].
    injection Hlen as <-.
    apply leb_R in Hone; auto. rewrite B2R_1, Hz in Hone.
    apply (le_IZR 1) in Hone. lia.
  - exfalso. unfold Math_round in *.
    destruct (not_finite_cases y Fy) as [E|[s E]]; rewrite E in *.
    + rewrite FloatAxioms.leb_spec, E in Hone. discriminate Hone.
    + unfold array_length, integer_part in Hlen. rewrite E in Hlen.
      destruct (get_sign y) eqn:Hsign; [|discriminate Hlen].
      rewrite FloatAxioms.leb_spec, E in Hone.
      unfold get_sign in Hsign. destruct s; [discriminate Hone|].
      assert (Hy : y = infinity).
      { apply Prim2SF_inj. rewrite E. reflexivity. }
      rewrite Hy in Hsign. discriminate Hsign.
Qed.

End CountFacts.

Section ZeroFacts.

(** A number that compares equal to 0 is +0 or -0. *)
Lemma is_zero_cases x : is_zero x = true -> x = 0 \/ x = -0.
Proof.
  unfold is_zero. rewrite FloatAxioms.eqb_spec. intros H.
  destruct (Prim2SF x) as [[|]|s| |s p e] eqn:E; try discriminate H.
  - right. apply Prim2SF_inj. rewrite E. reflexivity.
  - left. apply Prim2SF_inj. rewrite E. reflexivity.
  - destruct s; discriminate H.
  - destruct s; discriminate H.
Qed.

Lemma round2_zero x : is_zero x = true -> round2 x = 0.
Proof.
  intros H. destruct (is_zero_cases x H) as [-> | ->]; vm_compute; reflexivity.
Qed.

End ZeroFacts.

(** * The validator and the rules *)

Section ValidationFacts.

Context {host : Host}.

Lemma leb_negb_ltb x y :
  is_finite x = true -> is_finite y = true -> (x <=? y) = negb (y <? x).
Proof.
  intros Fx Fy. destruct (y <? x) eqn:Hlt; simpl.
  - apply leb_false_R; auto. apply ltb_R in Hlt; auto.
  - apply leb_R; auto. apply ltb_false_R in Hlt; auto.
Qed.

Lemma ltb_negb_leb x y :
  is_finite x = true -> is_finite y = true -> (x <? y) = negb (y <=? x).
Proof.
  intros Fx Fy. rewrite (leb_negb_ltb y x Fy Fx). now rewrite negb_involutive.
Qed.

(** The test the code makes on a field that must be positive: the negation of
    the rule. *)
Lemma positive_test x :
  negb (isFinite x) || (x <=? 0) = negb (isFinite x && (0 <? x)).
Proof.
  unfold isFinite. destruct (is_finite x) eqn:Fx; simpl; [|reflexivity].
  apply leb_negb_ltb; auto.
Qed.

Lemma nonnegative_test x :
  negb (isFinite x) || (x <? 0) = negb (isFinite x && (0 <=? x)).
Proof.
  unfold isFinite. destruct (is_finite x) eqn:Fx; simpl; [|reflexivity].
  apply ltb_negb_leb; auto.
Qed.

(** The list the validator builds is the ordered list of the messages of the
    rules that fail. *)
Lemma validateBondInput_violations input :
  validateBondInput input = violations (rules input).
Proof.
  unfold validateBondInput, violations, rules, push.
  rewrite !positive_test, nonnegative_test.
  fold (rule_faceValue input). fold (rule_couponRate input).
  fold (rule_marketPrice input). fold (rule_yearsToMaturity input).
  replace (negb (existsb (String.eqb (couponFrequency input)) ["annual"; "semi-annual"]))
    with (negb (rule_couponFrequency input))
    by (unfold rule_couponFrequency; simpl; now rewrite orb_false_r).
  replace (match truthy (settlementDate input) with
           | Some text => isNaN (Date_getTime (Date_parse text))
           | None => false
           end)
    with (negb (rule_settlementDate input))
    by (unfold rule_settlementDate; destruct (truthy (settlementDate input));
        [now rewrite negb_involutive|reflexivity]).
  destruct (rule_faceValue input), (rule_couponRate input), (rule_marketPrice input),
    (rule_yearsToMaturity input), (rule_couponFrequency input),
    (rule_settlementDate input); reflexivity.
Qed.

(** An input passes validation exactly when every rule holds. *)
Lemma valid_input_rules input :
  validateBondInput input = [] <->
  rule_faceValue input = true /\ rule_couponRate input = true /\
  rule_marketPrice input = true /\ rule_yearsToMaturity input = true /\
  rule_couponFrequency input = true /\ rule_settlementDate input = true.
Proof.
  rewrite validateBondInput_violations. unfold violations, rules.
  destruct (rule_faceValue input), (rule_couponRate input), (rule_marketPrice input),
    (rule_yearsToMaturity input), (rule_couponFrequency input),
    (rule_settlementDate input); simpl; split; intros H;
    try discriminate H; try reflexivity; try (repeat split; reflexivity);
    destruct H as (? & ? & ? & ? & ? & ?); discriminate.
Qed.

(** What validation gives about the numbers of an input. *)
Lemma valid_input_numbers input :
  validateBondInput input = [] ->
  is_finite (faceValue input) = true /\ (0 <? faceValue input) = true /\
  is_finite (annualCouponRatePct input) = true /\ (0 <=? annualCouponRatePct input) = true /\
  is_finite (marketPrice input) = true /\ (0 <? marketPrice input) = true /\
  is_finite (yearsToMaturity input) = true /\ (0 <? yearsToMaturity input) = true /\
  (frequencyOf input = 1 \/ frequencyOf input = 2).
Proof.
  intros H. apply valid_input_rules in H as (H1 & H2 & H3 & H4 & H5 & _).
  unfold rule_faceValue, rule_couponRate, rule_marketPrice, rule_yearsToMaturity,
    isFinite in *.
  apply andb_true_iff in H1 as [? ?]. apply andb_true_iff in H2 as [? ?].
  apply andb_true_iff in H3 as [? ?]. apply andb_true_iff in H4 as [? ?].
  repeat (split; [assumption|]).
  unfold frequencyOf. destruct (String.eqb _ _); auto.
Qed.

End ValidationFacts.

(** * Products, and results that are exact *)

Section ProductFacts.

#[local] Open Scope Z_scope.

Lemma SFmul_finite sx mx ex sy my ey :
  on_grid (Zpos mx) ex -> on_grid (Zpos my) ey ->
  rounded (xorb sx sy) (F2R (Zpos mx) ex * F2R (Zpos my) ey)
    (SFmul prec emax (S754_finite sx mx ex) (S754_finite sy my ey)).
Proof.
  intros (_ & Hex & Hnx) (_ & Hey & Hny). unfold SFmul.
  apply binary_round_aux_rounded.
  - lia.
  - rewrite fexp64_eq.
    change (Zpos (mx * my)) with (Zpos mx * Zpos my).
    assert (Hd : 1 <= Zdigits2 (Zpos mx * Zpos my))
      by (pose proof (Zdigits2_pos (Zpos mx * Zpos my) ltac:(lia)); lia).
    destruct Hnx as [Hx|Hx]; destruct Hny as [Hy|Hy].
    + lia.
    + assert (53 <= Zdigits2 (Zpos mx * Zpos my)) by (apply (Zdigits2_ge _ 52); nia). lia.
    + assert (53 <= Zdigits2 (Zpos mx * Zpos my)) by (apply (Zdigits2_ge _ 52); nia). lia.
    + assert (105 <= Zdigits2 (Zpos mx * Zpos my)).
      { apply (Zdigits2_ge _ 104); [lia|].
        change (2 ^ 104) with (2 ^ 52 * 2 ^ 52). nia. }
      lia.
  - unfold located_rec. simpl. unfold located, F2R.
    rewrite Pos2Z.inj_mul, mult_IZR, bpow_plus. ring.
Qed.

(** A value on the grid of binary64 is its own rounding. *)
Lemma rounded_exact s x mb eb :
  rounded s (F2R mb eb) x -> on_grid mb eb -> eb <= 971 ->
  SF_finite x = true /\ SF2R x = signed s (F2R mb eb).
Proof.
  intros Hr Hg He.
  destruct (rounded_upper s _ x mb eb Hr Hg He ltac:(lra)) as (Fx & w & Hw & Hw0 & Hw1).
  split; [exact Fx|]. rewrite Hw. f_equal.
  destruct Hg as ((Hm0 & Hm1) & Hge).
  destruct (Z.eq_dec mb 0) as [->|Hne]; [rewrite F2R_0 in *; lra|].
  destruct (rounded_lower s _ x mb eb Hr ltac:(unfold on_grid; tauto) ltac:(lia) ltac:(lra))
    as [->|(p & e & -> & Hp)]; [discriminate Fx|].
  unfold SF2R in Hw. rewrite F2R_cond_Zopp in Hw.
  assert (w = F2R (Zpos p) e) by (destruct s; simpl in Hw; lra). lra.
Qed.

Lemma mul_between x y lo hi :
  is_finite x = true -> is_finite y = true ->
  is_finite lo = true -> is_finite hi = true ->
  (B2R lo <= B2R x * B2R y <= B2R hi)%R ->
  is_finite (x * y)%float = true /\ (B2R lo <= B2R (x * y)%float <= B2R hi)%R.
Proof.
  intros Fx Fy Flo Fhi Hb.
  destruct (finite_cases x Fx) as [(sx & Ex)|(sx & mx & ex & Ex & Gx & Hx)];
    destruct (finite_cases y Fy) as [(sy & Ey)|(sy & my & ey & Ey & Gy & Hy)];
    rewrite is_finite_spec in *; unfold B2R in *; rewrite mul_spec; unfold SF64mul;
    rewrite Ex, Ey in *.
  - cbn [SF2R SFmul SF_finite] in *. split; [reflexivity|lra].
  - cbn [SF2R SFmul SF_finite] in *. split; [reflexivity|lra].
  - cbn [SF2R SFmul SF_finite] in *. split; [reflexivity|lra].
  - pose proof (SFmul_finite sx mx ex sy my ey Gx Gy) as Hr.
    apply (rounded_between _ _ _ _ _ Hr); auto using Prim2SF_valid.
    unfold SF2R in Hb. rewrite !F2R_cond_Zopp in Hb.
    replace (signed (xorb sx sy) (F2R (Zpos mx) ex * F2R (Zpos my) ey))
      with (signed sx (F2R (Zpos mx) ex) * signed sy (F2R (Zpos my) ey))%R
      by (destruct sx, sy; simpl; ring).
    exact Hb.
Qed.

(** Multiplying by 1 changes nothing. *)
Lemma mul_1_exact x :
  is_finite x = true ->
  is_finite (x * 1)%float = true /\ B2R (x * 1)%float = B2R x.
Proof.
  intros Fx.
  destruct (mul_between x 1 x x) as [F V]; auto; [rewrite B2R_1; lra|].
  split; [exact F|lra].
Qed.

(** The double of a positive number on the grid is on the grid. *)
Lemma double_on_grid p e :
  on_grid (Zpos p) e ->
  exists m' e', on_grid m' e' /\ e' <= e + 1 /\ F2R m' e' = (2 * F2R (Zpos p) e)%R.
Proof.
  intros ((Hp0 & Hp1) & He & Hn).
  destruct (Z_lt_le_dec (Zpos p) (2 ^ 52)) as [Hsmall|Hbig].
  - assert (e = -1074) by lia. subst e.
    exists (2 * Zpos p), (-1074). split; [unfold on_grid; lia|]. split; [lia|].
    unfold F2R. rewrite mult_IZR. simpl (IZR 2). ring.
  - exists (Zpos p), (e + 1). split; [unfold on_grid; lia|]. split; [lia|].
    unfold F2R. rewrite bpow_succ. ring.
Qed.

(** Doubling is exact as long as the result is finite. *)
Lemma mul_2_finite x hi :
  is_finite x = true -> is_finite hi = true ->
  (Rabs (B2R x) * 2 <= B2R hi)%R ->
  is_finite (x * 2)%float = true /\ B2R (x * 2)%float = (B2R x * 2)%R.
Proof.
  intros Fx Fhi Hhi.
  destruct (finite_cases x Fx) as [(sx & Ex)|(sx & mx & ex & Ex & Gx & Hx)];
    rewrite is_finite_spec in *; unfold B2R in *; rewrite mul_spec; unfold SF64mul;
    rewrite Ex in *;
    change (Prim2SF 2) with (S754_finite false (Z.to_pos (2 ^ 52)) (-51)).
  - cbn [SF2R SFmul SF_finite]. split; [reflexivity|lra].
  - assert (G2 : on_grid (Zpos (Z.to_pos (2 ^ 52))) (-51))
      by (change (Zpos (Z.to_pos (2 ^ 52))) with (2 ^ 52); unfold on_grid; lia).
    pose proof (SFmul_finite sx mx ex false _ _ Gx G2) as Hr.
    assert (V2 : F2R (Zpos (Z.to_pos (2 ^ 52))) (-51) = 2%R).
    { change (Zpos (Z.to_pos (2 ^ 52))) with (2 ^ 52).
      rewrite F2R_bpow by lia. unfold bpow. simpl. lra. }
    rewrite V2 in Hr. rewrite xorb_false_r in Hr.
    destruct (double_on_grid mx ex Gx) as (m' & e' & G' & He' & V').
    rewrite Rmult_comm, <- V' in Hr.
    pose proof (F2R_pos mx ex) as Hpos.
    change (SF2R (S754_finite sx mx ex)) with (F2R (cond_Zopp sx (Zpos mx)) ex) in Hhi.
    rewrite F2R_cond_Zopp in Hhi.
    assert (Habs : Rabs (signed sx (F2R (Zpos mx) ex)) = F2R (Zpos mx) ex).
    { destruct sx; simpl; [rewrite Rabs_Ropp|]; apply Rabs_pos_eq; lra. }
    rewrite Habs in Hhi.
    destruct (Z_le_gt_dec e' 971) as [Hle|Hgt].
    + destruct (rounded_exact _ _ _ _ Hr G' Hle) as [F V]. split; [exact F|].
      rewrite V, V'. unfold SF2R. rewrite F2R_cond_Zopp. destruct sx; simpl; ring.
    + (* the double is beyond every finite number *)
      exfalso.
      destruct (magnitude_on_grid (Prim2SF hi) (Prim2SF_valid hi) Fhi)
        as (mh & eh & Gh & Eh & Vh & _).
      assert (Hbig : (F2R mh eh < F2R m' e')%R).
      { apply grid_exponent_lt; auto. lia. }
      assert (Rabs (SF2R (Prim2SF hi)) = SF2R (Prim2SF hi)) by (apply Rabs_pos_eq; lra).
      lra.
Qed.

(** A magnitude of 2^1024 or more rounds to an infinity. *)
Lemma rounded_overflow s v x :
  rounded s v x -> (bpow 1024 <= v)%R -> x = S754_infinity s.
Proof.
  intros (m & e & r & sb & Hloc & Hg & ->) Hv.
  pose proof (located_range _ _ _ _ _ Hloc) as [_ Hup].
  pose proof (rne_range m r sb) as Hrne.
  assert (He : 971 < e).
  { destruct (Z_lt_le_dec 971 e) as [|Hle]; [assumption|exfalso].
    destruct Hg as ((_ & Hm) & _).
    assert (H1 : (F2R (m + 1) e <= F2R (2 ^ 53) e)%R) by (apply F2R_le; lia).
    rewrite F2R_bpow in H1 by lia.
    assert (H2 : (bpow (e + 53) <= bpow 1024)%R) by (apply bpow_le; lia).
    lra. }
  destruct Hg as ((Hm0 & Hm1) & Hge & Hn).
  assert (Hm : 2 ^ 52 <= m) by lia.
  unfold pack. destruct (rne m r sb) as [|p|p] eqn:E; [lia| |lia].
  destruct (Z.eqb_spec (Zpos p) (2 ^ 53)).
  - destruct (Z.leb_spec (e + 1) 971); [lia|reflexivity].
  - destruct (Z.leb_spec e 971); [lia|reflexivity].
Qed.

(** Doubling is exact whenever its result is finite. *)
Lemma mul_2_exact x :
  is_finite x = true -> is_finite (x * 2)%float = true ->
  B2R (x * 2)%float = (B2R x * 2)%R.
Proof.
  intros Fx F2.
  destruct (finite_cases x Fx) as [(sx & Ex)|(sx & mx & ex & Ex & Gx & Hx)];
    rewrite is_finite_spec in *; unfold B2R in *; rewrite mul_spec in *;
    unfold SF64mul in *; rewrite Ex in *;
    change (Prim2SF 2) with (S754_finite false (Z.to_pos (2 ^ 52)) (-51)) in *.
  - cbn [SF2R SFmul]. lra.
  - assert (G2 : on_grid (Zpos (Z.to_pos (2 ^ 52))) (-51))
      by (change (Zpos (Z.to_pos (2 ^ 52))) with (2 ^ 52); unfold on_grid; lia).
    pose proof (SFmul_finite sx mx ex false _ _ Gx G2) as Hr.
    assert (V2 : F2R (Zpos (Z.to_pos (2 ^ 52))) (-51) = 2%R).
    { change (Zpos (Z.to_pos (2 ^ 52))) with (2 ^ 52).
      rewrite F2R_bpow by lia. unfold bpow. simpl. lra. }
    rewrite V2 in Hr. rewrite xorb_false_r in Hr.
    destruct (double_on_grid mx ex Gx) as (m' & e' & G' & He' & V').
    rewrite Rmult_comm, <- V' in Hr.
    destruct (Z_le_gt_dec e' 971) as [Hle|Hgt].
    + destruct (rounded_exact _ _ _ _ Hr G' Hle) as [F V].
      rewrite V, V'. unfold SF2R. rewrite F2R_cond_Zopp. destruct sx; simpl; ring.
    + exfalso.
      assert (Hbig : (bpow 1024 <= F2R m' e')%R).
      { assert (e' = 972) by lia. subst e'.
        assert (Hm' : 2 ^ 52 <= m') by (destruct G' as (_ & _ & [?|?]); lia).
        apply (F2R_le _ _ 972) in Hm'. rewrite F2R_bpow in Hm' by lia. exact Hm'. }
      rewrite (rounded_overflow _ _ _ Hr Hbig) in F2. discriminate F2.
Qed.

(** A positive binary64 number below the exact product is below the
    product, which may be infinite. *)
Lemma mul_at_least x y lo :
  is_finite x = true -> is_finite y = true -> is_finite lo = true ->
  (0 < B2R lo <= B2R x * B2R y)%R ->
  (x * y)%float = infinity \/
  (is_finite (x * y)%float = true /\ (B2R lo <= B2R (x * y)%float)%R).
Proof.
  intros Fx Fy Flo [Hlo Hle].
  destruct (finite_cases x Fx) as [(sx & Ex)|(sx & mx & ex & Ex & Gx & Hx)];
    [unfold B2R in *; rewrite Ex in Hle; cbn [SF2R] in Hle; lra|].
  destruct (finite_cases y Fy) as [(sy & Ey)|(sy & my & ey & Ey & Gy & Hy)];
    [unfold B2R in *; rewrite Ey in Hle; cbn [SF2R] in Hle; lra|].
  pose proof (SFmul_finite sx mx ex sy my ey Gx Gy) as Hr.
  pose proof (F2R_pos mx ex) as Px. pose proof (F2R_pos my ey) as Py.
  assert (Pxy : (0 < F2R (Zpos mx) ex * F2R (Zpos my) ey)%R) by nra.
  assert (Hs : xorb sx sy = false /\
               (B2R x * B2R y = F2R (Zpos mx) ex * F2R (Zpos my) ey)%R).
  { unfold B2R in *. rewrite Ex, Ey in *. unfold SF2R in *.
    rewrite !F2R_cond_Zopp in *.
    destruct sx, sy; simpl in *; split; try reflexivity; try lra; nra. }
  destruct Hs as [Hs Hv]. rewrite Hs in Hr. rewrite Hv in Hle.
  rewrite is_finite_spec in Flo.
  destruct (magnitude_on_grid (Prim2SF lo) (Prim2SF_valid lo) Flo)
    as (ml & el & Gl & El & Vl & _).
  fold (B2R lo) in Vl. rewrite Rabs_pos_eq in Vl by lra.
  assert (Hml : 0 < ml).
  { apply (F2R_lt_inv _ _ el). rewrite F2R_0. lra. }
  destruct (rounded_lower false _ _ ml el Hr Gl Hml ltac:(lra)) as [E|(p & e & E & Hp)].
  - left. apply Prim2SF_inj. rewrite mul_spec. unfold SF64mul. rewrite Ex, Ey. exact E.
  - right. split.
    + rewrite is_finite_spec, mul_spec. unfold SF64mul. now rewrite Ex, Ey, E.
    + unfold B2R at 2. rewrite mul_spec. unfold SF64mul. rewrite Ex, Ey, E.
      cbn [SF2R cond_Zopp]. lra.
Qed.

(** What a rounding can be: a zero, an infinity or a finite number, of the
    sign it was given. *)
Lemma rounded_cases s v x :
  rounded s v x ->
  x = S754_zero s \/ x = S754_infinity s \/ exists p e, x = S754_finite s p e.
Proof.
  intros (m & e & r & sb & _ & Hg & ->).
  destruct (rne_grid m e r sb Hg) as (H1 & _).
  destruct (pack_cases s (rne m r sb) e ltac:(lia))
    as [[_ E]|[[_ E]|(_ & _ & _ & p & e' & E)]]; eauto.
Qed.

(** The product of two finite numbers is not NaN. *)
Lemma mul_cases x y :
  is_finite x = true -> is_finite y = true ->
  exists s, Prim2SF (x * y)%float = S754_zero s \/
            Prim2SF (x * y)%float = S754_infinity s \/
            exists p e, Prim2SF (x * y)%float = S754_finite s p e.
Proof.
  intros Fx Fy. rewrite mul_spec. unfold SF64mul.
  destruct (finite_cases x Fx) as [(sx & ->)|(sx & mx & ex & -> & Gx & Hx)];
    destruct (finite_cases y Fy) as [(sy & ->)|(sy & my & ey & -> & Gy & Hy)];
    try (exists (xorb sx sy); left; reflexivity).
  exists (xorb sx sy). apply (rounded_cases _ _ _ (SFmul_finite sx mx ex sy my ey Gx Gy)).
Qed.

End ProductFacts.

(** * The period count *)

Section PeriodCountFacts.

Context {host : Host}.

Lemma B2R_half : B2R 0.5 = (1 / 2)%R.
Proof.
  unfold B2R. change (Prim2SF 0.5) with (S754_finite false (Z.to_pos (2 ^ 52)) (-53)).
  unfold SF2R, cond_Zopp. change (Zpos (Z.to_pos (2 ^ 52))) with (2 ^ 52)%Z.
  rewrite F2R_bpow by lia. unfold bpow. simpl. lra.
Qed.

Lemma B2R_quarter : B2R 0.25 = (1 / 4)%R.
Proof.
  unfold B2R. change (Prim2SF 0.25) with (S754_finite false (Z.to_pos (2 ^ 52)) (-54)).
  unfold SF2R, cond_Zopp. change (Zpos (Z.to_pos (2 ^ 52))) with (2 ^ 52)%Z.
  rewrite F2R_bpow by lia. unfold bpow. simpl. lra.
Qed.

(** A number that [Math.round] takes to a finite number is finite. *)
Lemma Math_round_finite x : is_finite (Math_round x) = true -> is_finite x = true.
Proof.
  unfold Math_round. rewrite (is_finite_spec x).
  destruct (Prim2SF x) as [s|s| |s m e] eqn:E; intros H;
    try reflexivity; rewrite is_finite_spec, E in H; exact H.
Qed.

(** [Math.round] gives zero or less exactly below one half. *)
Lemma Math_round_nonpositive x :
  is_finite x = true ->
  (Math_round x <=? 0) = true <-> (B2R x < 1 / 2)%R.
Proof.
  intros Fx. destruct (Math_round_spec x Fx) as (Fr & z & Hz & Hlo & Hhi).
  rewrite leb_R by auto. rewrite Hz, B2R_0.
  split; intros H.
  - lra.
  - apply IZR_le. assert (Hlt : (IZR z < 1)%R) by lra. apply lt_IZR in Hlt. lia.
Qed.

(** The number of periods of [years] at 1 or 2 periods a year is zero or
    less exactly when the exact product is below one half. *)
Lemma degenerate_periods_annual years :
  is_finite years = true ->
  (Math_round (years * 1) <=? 0) = true <-> (B2R years < 1 / 2)%R.
Proof.
  intros Fy. destruct (mul_1_exact years Fy) as [Fp Vp].
  rewrite (Math_round_nonpositive _ Fp), Vp. reflexivity.
Qed.

Lemma degenerate_periods_semi_annual years :
  is_finite years = true -> (0 <= B2R years)%R ->
  (Math_round (years * 2) <=? 0) = true <-> (B2R years < 1 / 4)%R.
Proof.
  intros Fy Hpos. destruct (is_finite (years * 2)) eqn:Fp.
  - rewrite (Math_round_nonpositive _ Fp), (mul_2_exact years Fy Fp). split; lra.
  - destruct (Rlt_or_le (B2R years) (1 / 4)) as [Hlt|Hge].
    + exfalso.
      destruct (mul_2_finite years 1 Fy eq_refl) as [F _]; [|congruence].
      rewrite Rabs_pos_eq, B2R_1 by exact Hpos. lra.
    + split; [|lra]. intros H. exfalso.
      destruct (mul_at_least years 2 0.5 Fy eq_refl eq_refl) as [E|[F _]];
        [rewrite B2R_half, B2R_2; lra| |congruence].
      rewrite E in H. discriminate H.
Qed.

(** The schedule throws nothing but the RangeError of an invalid date. *)
Lemma schedule_rows_thrown settlement monthsPerPeriod total coupon face count :
  forall index cumulative message,
    schedule_rows settlement monthsPerPeriod total coupon face count index cumulative
      = Thrown message ->
    message = "Invalid time value".
Proof.
  induction count as [|count IH]; intros index cumulative message H; simpl in H;
    [discriminate H|].
  destruct (Date_toISOString _); [|now injection H as <-].
  destruct (schedule_rows _ _ _ _ _ count (S index) _) eqn:Hrest; try discriminate H.
  injection H as <-. exact (IH _ _ _ Hrest).
Qed.

(** [calculateBondMetrics] throws the error of the period count exactly
    when the rounded period count is zero or less. *)
Lemma period_error_iff input :
  calculateBondMetrics input = Thrown "Total periods must be at least 1." <->
  (totalPeriodsOf input <=? 0) = true.
Proof.
  unfold calculateBondMetrics.
  fold (frequencyOf input). fold (totalPeriodsOf input).
  destruct (totalPeriodsOf input <=? 0); [split; reflexivity|].
  split; [|discriminate]. intros H. exfalso.
  destruct (solvePeriodicYtm _ _ _ _ _ _); [|discriminate H].
  destruct (array_length _); [|discriminate H].
  destruct (schedule_rows _ _ _ _ _ _ _ _) eqn:Hrows.
  - destruct (Date_toISOString _); discriminate H.
  - apply schedule_rows_thrown in Hrows. subst. discriminate H.
  - discriminate H.
Qed.

(** The period count of a result: the integer nearest to the exact product
    of years and periods a year, from 1 to 2^32 - 1. *)
Lemma returned_period_count years f k n :
  is_finite years = true -> (0 < B2R years)%R ->
  (f = 1 /\ k = 1%Z) \/ (f = 2 /\ k = 2%Z) ->
  (Math_round (years * f) <=? 0) = false ->
  array_length (Math_round (years * f)) = Some n ->
  (1 <= Z.of_nat n <= 4294967295)%Z /\
  (IZR (Z.of_nat n) - 1 / 2 <= B2R years * IZR k < IZR (Z.of_nat n) + 1 / 2)%R.
Proof.
  intros Fy Hpos Hf Hleb Hlen.
  assert (Ff : is_finite f = true) by (destruct Hf as [[-> _]|[-> _]]; reflexivity).
  assert (Fp : is_finite (years * f) = true).
  { destruct (is_finite (years * f)) eqn:Fp; [reflexivity|exfalso].
    destruct (mul_cases years f Fy Ff) as (s & [E|[E|(p & e & E)]]);
      try (rewrite is_finite_spec, E in Fp; discriminate Fp).
    unfold array_length, integer_part, Math_round in Hlen. rewrite E in Hlen.
    rewrite E in Hlen.
    destruct (get_sign (years * f)) eqn:Hsign; [|discriminate Hlen].
    rewrite FloatAxioms.leb_spec in Hleb. unfold Math_round in Hleb. rewrite E in Hleb.
    rewrite E in Hleb. destruct s; [discriminate Hleb|].
    assert (Hinf : (years * f) = infinity) by (apply Prim2SF_inj; rewrite E; reflexivity).
    rewrite Hinf in Hsign. discriminate Hsign. }
  destruct (Math_round_spec _ Fp) as (Fr & z & Hz & Hlo & Hhi).
  apply leb_false_R in Hleb; auto. rewrite Hz, B2R_0 in Hleb. apply lt_IZR in Hleb.
  unfold array_length in Hlen. rewrite (integer_part_exact _ z Fr Hz) in Hlen.
  destruct (Z.leb_spec z 4294967295); [|discriminate Hlen].
  injection Hlen as <-. rewrite Z2Nat.id by lia. split; [lia|].
  assert (Hv : B2R (years * f) = (B2R years * IZR k)%R).
  { destruct Hf as [[-> ->]|[-> ->]].
    - destruct (mul_1_exact years Fy) as [_ ->]. simpl. lra.
    - rewrite (mul_2_exact years Fy Fp). reflexivity. }
  rewrite <- Hv. split; assumption.
Qed.

End PeriodCountFacts.

(** * Rounding keeps the order *)

Section MonotoneFacts.

#[local] Open Scope Z_scope.

(** Within one cell of the grid, rounding follows the location. *)
Lemma rne_mono_cell m e r sb v r' sb' v' :
  located m e r sb v -> located m e r' sb' v' -> (v <= v')%R ->
  rne m r sb <= rne m r' sb'.
Proof.
  unfold located, rne. intros H H' Hle. pose proof (bpow_gt_0 e).
  destruct r, sb, r', sb'; simpl; try lia; try (exfalso; lra);
    destruct (Z.even m); lia.
Qed.

Lemma round_mono m e r sb v m' e' r' sb' v' :
  located m e r sb v -> on_grid m e ->
  located m' e' r' sb' v' -> on_grid m' e' ->
  (v <= v')%R ->
  (F2R (rne m r sb) e <= F2R (rne m' r' sb') e')%R.
Proof.
  intros Hloc Hg Hloc' Hg' Hle.
  pose proof (located_range _ _ _ _ _ Hloc) as [Hlo Hhi].
  pose proof (located_range _ _ _ _ _ Hloc') as [Hlo' Hhi'].
  pose proof (rne_range m r sb) as [Hr0 Hr1].
  pose proof (rne_range m' r' sb') as [Hr0' Hr1'].
  destruct Hg as ((Hm0 & Hm1) & He & Hn). destruct Hg' as ((Hm0' & Hm1') & He' & Hn').
  destruct (Z.lt_trichotomy e e') as [L|[E|L]].
  - (* a lower binade *)
    assert (H1 : (F2R (rne m r sb) e <= F2R (2 ^ 53) e)%R) by (apply F2R_le; lia).
    rewrite F2R_bpow in H1 by lia.
    assert (H2 : (bpow (e + 53) <= bpow (e' + 52))%R) by (apply bpow_le; lia).
    assert (H3 : (F2R (2 ^ 52) e' <= F2R m' e')%R) by (apply F2R_le; lia).
    rewrite F2R_bpow in H3 by lia.
    assert (H4 : (F2R m' e' <= F2R (rne m' r' sb') e')%R) by (apply F2R_le; lia).
    lra.
  - subst e'.
    assert (Hmm : m <= m').
    { destruct (Z_le_gt_dec m m') as [|Hgt]; [assumption|exfalso].
      assert (H1 : (F2R (m' + 1) e <= F2R m e)%R) by (apply F2R_le; lia). lra. }
    destruct (Z.eq_dec m m') as [<-|Hne].
    + apply F2R_le. exact (rne_mono_cell _ _ _ _ _ _ _ _ Hloc Hloc' Hle).
    + apply F2R_le. lia.
  - (* a higher binade cannot hold a smaller value *)
    exfalso.
    assert (H1 : (F2R (m' + 1) e' <= F2R (2 ^ 53) e')%R) by (apply F2R_le; lia).
    rewrite F2R_bpow in H1 by lia.
    assert (H2 : (bpow (e' + 53) <= bpow (e + 52))%R) by (apply bpow_le; lia).
    assert (H3 : (F2R (2 ^ 52) e <= F2R m e)%R) by (apply F2R_le; lia).
    rewrite F2R_bpow in H3 by lia.
    lra.
Qed.

(** What [pack] makes of a rounded mantissa: an infinity from 2^1024 on,
    and the value below. *)
Lemma pack_magnitude s M e :
  0 <= M <= 2 ^ 53 -> -1074 <= e -> (e = -1074 \/ 2 ^ 52 <= M) ->
  (pack s M e = S754_infinity s /\ (bpow 1024 <= F2R M e)%R) \/
  ((F2R M e < bpow 1024)%R /\ SF_finite (pack s M e) = true /\
   SF2R (pack s M e) = signed s (F2R M e)).
Proof.
  intros HM He Hn. unfold pack. destruct M as [|p|p]; [| |lia].
  - right. rewrite F2R_0. pose proof (bpow_gt_0 1024).
    split; [lra|]. split; [reflexivity|]. destruct s; simpl; lra.
  - destruct (Z.eqb_spec (Zpos p) (2 ^ 53)) as [E|NE].
    + rewrite E, F2R_bpow by lia.
      destruct (Z.leb_spec (e + 1) 971) as [Hle|Hgt].
      * right. split; [apply bpow_lt; lia|]. split; [reflexivity|].
        unfold SF2R. rewrite F2R_cond_Zopp. f_equal.
        change (Zpos (Z.to_pos (2 ^ 52))) with (2 ^ 52).
        rewrite F2R_bpow by lia. f_equal. lia.
      * left. split; [reflexivity|apply bpow_le; lia].
    + destruct (Z.leb_spec e 971) as [Hle|Hgt].
      * right. split.
        -- assert (H1 : (F2R (Zpos p) e < F2R (2 ^ 53) e)%R) by (apply F2R_lt; lia).
           rewrite F2R_bpow in H1 by lia.
           assert (H2 : (bpow (e + 53) <= bpow 1024)%R) by (apply bpow_le; lia). lra.
        -- split; [reflexivity|]. unfold SF2R. now rewrite F2R_cond_Zopp.
      * left. split; [reflexivity|].
        assert (H1 : (F2R (2 ^ 52) e <= F2R (Zpos p) e)%R) by (apply F2R_le; lia).
        rewrite F2R_bpow in H1 by lia.
        assert (H2 : (bpow 1024 <= bpow (e + 52))%R) by (apply bpow_le; lia). lra.
Qed.

(** Zero rounds to zero. *)
Lemma rounded_zero s x : rounded s 0 x -> x = S754_zero s.
Proof.
  intros (m & e & r & sb & Hloc & Hg & ->).
  pose proof (located_range _ _ _ _ _ Hloc) as [Hlo _].
  destruct Hg as ((Hm0 & _) & _).
  assert (Hm : m = 0).
  { destruct (Z.eq_dec m 0) as [|Hne]; [assumption|exfalso].
    assert (H : (F2R 0 e < F2R m e)%R) by (apply F2R_lt; lia).
    rewrite F2R_0 in H. lra. }
  subst m. pose proof (bpow_gt_0 e). unfold located in Hloc. rewrite F2R_0 in Hloc.
  destruct r, sb; try (exfalso; lra). reflexivity.
Qed.

Lemma zero_rounded s : rounded s 0 (S754_zero s).
Proof.
  exists 0, (-1074), false, false. split; [unfold located; now rewrite F2R_0|].
  split; [exact on_grid_0|reflexivity].
Qed.

(** Rounding keeps the order of magnitudes that are not negative. *)
Lemma rounded_leb s v x s' v' x' :
  rounded s v x -> rounded s' v' x' -> (v <= v')%R ->
  s = false \/ v = 0%R -> s' = false \/ v' = 0%R ->
  SFleb x x' = true.
Proof.
  intros Hr Hr' Hle Hs Hs'.
  pose proof (rounded_nonneg _ _ _ Hr) as Hv.
  destruct (Req_dec v' 0) as [Hz'|Hnz'].
  - assert (v = 0%R) by lra. subst v v'.
    rewrite (rounded_zero _ _ Hr), (rounded_zero _ _ Hr'). reflexivity.
  - assert (s' = false) by (destruct Hs'; [assumption|contradiction]). subst s'.
    destruct (Req_dec v 0) as [Hz|Hnz].
    + subst v. rewrite (rounded_zero _ _ Hr).
      destruct (rounded_cases _ _ _ Hr') as [->|[->|(p & e & ->)]]; reflexivity.
    + assert (s = false) by (destruct Hs; [assumption|contradiction]). subst s.
      pose proof (rounded_valid _ _ _ Hr) as V. pose proof (rounded_valid _ _ _ Hr') as V'.
      destruct Hr as (m & e & r & sb & Hloc & Hg & ->).
      destruct Hr' as (m' & e' & r' & sb' & Hloc' & Hg' & ->).
      pose proof (round_mono _ _ _ _ _ _ _ _ _ _ Hloc Hg Hloc' Hg' Hle) as Hmono.
      destruct (rne_grid m e r sb Hg) as (H1 & H2 & H3).
      destruct (rne_grid m' e' r' sb' Hg') as (H1' & H2' & H3').
      destruct (pack_magnitude false _ _ H1' H2' H3') as [[E' Hbig']|(Hsmall' & F' & Vx')].
      * rewrite E'.
        destruct (pack_cases false (rne m r sb) e ltac:(lia))
          as [[_ ->]|[[_ ->]|(_ & _ & _ & p & e0 & ->)]]; reflexivity.
      * destruct (pack_magnitude false _ _ H1 H2 H3) as [[E Hbig]|(Hsmall & F & Vx)];
          [lra|].
        unfold SFleb.
        destruct (SFcompare_R _ _ V V' F F') as (c & -> & Hc).
        rewrite Vx, Vx' in Hc. simpl in Hc. destruct c; try reflexivity. lra.
Qed.

End MonotoneFacts.

(** * Numbers that are not negative *)

Section NonnegFacts.

Lemma nonneg_rounded_leb v X v' X' :
  rounded_nonneg_value v X -> rounded_nonneg_value v' X' -> (v <= v')%R ->
  SFleb X X' = true.
Proof.
  intros (s & Hr & Hs) (s' & Hr' & Hs') Hle.
  exact (rounded_leb _ _ _ _ _ _ Hr Hr' Hle Hs Hs').
Qed.

Lemma nonneg_spec x :
  nonneg x <->
  (exists s, Prim2SF x = S754_zero s) \/ Prim2SF x = S754_infinity false \/
  exists p e, Prim2SF x = S754_finite false p e.
Proof.
  unfold nonneg. rewrite FloatAxioms.leb_spec, Prim2SF_zero. unfold SFleb.
  destruct (Prim2SF x) as [s|[|]| |[|] p e]; simpl; split; intros H;
    try discriminate H; try reflexivity; eauto;
    destruct H as [[s' H]|[H|(p' & e' & H)]]; discriminate H.
Qed.

Lemma nonneg_cases x : nonneg x -> is_finite x = true \/ x = infinity.
Proof.
  rewrite nonneg_spec, is_finite_spec.
  intros [[s E]|[E|(p & e & E)]]; rewrite E; auto.
  right. apply Prim2SF_inj. rewrite E. reflexivity.
Qed.

Lemma nonneg_value x : nonneg x -> (0 <= B2R x)%R.
Proof.
  rewrite nonneg_spec. unfold B2R.
  intros [[s E]|[E|(p & e & E)]]; rewrite E; simpl; try lra.
  pose proof (F2R_pos p e). lra.
Qed.

(** A finite number that is not negative is the rounding of its value. *)
Lemma nonneg_rounded x :
  is_finite x = true -> nonneg x -> rounded_nonneg_value (B2R x) (Prim2SF x).
Proof.
  intros Fx. rewrite nonneg_spec. unfold B2R. pose proof (Prim2SF_valid x) as V.
  intros [[s E]|[E|(p & e & E)]]; rewrite E in *.
  - exists s. split; [apply zero_rounded|now right].
  - rewrite is_finite_spec, E in Fx. discriminate Fx.
  - exists false. split; [|now left]. simpl. now apply valid_rounded.
Qed.

(** What is rounded from a magnitude is not negative. *)
Lemma rounded_nonneg_float v x :
  rounded_nonneg_value v (Prim2SF x) -> nonneg x.
Proof.
  intros (s & Hr & Hs). apply nonneg_spec.
  destruct Hs as [-> | ->].
  - destruct (rounded_cases _ _ _ Hr) as [E|[E|E]]; eauto.
  - left. exists s. exact (rounded_zero _ _ Hr).
Qed.

Lemma leb_infinity x : nonneg x -> (x <=? infinity) = true.
Proof.
  rewrite nonneg_spec, FloatAxioms.leb_spec. unfold SFleb.
  change (Prim2SF infinity) with (S754_infinity false).
  intros [[s E]|[E|(p & e & E)]]; rewrite E; reflexivity.
Qed.

Lemma infinity_leb x : (infinity <=? x) = true -> x = infinity.
Proof.
  rewrite FloatAxioms.leb_spec. unfold SFleb.
  change (Prim2SF infinity) with (S754_infinity false).
  destruct (Prim2SF x) as [s|[|]| |s p e] eqn:E; simpl; try discriminate.
  intros _. apply Prim2SF_inj. rewrite E. reflexivity.
Qed.

Lemma nonneg_infinity : nonneg infinity.
Proof. reflexivity. Qed.

(** ** Sums, products and quotients *)

Lemma add_rounded x c :
  is_finite x = true -> nonneg x -> is_finite c = true -> nonneg c ->
  rounded_nonneg_value (B2R x + B2R c) (Prim2SF (x + c)).
Proof.
  intros Fx Hx Fc Hc.
  pose proof (nonneg_rounded x Fx Hx) as Rx. pose proof (nonneg_rounded c Fc Hc) as Rc.
  pose proof (nonneg_value x Hx) as Vx. pose proof (nonneg_value c Hc) as Vc.
  apply nonneg_spec in Hx, Hc. unfold B2R in *. rewrite add_spec. unfold SF64add.
  destruct Hx as [[sx Ex]|[Ex|(px & ex & Ex)]];
    [| rewrite is_finite_spec, Ex in Fx; discriminate Fx|];
    (destruct Hc as [[sc Ec]|[Ec|(pc & ec & Ec)]];
     [| rewrite is_finite_spec, Ec in Fc; discriminate Fc|]);
    rewrite Ex, Ec in *.
  - cbn [SF2R]. rewrite Rplus_0_r.
    destruct sx, sc; simpl; eexists; (split; [apply zero_rounded|now right]).
  - cbn [SFadd]. cbn [SF2R] in *. rewrite Rplus_0_l. exact Rc.
  - cbn [SFadd]. cbn [SF2R] in *. rewrite Rplus_0_r. exact Rx.
  - pose proof (F2R_pos px ex) as Px. pose proof (F2R_pos pc ec) as Pc.
    destruct (SFadd_finite false px ex false pc ec) as [[Hz _]|(Hnz & _ & s & Hs & Hr)].
    + simpl in Hz. lra.
    + simpl in Hs, Hr, Hnz. exists s. cbn [SF2R cond_Zopp] in *.
      assert (s = false) as ->.
      { destruct s; [|reflexivity]. destruct Hs as [Hs _]. specialize (Hs eq_refl). lra. }
      rewrite Rabs_pos_eq in Hr by lra. split; [exact Hr|now left].
Qed.

Lemma mul_rounded x c :
  is_finite x = true -> nonneg x -> is_finite c = true -> nonneg c ->
  rounded_nonneg_value (B2R x * B2R c) (Prim2SF (x * c)).
Proof.
  intros Fx Hx Fc Hc.
  destruct (finite_cases x Fx) as [(sx & Ex)|(sx & px & ex & Ex & Gx & _)];
    destruct (finite_cases c Fc) as [(sc & Ec)|(sc & pc & ec & Ec & Gc & _)];
    apply nonneg_spec in Hx, Hc; unfold B2R; rewrite mul_spec; unfold SF64mul;
    rewrite Ex, Ec in *; cbn [SF2R SFmul];
    rewrite ?Rmult_0_l, ?Rmult_0_r;
    try (eexists; split; [apply zero_rounded|now right]).
  assert (sx = false) as ->
    by (destruct Hx as [[s H]|[H|(p & e & H)]]; congruence).
  assert (sc = false) as ->
    by (destruct Hc as [[s H]|[H|(p & e & H)]]; congruence).
  exists false. split; [|now left]. exact (SFmul_finite false px ex false pc ec Gx Gc).
Qed.

Lemma div_rounded x c :
  is_finite x = true -> nonneg x -> is_finite c = true -> (0 <? c) = true ->
  rounded_nonneg_value (B2R x / B2R c) (Prim2SF (x / c)).
Proof.
  intros Fx Hx Fc Hc.
  apply ltb_R in Hc; auto. rewrite B2R_0 in Hc.
  destruct (finite_cases c Fc) as [(sc & Ec)|(sc & pc & ec & Ec & Gc & _)];
    [unfold B2R in Hc; rewrite Ec in Hc; simpl in Hc; lra|].
  assert (sc = false) as ->.
  { unfold B2R in Hc. rewrite Ec in Hc. unfold SF2R in Hc. rewrite F2R_cond_Zopp in Hc.
    pose proof (F2R_pos pc ec). destruct sc; [simpl in Hc; lra|reflexivity]. }
  destruct (finite_cases x Fx) as [(sx & Ex)|(sx & px & ex & Ex & Gx & _)];
    apply nonneg_spec in Hx; unfold B2R; rewrite div_spec; unfold SF64div;
    rewrite Ex, Ec in *; cbn [SF2R SFdiv cond_Zopp].
  - unfold Rdiv. rewrite Rmult_0_l. eexists. split; [apply zero_rounded|now right].
  - assert (sx = false) as ->
      by (destruct Hx as [[s H]|[H|(p & e & H)]]; congruence).
    exists false. split; [|now left]. exact (SFdiv_finite false px ex false pc ec).
Qed.

(** Sums with +Infinity. *)
Lemma add_infinity_l c : nonneg c -> infinity + c = infinity.
Proof.
  intros Hc. apply nonneg_spec in Hc. apply Prim2SF_inj. rewrite add_spec.
  unfold SF64add. change (Prim2SF infinity) with (S754_infinity false).
  destruct Hc as [[s E]|[E|(p & e & E)]]; rewrite E; reflexivity.
Qed.

Lemma add_infinity_r x : nonneg x -> x + infinity = infinity.
Proof.
  intros Hx. apply nonneg_spec in Hx. apply Prim2SF_inj. rewrite add_spec.
  unfold SF64add. change (Prim2SF infinity) with (S754_infinity false).
  destruct Hx as [[s E]|[E|(p & e & E)]]; rewrite E; reflexivity.
Qed.

Lemma positive_finite c :
  is_finite c = true -> (0 <? c) = true -> exists p e, Prim2SF c = S754_finite false p e.
Proof.
  intros Fc Hc. rewrite FloatAxioms.ltb_spec, Prim2SF_zero in Hc. unfold SFltb in Hc.
  rewrite is_finite_spec in Fc.
  destruct (Prim2SF c) as [s|s| |[|] p e]; try discriminate; eauto.
Qed.

Lemma positive_nonneg c : is_finite c = true -> (0 <? c) = true -> nonneg c.
Proof.
  intros Fc Hc. destruct (positive_finite c Fc Hc) as (p & e & E).
  apply nonneg_spec. eauto.
Qed.

Lemma mul_infinity c :
  is_finite c = true -> (0 <? c) = true -> infinity * c = infinity.
Proof.
  intros Fc Hc. destruct (positive_finite c Fc Hc) as (p & e & E).
  apply Prim2SF_inj. rewrite mul_spec. unfold SF64mul. rewrite E. reflexivity.
Qed.

Lemma div_infinity c :
  is_finite c = true -> (0 <? c) = true -> infinity / c = infinity.
Proof.
  intros Fc Hc. destruct (positive_finite c Fc Hc) as (p & e & E).
  apply Prim2SF_inj. rewrite div_spec. unfold SF64div. rewrite E. reflexivity.
Qed.

(** ** What stays zero or more *)

Lemma add_nonneg x y : nonneg x -> nonneg y -> nonneg (x + y).
Proof.
  intros Hx Hy.
  destruct (nonneg_cases x Hx) as [Fx| ->]; [|now rewrite add_infinity_l].
  destruct (nonneg_cases y Hy) as [Fy| ->]; [|now rewrite add_infinity_r].
  exact (rounded_nonneg_float _ _ (add_rounded x y Fx Hx Fy Hy)).
Qed.

Lemma mul_nonneg_finite x y :
  is_finite x = true -> nonneg x -> is_finite y = true -> nonneg y -> nonneg (x * y).
Proof.
  intros Fx Hx Fy Hy. exact (rounded_nonneg_float _ _ (mul_rounded x y Fx Hx Fy Hy)).
Qed.

Lemma mul_nonneg_positive x c :
  nonneg x -> is_finite c = true -> (0 <? c) = true -> nonneg (x * c).
Proof.
  intros Hx Fc Hc.
  destruct (nonneg_cases x Hx) as [Fx| ->]; [|now rewrite mul_infinity].
  apply mul_nonneg_finite; auto using positive_nonneg.
Qed.

Lemma div_nonneg_positive x c :
  nonneg x -> is_finite c = true -> (0 <? c) = true -> nonneg (x / c).
Proof.
  intros Hx Fc Hc.
  destruct (nonneg_cases x Hx) as [Fx| ->]; [|now rewrite div_infinity].
  exact (rounded_nonneg_float _ _ (div_rounded x c Fx Hx Fc Hc)).
Qed.

(** ** What keeps the order *)

Lemma leb_finite x y :
  nonneg x -> is_finite y = true -> (x <=? y) = true -> is_finite x = true.
Proof.
  intros Hx Fy H. destruct (nonneg_cases x Hx) as [Fx| ->]; [exact Fx|].
  apply infinity_leb in H. subst y. discriminate Fy.
Qed.

Lemma add_mono x y c :
  nonneg x -> nonneg y -> nonneg c -> (x <=? y) = true -> (x + c <=? y + c) = true.
Proof.
  intros Hx Hy Hc Hle.
  destruct (nonneg_cases c Hc) as [Fc| ->].
  - destruct (nonneg_cases y Hy) as [Fy| ->].
    + pose proof (leb_finite x y Hx Fy Hle) as Fx.
      rewrite FloatAxioms.leb_spec.
      apply (nonneg_rounded_leb _ _ _ _ (add_rounded x c Fx Hx Fc Hc)
               (add_rounded y c Fy Hy Fc Hc)).
      apply leb_R in Hle; auto. lra.
    + rewrite add_infinity_l by exact Hc. apply leb_infinity. now apply add_nonneg.
  - rewrite !add_infinity_r by assumption. reflexivity.
Qed.

Lemma mul_mono x y c :
  nonneg x -> nonneg y -> is_finite c = true -> (0 <? c) = true ->
  (x <=? y) = true -> (x * c <=? y * c) = true.
Proof.
  intros Hx Hy Fc Hc Hle. pose proof (positive_nonneg c Fc Hc) as Nc.
  destruct (nonneg_cases y Hy) as [Fy| ->].
  - pose proof (leb_finite x y Hx Fy Hle) as Fx.
    rewrite FloatAxioms.leb_spec.
    apply (nonneg_rounded_leb _ _ _ _ (mul_rounded x c Fx Hx Fc Nc)
             (mul_rounded y c Fy Hy Fc Nc)).
    apply leb_R in Hle; auto. pose proof (nonneg_value c Nc). nra.
  - rewrite mul_infinity by assumption. apply leb_infinity.
    now apply mul_nonneg_positive.
Qed.

Lemma div_mono x y c :
  nonneg x -> nonneg y -> is_finite c = true -> (0 <? c) = true ->
  (x <=? y) = true -> (x / c <=? y / c) = true.
Proof.
  intros Hx Hy Fc Hc Hle.
  destruct (nonneg_cases y Hy) as [Fy| ->].
  - pose proof (leb_finite x y Hx Fy Hle) as Fx.
    rewrite FloatAxioms.leb_spec.
    apply (nonneg_rounded_leb _ _ _ _ (div_rounded x c Fx Hx Fc Hc)
             (div_rounded y c Fy Hy Fc Hc)).
    apply leb_R in Hle; auto. apply ltb_R in Hc; auto. rewrite B2R_0 in Hc.
    unfold Rdiv. apply Rmult_le_compat_r; [|exact Hle].
    apply Rlt_le, Rinv_0_lt_compat. exact Hc.
  - rewrite div_infinity by assumption. apply leb_infinity.
    now apply div_nonneg_positive.
Qed.

(** A sum is not below its first term. *)
Lemma add_increases x c : nonneg x -> nonneg c -> (x <=? x + c) = true.
Proof.
  intros Hx Hc.
  destruct (nonneg_cases x Hx) as [Fx| ->]; [|now rewrite add_infinity_l].
  destruct (nonneg_cases c Hc) as [Fc| ->];
    [|rewrite add_infinity_r by exact Hx; now apply leb_infinity].
  rewrite FloatAxioms.leb_spec.
  apply (nonneg_rounded_leb _ _ _ _ (nonneg_rounded x Fx Hx) (add_rounded x c Fx Hx Fc Hc)).
  pose proof (nonneg_value c Hc). lra.
Qed.

(** ** Rounding of outputs *)

Lemma Math_round_infinity : Math_round infinity = infinity.
Proof. reflexivity. Qed.

Lemma Math_round_nonneg x : nonneg x -> nonneg (Math_round x).
Proof.
  intros Hx. destruct (nonneg_cases x Hx) as [Fx| ->]; [|exact Hx].
  destruct (Math_round_spec x Fx) as (Fr & z & Hz & Hlo & Hhi).
  pose proof (nonneg_value x Hx) as Vx.
  unfold nonneg. apply leb_R; auto. rewrite B2R_0, Hz.
  apply IZR_le. assert (H : (-1 < IZR z)%R) by lra. apply lt_IZR in H. lia.
Qed.

Lemma Math_round_mono x y :
  nonneg x -> nonneg y -> (x <=? y) = true -> (Math_round x <=? Math_round y) = true.
Proof.
  intros Hx Hy Hle.
  destruct (nonneg_cases y Hy) as [Fy| ->].
  - pose proof (leb_finite x y Hx Fy Hle) as Fx.
    destruct (Math_round_spec x Fx) as (Frx & zx & Hzx & Hlox & Hhix).
    destruct (Math_round_spec y Fy) as (Fry & zy & Hzy & Hloy & Hhiy).
    apply leb_R in Hle; auto. apply leb_R; auto. rewrite Hzx, Hzy.
    apply IZR_le. assert (H : (IZR zx < IZR zy + 1)%R) by lra.
    rewrite <- plus_IZR in H. apply lt_IZR in H. lia.
  - rewrite Math_round_infinity. apply leb_infinity. now apply Math_round_nonneg.
Qed.

Lemma round2_nonneg x : nonneg x -> nonneg (round2 x).
Proof.
  intros Hx. unfold round2.
  apply div_nonneg_positive; try reflexivity.
  apply Math_round_nonneg. apply mul_nonneg_positive; try reflexivity.
  apply add_nonneg; [exact Hx|reflexivity].
Qed.

Lemma round6_nonneg x : nonneg x -> nonneg (round6 x).
Proof.
  intros Hx. unfold round6.
  apply div_nonneg_positive; try reflexivity.
  apply Math_round_nonneg. apply mul_nonneg_positive; try reflexivity.
  apply add_nonneg; [exact Hx|reflexivity].
Qed.

Lemma round2_mono x y :
  nonneg x -> nonneg y -> (x <=? y) = true -> (round2 x <=? round2 y) = true.
Proof.
  intros Hx Hy Hle. unfold round2.
  assert (Ne : nonneg EPSILON) by reflexivity.
  apply div_mono; try reflexivity.
  - apply Math_round_nonneg, mul_nonneg_positive; try reflexivity. now apply add_nonneg.
  - apply Math_round_nonneg, mul_nonneg_positive; try reflexivity. now apply add_nonneg.
  - apply Math_round_mono.
    + apply mul_nonneg_positive; try reflexivity. now apply add_nonneg.
    + apply mul_nonneg_positive; try reflexivity. now apply add_nonneg.
    + apply mul_mono; try reflexivity; try (now apply add_nonneg).
      now apply add_mono.
Qed.

End NonnegFacts.

(** * The amounts of a result *)

Section OutputFacts.

Context {host : Host}.

Lemma mul_comm x y : x * y = y * x.
Proof.
  apply Prim2SF_inj. rewrite !mul_spec. unfold SF64mul.
  destruct (Prim2SF x) as [sx|sx| |sx mx ex], (Prim2SF y) as [sy|sy| |sy my ey];
    cbn [SFmul]; rewrite ?(xorb_comm sx sy); try reflexivity.
  now rewrite (Pos.mul_comm mx my), (Z.add_comm ex ey).
Qed.

(** ** Zeros *)

Lemma zero_spec x : is_zero x = true <-> exists s, Prim2SF x = S754_zero s.
Proof.
  split.
  - intros H. destruct (is_zero_cases x H) as [-> | ->]; eexists; reflexivity.
  - intros [s E]. unfold is_zero. rewrite FloatAxioms.eqb_spec, E. destruct s; reflexivity.
Qed.

Lemma zero_nonneg x : is_zero x = true -> nonneg x.
Proof. intros H. apply zero_spec in H. apply nonneg_spec. now left. Qed.

Lemma div_zero x c :
  is_zero x = true -> is_finite c = true -> (0 <? c) = true -> is_zero (x / c) = true.
Proof.
  intros Hx Fc Hc. apply zero_spec in Hx as [s E].
  destruct (positive_finite c Fc Hc) as (p & e & Ec).
  apply zero_spec. rewrite div_spec. unfold SF64div. rewrite E, Ec. eexists. reflexivity.
Qed.

Lemma mul_zero_l x c :
  is_zero x = true -> is_finite c = true -> is_zero (x * c) = true.
Proof.
  intros Hx Fc. apply zero_spec in Hx as [s E]. apply zero_spec.
  rewrite mul_spec. unfold SF64mul. rewrite E.
  destruct (finite_cases c Fc) as [(sc & ->)|(sc & p & e & -> & _)]; eexists; reflexivity.
Qed.

Lemma mul_zero_r c x :
  is_finite c = true -> is_zero x = true -> is_zero (c * x) = true.
Proof. intros Fc Hx. rewrite mul_comm. now apply mul_zero_l. Qed.

Lemma add_zero x y : is_zero x = true -> is_zero y = true -> is_zero (x + y) = true.
Proof.
  intros Hx Hy. apply zero_spec in Hx as [sx Ex]. apply zero_spec in Hy as [sy Ey].
  apply zero_spec. rewrite add_spec. unfold SF64add. rewrite Ex, Ey.
  destruct sx, sy; eexists; reflexivity.
Qed.

Lemma round6_zero x : is_zero x = true -> round6 x = 0.
Proof.
  intros H. destruct (is_zero_cases x H) as [-> | ->]; vm_compute; reflexivity.
Qed.

Lemma accumulated_zero c k : is_zero c = true -> is_zero (accumulated c k) = true.
Proof.
  intros Hc. induction k as [|k IH]; [reflexivity|].
  change (accumulated c (S k)) with (accumulated c k + c). now apply add_zero.
Qed.

(** Adding to zero changes nothing that [round2] sees. *)
Lemma round2_add_zero c : nonneg c -> round2 (0 + c) = round2 c.
Proof.
  intros Hc. apply nonneg_spec in Hc.
  destruct Hc as [[s E]|[E|(p & e & E)]].
  - rewrite (round2_zero c) by (apply zero_spec; eauto).
    apply round2_zero, add_zero; [reflexivity|apply zero_spec; eauto].
  - f_equal. apply Prim2SF_inj. rewrite add_spec, E. reflexivity.
  - f_equal. apply Prim2SF_inj. rewrite add_spec, E. reflexivity.
Qed.

(** ** What validation gives about the raw amounts *)

Lemma accumulated_nonneg c k : nonneg c -> nonneg (accumulated c k).
Proof.
  intros Hc. induction k as [|k IH]; [reflexivity|].
  change (accumulated c (S k)) with (accumulated c k + c). now apply add_nonneg.
Qed.

Lemma accumulated_increases c k :
  nonneg c -> (accumulated c k <=? accumulated c (S k)) = true.
Proof.
  intros Hc. change (accumulated c (S k)) with (accumulated c k + c).
  apply add_increases; [now apply accumulated_nonneg|exact Hc].
Qed.

Lemma valid_raw_amounts input :
  validateBondInput input = [] ->
  nonneg (annualCouponRatePct input / 100) /\
  nonneg (annualCouponAmountOf input) /\
  nonneg (couponPaymentOf input) /\
  nonneg (annualCouponAmountOf input / marketPrice input * 100) /\
  nonneg (faceValue input).
Proof.
  intros Hvalid.
  apply valid_input_numbers in Hvalid
    as (Fface & Hface & Frate & Hrate & Fprice & Hprice & _ & _ & Hfrequency).
  assert (Nrate : nonneg (annualCouponRatePct input / 100))
    by (apply div_nonneg_positive; auto; reflexivity).
  assert (Nannual : nonneg (annualCouponAmountOf input)).
  { unfold annualCouponAmountOf. rewrite mul_comm. now apply mul_nonneg_positive. }
  repeat split; try assumption.
  - unfold couponPaymentOf.
    destruct Hfrequency as [-> | ->]; apply div_nonneg_positive; auto; reflexivity.
  - apply mul_nonneg_positive; try reflexivity. now apply div_nonneg_positive.
  - now apply positive_nonneg.
Qed.

(** The period count of a result for a validated input is a positive
    number. *)
Lemma valid_period_count input n :
  validateBondInput input = [] ->
  (totalPeriodsOf input <=? 0) = false ->
  array_length (totalPeriodsOf input) = Some n ->
  is_finite (totalPeriodsOf input) = true /\ (0 <? totalPeriodsOf input) = true.
Proof.
  intros Hvalid Hleb Hlen.
  apply valid_input_numbers in Hvalid as (_ & _ & _ & _ & _ & _ & Fy & Hy & Hf).
  apply ltb_R in Hy; auto. rewrite B2R_0 in Hy.
  unfold totalPeriodsOf in *.
  assert (Hk : exists k, (frequencyOf input = 1 /\ k = 1%Z) \/
                         (frequencyOf input = 2 /\ k = 2%Z))
    by (destruct Hf as [-> | ->]; eexists; eauto).
  destruct Hk as [k Hk].
  destruct (returned_period_count _ _ k n Fy Hy Hk Hleb Hlen) as [[Hn _] _].
  destruct (array_length_rounded _ n Hlen ltac:(lia)) as (Fr & Vr & _).
  split; [exact Fr|]. apply ltb_R; auto. rewrite B2R_0, Vr. apply IZR_lt. lia.
Qed.

(** ** Amounts below zero *)

Lemma nonpositive_spec x :
  (x <=? 0) = true <->
  (exists s, Prim2SF x = S754_zero s) \/ Prim2SF x = S754_infinity true \/
  exists p e, Prim2SF x = S754_finite true p e.
Proof.
  rewrite FloatAxioms.leb_spec, Prim2SF_zero. unfold SFleb.
  destruct (Prim2SF x) as [s|[|]| |[|] p e]; simpl; split; intros H;
    try discriminate H; try reflexivity; eauto;
    destruct H as [[s' H]|[H|(p' & e' & H)]]; discriminate H.
Qed.

Lemma mul_nonpositive x c :
  (x <=? 0) = true -> is_finite c = true -> (0 <? c) = true -> (x * c <=? 0) = true.
Proof.
  intros Hx Fc Hc. destruct (positive_finite c Fc Hc) as (pc & ec & Ec).
  pose proof (Prim2SF_valid c) as Vc. rewrite Ec in Vc. apply valid_on_grid in Vc as [Gc _].
  pose proof (Prim2SF_valid x) as Vx.
  apply nonpositive_spec in Hx. apply nonpositive_spec.
  rewrite mul_spec. unfold SF64mul. rewrite Ec.
  destruct Hx as [[s E]|[E|(p & e & E)]]; rewrite E in *; cbn [SFmul]; eauto.
  apply valid_on_grid in Vx as [Gx _].
  destruct (rounded_cases _ _ _ (SFmul_finite true p e false pc ec Gx Gc))
    as [H|[H|H]]; eauto.
Qed.

Lemma div_nonpositive x c :
  (x <=? 0) = true -> is_finite c = true -> (0 <? c) = true -> (x / c <=? 0) = true.
Proof.
  intros Hx Fc Hc. destruct (positive_finite c Fc Hc) as (pc & ec & Ec).
  apply nonpositive_spec in Hx. apply nonpositive_spec.
  rewrite div_spec. unfold SF64div. rewrite Ec.
  destruct Hx as [[s E]|[E|(p & e & E)]]; rewrite E in *; cbn [SFdiv]; eauto.
  destruct (rounded_cases _ _ _ (SFdiv_finite true p e false pc ec)) as [H|[H|H]]; eauto.
Qed.

Lemma Math_round_nonpositive_kept x : (x <=? 0) = true -> (Math_round x <=? 0) = true.
Proof.
  intros Hx. destruct (is_finite x) eqn:Fx.
  - apply Math_round_nonpositive; auto. apply leb_R in Hx; auto. rewrite B2R_0 in Hx. lra.
  - apply nonpositive_spec in Hx. rewrite is_finite_spec in Fx.
    destruct Hx as [[s E]|[E|(p & e & E)]]; rewrite E in Fx; try discriminate Fx.
    unfold Math_round. rewrite E. apply nonpositive_spec. eauto.
Qed.

(** [round2] takes a negative number to zero or less. *)
Lemma round2_negative x : (x <? 0) = true -> (round2 x <=? 0) = true.
Proof.
  intros Hx. destruct (is_finite x) eqn:Fx.
  - apply ltb_R in Hx; auto. rewrite B2R_0 in Hx.
    unfold round2.
    destruct (add_between x EPSILON x EPSILON) as [Fa Va]; auto.
    { assert (0 < B2R EPSILON)%R by (apply (ltb_R 0 EPSILON); reflexivity). lra. }
    destruct (Rle_or_lt (B2R (x + EPSILON)) 0) as [Hneg|Hpos].
    + apply div_nonpositive; try reflexivity.
      apply Math_round_nonpositive_kept. apply mul_nonpositive; try reflexivity.
      apply leb_R; auto.
    + assert (Na : nonneg (x + EPSILON)) by (apply leb_R; auto; rewrite B2R_0; lra).
      assert (Hle : (x + EPSILON <=? EPSILON) = true) by (apply leb_R; auto; lra).
      assert (Ne : nonneg EPSILON) by reflexivity.
      change 0 with (Math_round (EPSILON * 100) / 100).
      apply div_mono; try reflexivity.
      * apply Math_round_nonneg, mul_nonneg_positive; auto; reflexivity.
      * apply Math_round_mono.
        -- apply mul_nonneg_positive; auto; reflexivity.
        -- reflexivity.
        -- apply mul_mono; auto; reflexivity.
  - assert (E : x = neg_infinity).
    { apply Prim2SF_inj. rewrite FloatAxioms.ltb_spec, Prim2SF_zero in Hx.
      rewrite is_finite_spec in Fx. unfold SFltb in Hx.
      destruct (Prim2SF x) as [s|[|]| |s p e]; try discriminate; reflexivity. }
    subst x. reflexivity.
Qed.

Lemma positive_is_nonneg x : (0 <? x) = true -> nonneg x.
Proof.
  intros H. apply nonneg_spec. rewrite FloatAxioms.ltb_spec, Prim2SF_zero in H.
  unfold SFltb in H.
  destruct (Prim2SF x) as [s|[|]| |[|] p e]; try discriminate; eauto.
Qed.

(** A difference of finite numbers that is neither above nor below zero is
    a zero. *)
Lemma sub_neither x y :
  is_finite x = true -> is_finite y = true ->
  (0 <? x - y) = false -> (x - y <? 0) = false -> is_zero (x - y) = true.
Proof.
  intros Fx Fy Hpos Hneg. apply zero_spec.
  destruct (sub_finite x y Fx Fy) as [[_ H]|(_ & s & _ & [E|(p & e & E)])];
    [exact H| |];
    rewrite FloatAxioms.ltb_spec, Prim2SF_zero, E in Hpos, Hneg;
    destruct s; discriminate.
Qed.

End OutputFacts.

(** * How far a rounding moves a number *)

Section AccuracyFacts.

#[local] Open Scope Z_scope.

(** Rounding to nearest moves a number by half a grid step at most. *)
Lemma located_near m e r sb v :
  located m e r sb v -> (Rabs (F2R (rne m r sb) e - v) <= bpow e / 2)%R.
Proof.
  intros H. pose proof (bpow_gt_0 e) as Hpos.
  assert (Hrne : rne m r sb = m \/ rne m r sb = m + 1)
    by (pose proof (rne_range m r sb); lia).
  unfold located in H. destruct r, sb.
  - change (rne m true true) with (m + 1). rewrite F2R_succ.
    apply Rabs_le. lra.
  - destruct Hrne as [-> | ->]; rewrite ?F2R_succ; apply Rabs_le; lra.
  - change (rne m false true) with m. apply Rabs_le. lra.
  - change (rne m false false) with m. apply Rabs_le. lra.
Qed.

Lemma bpow_half e : (bpow e / 2)%R = bpow (e - 1).
Proof.
  replace e with (e - 1 + 1) at 1 by lia. rewrite bpow_succ. field.
Qed.

(** The error of a rounding that does not overflow: a relative error of
    2^-53, or half the smallest step. *)
Lemma rounded_error s v x :
  rounded s v x -> SF_finite x = true ->
  exists w, SF2R x = signed s w /\
    (Rabs (w - v) <= v * bpow (-53) + bpow (-1075))%R.
Proof.
  intros (m & e & r & sb & Hloc & Hg & ->) Fx.
  destruct (rne_grid m e r sb Hg) as (H1 & H2 & H3).
  exists (F2R (rne m r sb) e). split.
  - destruct (pack_cases s (rne m r sb) e ltac:(lia))
      as [[H0 E]|[[_ E]|(_ & _ & Hv & _)]].
    + rewrite E, H0, F2R_0. destruct s; simpl; lra.
    + rewrite E in Fx. discriminate.
    + exact Hv.
  - pose proof (located_near _ _ _ _ _ Hloc) as Hn.
    pose proof (located_range _ _ _ _ _ Hloc) as [Hlo _].
    pose proof (bpow_gt_0 (-53)) as Hu. pose proof (bpow_gt_0 (-1075)) as Heta.
    eapply Rle_trans; [exact Hn|]. rewrite bpow_half.
    destruct Hg as ((Hm0 & _) & He & [-> |Hm]).
    + apply (F2R_le _ _ (-1074)) in Hm0. rewrite F2R_0 in Hm0.
      change (-1074 - 1) with (-1075).
      assert (0 <= v * bpow (-53))%R by (apply Rmult_le_pos; lra). lra.
    + apply (F2R_le _ _ e) in Hm. rewrite F2R_bpow in Hm by lia.
      assert (Hv : (bpow (e + 52) <= v)%R) by lra.
      apply (Rmult_le_compat_r (bpow (-53))) in Hv; [|lra].
      rewrite <- bpow_plus in Hv. replace (e + 52 + -53) with (e - 1) in Hv by lia.
      lra.
Qed.

Lemma error_nonneg v : (0 <= Rabs v * bpow (-53) + bpow (-1075))%R.
Proof.
  pose proof (bpow_gt_0 (-53)). pose proof (bpow_gt_0 (-1075)).
  pose proof (Rabs_pos v). assert (0 <= Rabs v * bpow (-53))%R by (apply Rmult_le_pos; lra).
  lra.
Qed.

Lemma signed_difference s a b :
  Rabs (signed s a - signed s b) = Rabs (a - b).
Proof.
  destruct s; simpl; [|reflexivity].
  replace (- a - - b)%R with (- (a - b))%R by ring. apply Rabs_Ropp.
Qed.

(** The error of a sum. *)
Lemma add_error x y :
  is_finite x = true -> is_finite y = true -> is_finite (x + y)%float = true ->
  (Rabs (B2R (x + y)%float - (B2R x + B2R y))
   <= Rabs (B2R x + B2R y) * bpow (-53) + bpow (-1075))%R.
Proof.
  intros Fx Fy Fs. pose proof (error_nonneg (B2R x + B2R y)) as Hpos.
  rewrite is_finite_spec in *. unfold B2R in *. rewrite add_spec in *.
  unfold SF64add in *.
  destruct (Prim2SF x) as [sx|sx| |sx mx ex] eqn:Ex; try discriminate Fx;
  destruct (Prim2SF y) as [sy|sy| |sy my ey] eqn:Ey; try discriminate Fy.
  - destruct sx, sy; cbn [SF2R SFadd SF_finite Bool.eqb] in *;
      (replace (_ - _)%R with 0%R by ring); rewrite Rabs_R0; exact Hpos.
  - cbn [SF2R SFadd SF_finite] in *.
    replace (_ - _)%R with 0%R by ring. rewrite Rabs_R0. exact Hpos.
  - cbn [SF2R SFadd SF_finite] in *.
    replace (_ - _)%R with 0%R by ring. rewrite Rabs_R0. exact Hpos.
  - destruct (SFadd_finite sx mx ex sy my ey) as [[Hv E]|(Hv & _ & s & Hs & Hr)].
    + rewrite E. change (SF2R (S754_zero false)) with 0%R.
      cbv zeta in Hv. rewrite Hv in *. rewrite Rminus_diag, Rabs_R0.
      rewrite Rabs_R0 in Hpos. exact Hpos.
    + destruct (rounded_error _ _ _ Hr Fs) as (w & Ew & Hw).
      rewrite Ew. rewrite <- (signed_abs _ s Hs) at 1.
      rewrite signed_difference. exact Hw.
Qed.

(** The error of a product. *)
Lemma mul_error x y :
  is_finite x = true -> is_finite y = true -> is_finite (x * y)%float = true ->
  (Rabs (B2R (x * y)%float - B2R x * B2R y)
   <= Rabs (B2R x * B2R y) * bpow (-53) + bpow (-1075))%R.
Proof.
  intros Fx Fy Fp. pose proof (error_nonneg (B2R x * B2R y)) as Hpos.
  destruct (finite_cases x Fx) as [(sx & Ex)|(sx & mx & ex & Ex & Gx & Hx)];
    destruct (finite_cases y Fy) as [(sy & Ey)|(sy & my & ey & Ey & Gy & Hy)];
    rewrite is_finite_spec in *; unfold B2R in *; rewrite mul_spec in *;
    unfold SF64mul in *; rewrite Ex, Ey in *.
  - cbn [SF2R SFmul SF_finite] in *.
    replace (_ - _)%R with 0%R by ring. rewrite Rabs_R0. exact Hpos.
  - cbn [SF2R SFmul SF_finite] in *.
    replace (_ - _)%R with 0%R by ring. rewrite Rabs_R0. exact Hpos.
  - cbn [SF2R SFmul SF_finite] in *.
    replace (_ - _)%R with 0%R by ring. rewrite Rabs_R0. exact Hpos.
  - pose proof (SFmul_finite sx mx ex sy my ey Gx Gy) as Hr.
    destruct (rounded_error _ _ _ Hr Fp) as (w & Ew & Hw).
    rewrite Ew. unfold SF2R. rewrite !F2R_cond_Zopp.
    set (a := F2R (Zpos mx) ex) in *. set (b := F2R (Zpos my) ey) in *.
    replace (signed sx a * signed sy b)%R with (signed (xorb sx sy) (a * b))
      by (destruct sx, sy; simpl; ring).
    rewrite signed_difference.
    replace (Rabs (signed (xorb sx sy) (a * b))) with (a * b)%R; [exact Hw|].
    pose proof (F2R_pos mx ex). pose proof (F2R_pos my ey).
    assert (0 < a * b)%R by (apply Rmult_lt_0_compat; assumption).
    destruct (xorb sx sy); simpl; [rewrite Rabs_Ropp|]; rewrite Rabs_pos_eq; lra.
Qed.

(** The error of a quotient. *)
Lemma div_error x y :
  is_finite x = true -> is_finite y = true -> B2R y <> 0%R ->
  is_finite (x / y)%float = true ->
  (Rabs (B2R (x / y)%float - B2R x / B2R y)
   <= Rabs (B2R x / B2R y) * bpow (-53) + bpow (-1075))%R.
Proof.
  intros Fx Fy Hy Fq. pose proof (error_nonneg (B2R x / B2R y)) as Hpos.
  rewrite is_finite_spec in *. unfold B2R in *. rewrite div_spec in *.
  unfold SF64div in *.
  destruct (Prim2SF y) as [sy|sy| |sy my ey] eqn:Ey; try discriminate Fy;
    [simpl in Hy; lra|].
  destruct (Prim2SF x) as [sx|sx| |sx mx ex] eqn:Ex; try discriminate Fx.
  - cbn [SF2R SFdiv SF_finite] in *. unfold Rdiv in *. rewrite Rmult_0_l in *.
    rewrite Rminus_diag, Rabs_R0. rewrite Rabs_R0 in Hpos. exact Hpos.
  - pose proof (SFdiv_finite sx mx ex sy my ey) as Hr.
    destruct (rounded_error _ _ _ Hr Fq) as (w & Ew & Hw).
    rewrite Ew. unfold SF2R. rewrite !F2R_cond_Zopp.
    set (a := F2R (Zpos mx) ex) in *. set (b := F2R (Zpos my) ey) in *.
    pose proof (F2R_pos mx ex : (0 < a)%R). pose proof (F2R_pos my ey : (0 < b)%R).
    rewrite <- (signed_xorb sx sy a b) by assumption.
    rewrite signed_difference.
    replace (Rabs (signed (xorb sx sy) (a / b))) with (a / b)%R; [exact Hw|].
    assert (0 < a / b)%R by (apply Rdiv_lt_0_compat; assumption).
    destruct (xorb sx sy); simpl; [rewrite Rabs_Ropp|]; rewrite Rabs_pos_eq; lra.
Qed.

(** ** Rounding to a number of decimals *)

Lemma bpow_minus_53 : bpow (-53) = (/ 9007199254740992)%R.
Proof.
  pose proof (bpow_inverse 53 ltac:(lia)) as H.
  change (bpow (-53) * 9007199254740992 = 1)%R in H.
  apply (Rmult_eq_reg_r 9007199254740992); [|lra]. rewrite H. field.
Qed.

Lemma B2R_EPSILON : B2R EPSILON = bpow (-52).
Proof.
  unfold B2R, EPSILON.
  change (Prim2SF 0x1p-52) with (S754_finite false (Z.to_pos (2 ^ 52)) (-104)).
  unfold SF2R, cond_Zopp. change (Zpos (Z.to_pos (2 ^ 52))) with (2 ^ 52)%Z.
  rewrite F2R_bpow by lia. reflexivity.
Qed.

Lemma B2R_power s e :
  -1074 <= e <= 971 ->
  SF2R (S754_finite s (Z.to_pos (2 ^ 52)) e) = signed s (bpow (e + 52)).
Proof.
  intros He. unfold SF2R. rewrite F2R_cond_Zopp.
  change (Zpos (Z.to_pos (2 ^ 52))) with (2 ^ 52)%Z.
  rewrite F2R_bpow by lia. reflexivity.
Qed.

Lemma Rabs_within x y : (Rabs x <= y)%R -> (- y <= x <= y)%R.
Proof. unfold Rabs. destruct (Rcase_abs x); lra. Qed.

Lemma product_within A K a k :
  (- a <= A <= a)%R -> (0 <= K <= k)%R -> (- (a * k) <= A * K <= a * k)%R.
Proof. intros HA HK. nra. Qed.

Lemma quotient_within C K c :
  (- c <= C <= c)%R -> (1 <= K)%R -> (- c <= C / K <= c)%R.
Proof.
  intros HC HK.
  assert (Hi : (0 < / K <= 1)%R).
  { split; [apply Rinv_0_lt_compat; lra|].
    rewrite <- Rinv_1. apply Rinv_le_contravar; lra. }
  unfold Rdiv. nra.
Qed.

Lemma Rabs_quotient a K : (0 < K)%R -> Rabs (a / K) = (Rabs a / K)%R.
Proof.
  intros HK. unfold Rdiv. rewrite Rabs_mult. f_equal.
  apply Rabs_pos_eq. left. now apply Rinv_0_lt_compat.
Qed.

(** [Math.round((x + EPSILON) * k) / k] is within half a unit of [1/k] of
    [x], up to the errors of the four roundings. *)
Lemma scaled_accuracy k x :
  is_finite k = true -> (1 <= B2R k <= bpow 20)%R ->
  is_finite x = true -> (Rabs (B2R x) <= bpow 1000)%R ->
  is_finite (Math_round ((x + EPSILON) * k) / k)%float = true /\
  (Rabs (B2R (Math_round ((x + EPSILON) * k) / k)%float - B2R x)
   <= / (2 * B2R k) + (Rabs (B2R x) + 1) * bpow (-50))%R.
Proof.
  intros Fk [Hk1 Hk2] Fx Hx.
  (* the constants *)
  assert (P1 : (1 <= bpow 1000)%R) by (apply (bpow_le 0 1000); lia).
  assert (P2 : bpow 1001 = (2 * bpow 1000)%R) by (apply (bpow_succ 1000)).
  assert (P3 : bpow 1021 = (bpow 1001 * bpow 20)%R) by (apply (bpow_plus 1001 20)).
  assert (P4 : bpow 1022 = (2 * bpow 1021)%R) by (apply (bpow_succ 1021)).
  assert (P5 : (1 <= bpow 1021)%R) by (apply (bpow_le 0 1021); lia).
  assert (U1 : bpow (-52) = (2 * bpow (-53))%R) by (apply (bpow_succ (-53))).
  assert (U2 : bpow (-51) = (2 * bpow (-52))%R) by (apply (bpow_succ (-52))).
  assert (U3 : bpow (-50) = (2 * bpow (-51))%R) by (apply (bpow_succ (-51))).
  assert (U4 : (bpow (-1075) <= bpow (-53))%R) by (apply bpow_le; lia).
  pose proof (bpow_gt_0 (-1075)) as U5.
  pose proof bpow_minus_53 as U.
  assert (C1 : B2R (-0x1p1001) = (- bpow 1001)%R) by (apply (B2R_power true 949); lia).
  assert (C2 : B2R 0x1p1001 = bpow 1001) by (apply (B2R_power false 949); lia).
  assert (C3 : B2R (-0x1p1021) = (- bpow 1021)%R) by (apply (B2R_power true 969); lia).
  assert (C4 : B2R 0x1p1021 = bpow 1021) by (apply (B2R_power false 969); lia).
  assert (C5 : B2R (-0x1p1022) = (- bpow 1022)%R) by (apply (B2R_power true 970); lia).
  assert (C6 : B2R 0x1p1022 = bpow 1022) by (apply (B2R_power false 970); lia).
  pose proof B2R_EPSILON as He.
  pose proof (Rabs_within _ _ Hx) as Hx'.
  (* the sum *)
  assert (Ha : (B2R (-0x1p1001) <= B2R x + B2R EPSILON <= B2R 0x1p1001)%R)
    by (rewrite C1, C2, He; lra).
  destruct (add_between x EPSILON (-0x1p1001) 0x1p1001 Fx eq_refl eq_refl eq_refl Ha) as [Fa Ba].
  pose proof (add_error x EPSILON Fx eq_refl Fa) as Ea.
  rewrite C1, C2 in Ba. clear Ha.
  (* the product *)
  assert (Hb : (B2R (-0x1p1021) <= B2R (x + EPSILON) * B2R k <= B2R 0x1p1021)%R)
    by (rewrite C3, C4, P3; apply product_within; lra).
  destruct (mul_between (x + EPSILON) k (-0x1p1021) 0x1p1021 Fa Fk eq_refl eq_refl Hb) as [Fb Bb].
  pose proof (mul_error (x + EPSILON) k Fa Fk Fb) as Eb.
  rewrite C3, C4 in Bb. clear Hb.
  (* the integer *)
  destruct (Math_round_spec _ Fb) as (Fc & z & Ec & Hz).
  (* the quotient *)
  assert (Hk0 : B2R k <> 0%R) by lra.
  assert (Hd : (B2R (-0x1p1022)
                <= B2R (Math_round ((x + EPSILON) * k)%float) / B2R k
                <= B2R 0x1p1022)%R)
    by (rewrite C5, C6; apply quotient_within; [rewrite Ec; lra|lra]).
  destruct (div_between _ k (-0x1p1022) 0x1p1022 Fc Fk Hk0 eq_refl eq_refl Hd) as [Fd Bd].
  clear Hd.
  pose proof (div_error _ k Fc Fk Hk0 Fd) as Ed.
  split; [exact Fd|].
  (* the four errors, in real numbers *)
  clear Hk0 Ba Bb Bd. revert Ea Eb Ec Hz Ed.
  generalize (B2R (Math_round ((x + EPSILON) * k) / k)%float). intros D.
  generalize (B2R (Math_round ((x + EPSILON) * k)%float)). intros C.
  generalize (B2R ((x + EPSILON) * k)%float). intros B.
  generalize (B2R (x + EPSILON)%float). intros A.
  rewrite He. generalize dependent (B2R x). intros X Hx Hx'.
  generalize dependent (B2R k). intros K HK1 HK2.
  intros Ea Eb Ec Hz Ed. clear C1 C2 C3 C4 C5 C6 He.
  assert (HK : (0 < K)%R) by lra.
  assert (Hi : (0 < / K <= 1)%R).
  { split; [apply Rinv_0_lt_compat; lra|].
    rewrite <- Rinv_1. apply Rinv_le_contravar; lra. }
  set (h := (/ (2 * K))%R).
  assert (Hh : h = (/ K / 2)%R) by (unfold h; field; lra).
  (* the product and the integer, divided by the scale *)
  assert (Eb' : (Rabs (B / K - A) <= Rabs A * bpow (-53) + bpow (-1075))%R).
  { replace (B / K - A)%R with ((B - A * K) / K)%R by (field; lra).
    rewrite Rabs_quotient by exact HK.
    apply (Rmult_le_reg_r K); [exact HK|].
    replace (Rabs (B - A * K) / K * K)%R with (Rabs (B - A * K)) by (field; lra).
    eapply Rle_trans; [exact Eb|].
    rewrite Rabs_mult, (Rabs_pos_eq K) by lra.
    pose proof (Rabs_pos A). nra. }
  assert (Ec' : (Rabs (C / K - B / K) <= h)%R).
  { replace (C / K - B / K)%R with ((C - B) / K)%R by (field; lra).
    rewrite Rabs_quotient by exact HK.
    assert (Rabs (C - B) <= 1 / 2)%R by (apply Rabs_le; rewrite Ec; lra).
    rewrite Hh. unfold Rdiv. nra. }
  clear Eb Ec Hz.
  revert Ed Eb' Ec'. generalize (C / K)%R (B / K)%R. intros c' b' Ed Eb' Ec'.
  assert (Hh' : (0 < h <= 1 / 2)%R) by (rewrite Hh; lra).
  clearbody h. clear Hh Hi HK HK1 HK2 K.
  (* absolute values *)
  pose proof (Rabs_pos X) as X0. pose proof (Rabs_triang X (bpow (-52))) as S1.
  rewrite (Rabs_pos_eq (bpow (-52))) in S1 by (pose proof (bpow_gt_0 (-52)); lra).
  apply Rabs_within in Ea.
  assert (A1 : (Rabs A <= Rabs X + bpow (-52)
                          + (Rabs X + bpow (-52)) * bpow (-53) + bpow (-1075))%R).
  { apply Rabs_le. pose proof (Rabs_within _ _ S1). rewrite U in *. lra. }
  apply Rabs_within in Eb'. apply Rabs_within in Ec'.
  assert (A2 : (Rabs c' <= Rabs A + Rabs A * bpow (-53) + bpow (-1075) + h)%R).
  { apply Rabs_le. pose proof (Rabs_within _ _ (Rle_refl (Rabs A))).
    rewrite U in *. lra. }
  apply Rabs_within in Ed. pose proof (Rabs_pos A). pose proof (Rabs_pos c').
  apply Rabs_le. rewrite U3, U2, U1 in *. rewrite U in *. lra.
Qed.

End AccuracyFacts.

(** ** Bounds given by the comparisons of the code *)

Section BoundFacts.

Lemma leb_nonneg x y : nonneg x -> (x <=? y) = true -> nonneg y.
Proof.
  intros Hx H. apply nonneg_spec. apply nonneg_spec in Hx.
  rewrite FloatAxioms.leb_spec in H. unfold SFleb, SFcompare in H.
  destruct Hx as [[s E]|[E|(p & e & E)]]; rewrite E in H;
    destruct (Prim2SF y) as [sy|[|]| |[|] py ey]; try discriminate H; eauto.
Qed.

(** A number whose absolute value is at most a finite number is finite, and
    its value is within that bound. *)
Lemma abs_leb_R x c :
  is_finite c = true -> (abs x <=? c) = true ->
  is_finite x = true /\ (Rabs (B2R x) <= B2R c)%R.
Proof.
  intros Fc H.
  assert (Fx : is_finite x = true).
  { rewrite is_finite_spec in *. rewrite FloatAxioms.leb_spec, abs_spec in H.
    unfold SFleb, SFcompare in H.
    destruct (Prim2SF x) as [s|s| |s p e]; try reflexivity; simpl in H;
      destruct (Prim2SF c) as [sc|sc| |[|] pc ec]; discriminate. }
  split; [exact Fx|].
  assert (Fa : is_finite (abs x) = true).
  { rewrite is_finite_spec in *. rewrite abs_spec.
    destruct (Prim2SF x); try discriminate Fx; reflexivity. }
  apply leb_R in H; auto.
  replace (Rabs (B2R x)) with (B2R (abs x)); [exact H|].
  unfold B2R. rewrite abs_spec.
  destruct (Prim2SF x) as [s|s| |s p e]; simpl; try (now rewrite Rabs_R0).
  rewrite F2R_cond_Zopp. pose proof (F2R_pos p e).
  destruct s; simpl; [rewrite Rabs_Ropp|]; rewrite Rabs_pos_eq; lra.
Qed.

Lemma B2R_100 : B2R 100 = 100%R.
Proof. apply (of_Z_exact 100%Z). vm_compute. discriminate. Qed.

Lemma B2R_1000000 : B2R 1000000 = 1000000%R.
Proof. apply (of_Z_exact 1000000%Z). vm_compute. discriminate. Qed.

Lemma bpow_20 : bpow 20 = 1048576%R.
Proof. apply (bpow_IZR 20%Z). lia. Qed.

Lemma B2R_1e300 : (B2R 1e300 <= bpow 1000)%R.
Proof.
  assert (E : B2R 0x1p1000 = bpow 1000) by (apply (B2R_power false 948%Z); lia).
  rewrite <- E.
  apply (leb_R 1e300 0x1p1000); reflexivity.
Qed.

End BoundFacts.

(** * More on the solver: where its result lies *)

Section SolverRange.

Context {host : Host}.
Variables marketPrice couponPayment faceValue periods : number.

Lemma newton_range n :
  forall x r,
    newton marketPrice couponPayment faceValue periods n x = Some (Converged r) ->
    r = x \/ within_newton_bounds r.
Proof.
  induction n as [|n IH]; intros x r H; cbn [newton] in H; [discriminate H|].
  apply and_then_some in H as (fx & _ & H).
  destruct (abs fx <? 1e-10); [injection H as <-; now left|].
  apply and_then_some in H as (dfx & _ & H).
  destruct (negb (isFinite dfx) || _); [discriminate H|].
  cbn zeta in H. set (next := x - fx / dfx) in H.
  destruct (isFinite next) eqn:Fnext; cbn [negb orb] in H; [|discriminate H].
  destruct (next <=? -0.999999) eqn:Hlow; [discriminate H|].
  destruct (10 <? next) eqn:Hhigh; [discriminate H|]. cbn [orb] in H.
  assert (Hnext : within_newton_bounds next).
  { split; [exact Fnext|]. split.
    - apply ltb_R; auto. apply leb_false_R in Hlow; auto.
    - apply leb_R; auto. apply ltb_false_R in Hhigh; auto. }
  destruct (abs (next - x) <? 1e-12); [injection H as <-; now right|].
  right. destruct (IH _ _ H) as [-> |Hr]; assumption.
Qed.

Lemma bracketed_within x : bracketed x -> within_bracket x.
Proof.
  intros [Fx [Hlo Hhi]]. split; [exact Fx|]. split; apply leb_R; auto.
Qed.

Lemma bisect_bracketed n :
  forall low high fLow r, bracketed low -> bracketed high ->
    bisect marketPrice couponPayment faceValue periods n low high fLow = Some r ->
    bracketed r.
Proof.
  induction n as [|n IH]; intros low high fLow r Hl Hh H; cbn [bisect] in H;
    pose proof (midpoint_bracketed low high Hl Hh) as Hm.
  - injection H as <-. exact Hm.
  - apply and_then_some in H as (fMid & _ & H).
    destruct (abs fMid <? 1e-10); [injection H as <-; exact Hm|].
    destruct (fLow * fMid <=? 0); (eapply IH; [| |exact H]; assumption).
Qed.

Lemma bisection_bracketed r :
  bisection marketPrice couponPayment faceValue periods = Some r -> bracketed r.
Proof.
  unfold bisection. intros H.
  apply and_then_some in H as (fLow & _ & H).
  apply and_then_some in H as (fHigh & _ & H).
  apply and_then_some in H as (bracket & Hexpand & H).
  destruct (expand_high marketPrice couponPayment faceValue periods
              20 fLow 1 fHigh 0 bracket ltac:(lia) eq_refl Hexpand) as [k Hk].
  apply (bisect_bracketed 200 (-0.99) (fst bracket) fLow r);
    [|exact (powers_bracketed k _ Hk)|exact H].
  split; [reflexivity|]. split; [lra|]. apply leb_const; reflexivity.
Qed.

(** ** Pricing loops that never end *)

Section Endless.

Hypothesis Hendless : iterations periods = None.

Lemma derivative_never_returns r c f :
  derivativePriceFromPeriodicYield r c f periods = None.
Proof.
  unfold derivativePriceFromPeriodicYield, for_periods. now rewrite Hendless.
Qed.

Lemma price_of_endless_loop r c f :
  priceFromPeriodicYield r c f periods
  = if abs r <? 1e-12 then Some (c * periods + f) else None.
Proof.
  unfold priceFromPeriodicYield, for_periods. now rewrite Hendless.
Qed.

Lemma newton_of_endless_loop n x :
  newton marketPrice couponPayment faceValue periods (S n) x
  = if (abs x <? 1e-12)
       && (abs (couponPayment * periods + faceValue - marketPrice) <? 1e-10)
    then Some (Converged x) else None.
Proof.
  cbn [newton]. unfold residual. rewrite price_of_endless_loop.
  destruct (abs x <? 1e-12); cbn [and_then andb]; [|reflexivity].
  destruct (abs _ <? 1e-10); [reflexivity|].
  now rewrite derivative_never_returns.
Qed.

End Endless.

(** The loops end unless the period count is 2^53 or more. *)
Lemma iterations_none :
  iterations periods = None <-> (0x1p53 <=? periods) = true.
Proof.
  unfold iterations. destruct (0x1p53 <=? periods).
  - split; reflexivity.
  - destruct (integer_part periods); split; discriminate.
Qed.

End SolverRange.

(** * The floor of the yield *)

Section YieldFacts.

Context {host : Host}.

(** A negative number is below every number that is zero or more. *)
Lemma negative_below_nonneg c x : (c <? 0) = true -> nonneg x -> (c <? x) = true.
Proof.
  intros Hc Hx. apply nonneg_spec in Hx.
  rewrite FloatAxioms.ltb_spec in *. rewrite Prim2SF_zero in Hc.
  unfold SFltb, SFcompare in *.
  destruct (Prim2SF c) as [sc|[|]| |[|] pc ec]; try discriminate Hc;
    destruct Hx as [[s E]|[E|(p & e & E)]]; rewrite E; reflexivity.
Qed.

(** The initial guess of the solver, for a coupon rate that is zero or more. *)
Lemma Math_max_nonneg q : nonneg q -> Math_max (-0.95) q = q.
Proof.
  intros Hq. unfold Math_max.
  assert (Hnan : is_nan q = false).
  { rewrite is_nan_spec. apply nonneg_spec in Hq.
    destruct Hq as [[s E]|[E|(p & e & E)]]; rewrite E; reflexivity. }
  change (is_nan (-0.95)) with false. rewrite Hnan. cbn [orb].
  now rewrite (negative_below_nonneg (-0.95) q eq_refl Hq).
Qed.

(** A rate that the solver returns is zero or more, or a finite number above
    -0.999999, when the initial guess is zero or more. *)
Lemma solver_floor marketPrice couponPayment faceValue periods frequencyPerYear
    couponRateDecimal r :
  solvePeriodicYtm marketPrice couponPayment faceValue periods
    frequencyPerYear couponRateDecimal = Some r ->
  nonneg (couponRateDecimal / frequencyPerYear) ->
  nonneg r \/ (is_finite r = true /\ (B2R (-0.999999) < B2R r)%R).
Proof.
  intros H Hq. unfold solvePeriodicYtm in H.
  apply and_then_some in H as ([r'|] & Hnewton & H).
  - injection H as <-.
    destruct (newton_range _ _ _ _ _ _ _ Hnewton) as [-> |(Fr & Hlo & _)].
    + left. now rewrite Math_max_nonneg.
    + right. split; [exact Fr|]. now apply ltb_R in Hlo.
  - right. destruct (bisection_bracketed _ _ _ _ r H) as [Fr [Hlo _]].
    split; [exact Fr|].
    assert (B2R (-0.999999) < B2R (-0.99))%R by (apply ltb_const; reflexivity).
    lra.
Qed.

Lemma B2R_floor : (- (9999991 / 10000000) <= B2R (-0.999999))%R.
Proof.
  unfold B2R.
  set (s := Prim2SF (-0.999999)). vm_compute in s. subst s.
  unfold SF2R, F2R, cond_Zopp, bpow. simpl powerRZ. cbn [Z.opp]. lra.
Qed.

Lemma B2R_minus_256 : B2R (-256) = (-256)%R.
Proof. apply (of_Z_exact (-256)%Z). vm_compute. discriminate. Qed.

Lemma B2R_minus_100 : B2R (-100) = (-100)%R.
Proof. apply (of_Z_exact (-100)%Z). vm_compute. discriminate. Qed.

Lemma B2R_minus_200 : B2R (-200) = (-200)%R.
Proof. apply (of_Z_exact (-200)%Z). vm_compute. discriminate. Qed.

(** A negative rate per year above -0.9999991 times the frequency, as a
    percentage rounded to six decimals, is above -100 times the frequency. *)
Lemma percent_above p F :
  is_finite p = true -> (1 <= F <= 2)%R ->
  (- (9999991 / 10000000) * F <= B2R p <= 0)%R ->
  is_finite (round6 (p * 100)) = true /\
  (- 100 * F < B2R (round6 (p * 100)%float))%R.
Proof.
  intros Fp HF Hp.
  assert (Hv : (B2R (-256) <= B2R p * B2R 100 <= B2R 0)%R)
    by (rewrite B2R_minus_256, B2R_100, B2R_0; lra).
  destruct (mul_between p 100 (-256) 0 Fp eq_refl eq_refl eq_refl Hv) as [Fv Bv].
  pose proof (mul_error p 100 Fp eq_refl Fv) as Ev. clear Hv.
  rewrite B2R_minus_256, B2R_0 in Bv. rewrite B2R_100 in Ev.
  assert (P8 : bpow 8 = 256%R) by (apply (bpow_IZR 8%Z); lia).
  assert (P1000 : (bpow 8 <= bpow 1000)%R) by (apply bpow_le; lia).
  destruct (scaled_accuracy 1000000 (p * 100) eq_refl) as [Fy Hy];
    [rewrite B2R_1000000, bpow_20; lra|exact Fv|apply Rabs_le; lra|].
  split; [exact Fy|]. fold (round6 (p * 100)) in Hy.
  rewrite B2R_1000000 in Hy.
  assert (U1 : bpow (-52) = (2 * bpow (-53))%R) by (apply (bpow_succ (-53)%Z)).
  assert (U2 : bpow (-51) = (2 * bpow (-52))%R) by (apply (bpow_succ (-52)%Z)).
  assert (U3 : bpow (-50) = (2 * bpow (-51))%R) by (apply (bpow_succ (-51)%Z)).
  assert (U4 : (bpow (-1075) <= bpow (-53))%R) by (apply bpow_le; lia).
  pose proof bpow_minus_53 as U.
  revert Hy Ev Bv. generalize (B2R (round6 (p * 100))) (B2R (p * 100)).
  intros Y V Hy Ev Bv.
  assert (A1 : Rabs V = (- V)%R) by (apply Rabs_left1; lra).
  assert (A2 : Rabs (B2R p * 100) = (- (B2R p * 100))%R) by (apply Rabs_left1; lra).
  rewrite A1 in Hy. rewrite A2 in Ev.
  apply Rabs_within in Hy. apply Rabs_within in Ev.
  rewrite U3, U2, U1, U in *. lra.
Qed.

End YieldFacts.

(** * The specification, statement by statement *)

(** ** The validator *)

(** C8: the validator returns, in order, the message of every rule that the
    input breaks, whatever the other fields hold: the list is the ordered
    selection of the six messages by the six rules, a message is in the list
    exactly when its rule fails, and the list is empty exactly when every rule
    holds. *)
Theorem validateBondInput_checks_every_rule :
  forall (host : Host) (input : BondCalculationInput),
    validateBondInput input = violations (rules input) /\
    (validateBondInput input = [] <-> forallb fst (rules input) = true) /\
    (forall rule message,
        In (rule, message) (rules input) ->
        (In message (validateBondInput input) <-> rule = false)).
Proof.
  intros host input. split; [apply validateBondInput_violations|].
  rewrite validateBondInput_violations. unfold violations, rules.
  set (r1 := rule_faceValue input). set (r2 := rule_couponRate input).
  set (r3 := rule_marketPrice input). set (r4 := rule_yearsToMaturity input).
  set (r5 := rule_couponFrequency input). set (r6 := rule_settlementDate input).
  split.
  - destruct r1, r2, r3, r4, r5, r6; simpl; split; intros H;
      solve [reflexivity | discriminate H].
  - intros rule message Hin. simpl in Hin.
    repeat (destruct Hin as [Hin|Hin]; [injection Hin as <- <-|]); [..|contradiction];
      destruct r1, r2, r3, r4, r5, r6; simpl; split; intros H;
      solve [reflexivity | discriminate H | tauto
            | repeat (destruct H as [H|H]; [discriminate H|]); contradiction].
Qed.

(** C7: an input that passes validation and whose rounded period count is
    zero or less is rejected by [calculateBondMetrics] with an error, and no
    message of the validator is about the period count: each is the message
    of one of the six rules. *)
Theorem degenerate_period_count_is_rejected :
  forall (host : Host) (input : BondCalculationInput),
    validateBondInput input = [] ->
    (totalPeriodsOf input <=? 0) = true ->
    calculateBondMetrics input = Thrown "Total periods must be at least 1." /\
    (forall other message,
        In message (validateBondInput other) -> In message (map snd (rules other))).
Proof.
  intros host input _ Hperiods. split.
  - unfold calculateBondMetrics. fold (frequencyOf input). fold (totalPeriodsOf input).
    now rewrite Hperiods.
  - intros other message. rewrite validateBondInput_violations. unfold violations.
    rewrite !in_map_iff. intros (check & <- & Hin).
    apply filter_In in Hin as [Hin _]. now exists check.
Qed.

Lemma degenerate_period_count_witness :
  validateBondInput (host := reference) (bond 1000 5 950 0.2 "annual") = [] /\
  calculateBondMetrics (host := reference) (bond 1000 5 950 0.2 "annual")
    = Thrown "Total periods must be at least 1.".
Proof.
  split; [vm_compute; reflexivity|].
  apply (degenerate_period_count_is_rejected reference (bond 1000 5 950 0.2 "annual"));
    vm_compute; reflexivity.
Defined.

(** ** The result record *)

(** C1: on the payload of the repository's integration test the returned
    object has no [effectiveAnnualYieldPct] property, while it has [ytmPct];
    no result of [calculateBondMetrics] has the property, on any platform. *)
Theorem effectiveAnnualYieldPct_is_missing :
  (exists result,
      calculateBondMetrics (host := reference) (bond 1000 5 950 10 "semi-annual")
        = Returned result /\
      property "ytmPct" (result_object result) = Some (PNumber 5.661689) /\
      property "effectiveAnnualYieldPct" (result_object result) = None) /\
  (forall (host : Host) input result,
      calculateBondMetrics input = Returned result ->
      property "effectiveAnnualYieldPct" (result_object result) = None).
Proof.
  split.
  - eexists. split; [vm_compute; reflexivity|]. split; vm_compute; reflexivity.
  - intros host input result _. reflexivity.
Qed.

(** C3, as the code has it: the total interest of a returned result is the
    unrounded coupon payment times the period count, rounded to 2 decimals. *)
Theorem totalInterestEarned_is_rounded_product :
  forall (host : Host) input result,
    validateBondInput input = [] ->
    calculateBondMetrics input = Returned result ->
    totalInterestEarned result = round2 (couponPaymentOf input * totalPeriods result).
Proof.
  intros host input result _ H.
  apply calculateBondMetrics_returned in H as (_ & _ & _ & Hperiods & _ & _ & Htotal & _).
  rewrite Htotal, Hperiods. reflexivity.
Qed.

Lemma totalInterestEarned_witness :
  exists result,
    calculateBondMetrics (host := reference) (bond 1000 5 950 10 "semi-annual")
      = Returned result /\
    totalInterestEarned result
      = round2 (couponPaymentOf (bond 1000 5 950 10 "semi-annual") * totalPeriods result).
Proof.
  eexists. split; [vm_compute; reflexivity|].
  match goal with
  | |- totalInterestEarned ?result = _ =>
      apply (totalInterestEarned_is_rounded_product reference
               (bond 1000 5 950 10 "semi-annual") result)
  end; vm_compute; reflexivity.
Defined.

(** C3 fails as stated: a bond of face 1 with a 12.5% annual coupon over 2
    years has the coupon payment 0.125, returned as 0.13, and the total
    interest 0.25, which is not 0.13 times 2. *)
Lemma totalInterestEarned_counterexample :
  (forall (host : Host) result,
      calculateBondMetrics (bond 1 12.5 1 2 "annual") = Returned result ->
      totalInterestEarned result = 0.25 /\ couponPayment result = 0.13 /\
      totalPeriods result = 2 /\
      (totalInterestEarned result =? couponPayment result * totalPeriods result) = false) /\
  (exists result,
      validateBondInput (host := reference) (bond 1 12.5 1 2 "annual") = [] /\
      calculateBondMetrics (host := reference) (bond 1 12.5 1 2 "annual") = Returned result).
Proof.
  split.
  - intros host result H.
    apply calculateBondMetrics_returned in H as (_ & _ & Hc & Hp & _ & _ & Ht & _).
    rewrite Ht, Hc, Hp. vm_compute. repeat split.
  - eexists. split; vm_compute; reflexivity.
Qed.

(** ** The schedule *)

(** C4, as the code has it: the row at [index] (from 0) of a returned
    schedule is that of period [index + 1], and its cumulative interest is
    the sum, taken row by row from 0, of [index + 1] unrounded coupon
    payments, rounded to 2 decimals. *)
Theorem cumulativeInterest_is_rounded_running_sum :
  forall (host : Host) input result index row,
    validateBondInput input = [] ->
    calculateBondMetrics input = Returned result ->
    nth_error (cashFlowSchedule result) index = Some row ->
    CashFlowRow.period row = of_nat index + 1 /\
    B2R (CashFlowRow.period row) = IZR (Z.of_nat index + 1) /\
    CashFlowRow.cumulativeInterest row
      = round2 (accumulated (couponPaymentOf input) (S index)).
Proof.
  intros host input result index row _ H Hrow.
  apply calculateBondMetrics_returned in H
    as (_ & _ & _ & _ & _ & _ & _ & _ & _ & n & settlement & Hlen & Hrows).
  apply schedule_rows_spec in Hrows as [Hcount Hnth].
  destruct (Hnth index row Hrow) as (Hperiod & _ & Hcumulative & _).
  simpl in Hperiod. rewrite Hperiod. split; [reflexivity|]. split; [|exact Hcumulative].
  apply row_period.
  assert (index < n)%nat by (rewrite <- Hcount; apply nth_error_Some; congruence).
  unfold array_length in Hlen. destruct (integer_part _) as [z|].
  - destruct (Z.leb_spec z 4294967295); [|discriminate Hlen].
    injection Hlen as <-. lia.
  - destruct (get_sign _); [|discriminate Hlen]. injection Hlen as <-. lia.
Qed.

Lemma cumulativeInterest_witness :
  exists result row,
    calculateBondMetrics (host := reference) (bond 1000 8 1000 2 "semi-annual")
      = Returned result /\
    nth_error (cashFlowSchedule result) 3 = Some row /\
    CashFlowRow.period row = of_nat 3 + 1 /\
    B2R (CashFlowRow.period row) = IZR (Z.of_nat 3 + 1) /\
    CashFlowRow.cumulativeInterest row
      = round2 (accumulated (couponPaymentOf (bond 1000 8 1000 2 "semi-annual")) 4).
Proof.
  do 2 eexists. split; [vm_compute; reflexivity|]. split; [vm_compute; reflexivity|].
  match goal with
  | |- CashFlowRow.period ?row = _ /\ _ =>
      eapply (cumulativeInterest_is_rounded_running_sum reference
                (bond 1000 8 1000 2 "semi-annual") _ 3%nat row)
  end; vm_compute; reflexivity.
Defined.

(** C4 fails as stated: the cumulative interest of a zero-coupon bond is 0 in
    every row, so it does not increase; and with the coupon payment 0.125,
    returned as 0.13, the second row holds 0.25, not 0.13 times 2. *)
Lemma cumulativeInterest_counterexample :
  (exists result first second,
      validateBondInput (host := reference) (bond 1000 0 620.92 10 "annual") = [] /\
      calculateBondMetrics (host := reference) (bond 1000 0 620.92 10 "annual")
        = Returned result /\
      nth_error (cashFlowSchedule result) 0 = Some first /\
      nth_error (cashFlowSchedule result) 1 = Some second /\
      CashFlowRow.cumulativeInterest first = 0 /\
      CashFlowRow.cumulativeInterest second = 0 /\
      (CashFlowRow.cumulativeInterest first <? CashFlowRow.cumulativeInterest second)
        = false) /\
  (exists result second,
      validateBondInput (host := reference) (bond 1 12.5 1 2 "annual") = [] /\
      calculateBondMetrics (host := reference) (bond 1 12.5 1 2 "annual")
        = Returned result /\
      nth_error (cashFlowSchedule result) 1 = Some second /\
      CashFlowRow.couponPayment second = 0.13 /\
      CashFlowRow.period second = 2 /\
      CashFlowRow.cumulativeInterest second = 0.25 /\
      (CashFlowRow.cumulativeInterest second
         =? CashFlowRow.couponPayment second * CashFlowRow.period second) = false).
Proof.
  split.
  - do 3 eexists. repeat (split; [vm_compute; reflexivity|]). vm_compute. reflexivity.
  - do 2 eexists. repeat (split; [vm_compute; reflexivity|]). vm_compute. reflexivity.
Qed.

(** C5, as the code has it: a returned schedule has as many rows as the
    rounded period count says, every row holds the coupon payment rounded to
    2 decimals, and the remaining principal is the face value rounded to 2
    decimals in every row but the last, where it is 0. *)
Theorem schedule_rows_and_principal :
  forall (host : Host) input result,
    validateBondInput input = [] ->
    (1 <=? totalPeriodsOf input) = true ->
    calculateBondMetrics input = Returned result ->
    B2R (totalPeriodsOf input) = IZR (Z.of_nat (List.length (cashFlowSchedule result))) /\
    (of_nat (List.length (cashFlowSchedule result)) =? totalPeriodsOf input) = true /\
    forall index row,
      nth_error (cashFlowSchedule result) index = Some row ->
      CashFlowRow.couponPayment row
        = round2 (faceValue input * (annualCouponRatePct input / 100) / frequencyOf input) /\
      CashFlowRow.remainingPrincipal row
        = (if Nat.eqb (S index) (List.length (cashFlowSchedule result)) then 0
           else round2 (faceValue input)).
Proof.
  intros host input result _ Hone H.
  apply calculateBondMetrics_returned in H
    as (_ & _ & _ & _ & _ & _ & _ & _ & _ & n & settlement & Hlen & Hrows).
  apply schedule_rows_spec in Hrows as [Hcount Hnth]. rewrite Hcount.
  unfold totalPeriodsOf in *.
  pose proof (array_length_at_least_one _ _ Hone Hlen) as Hn.
  destruct (array_length_rounded _ _ Hlen Hn) as (Fr & Vr & Hmax).
  split; [exact Vr|]. split.
  - destruct (of_Z_exact (Z.of_nat n) ltac:(lia)) as [Fn Vn].
    apply eqb_R; auto. unfold of_nat. now rewrite Vn, Vr.
  - intros index row Hrow.
    destruct (Hnth index row Hrow) as (_ & Hc & _ & Hp). split; [exact Hc|].
    rewrite Hp. simpl Nat.add.
    assert (index < n)%nat by (rewrite <- Hcount; apply nth_error_Some; congruence).
    now rewrite (last_period _ n index Hlen).
Qed.

Lemma schedule_rows_witness :
  exists result,
    calculateBondMetrics (host := reference) (bond 1000 4 1000 2.5 "semi-annual")
      = Returned result /\
    List.length (cashFlowSchedule result) = 5%nat /\
    B2R (totalPeriodsOf (bond 1000 4 1000 2.5 "semi-annual"))
      = IZR (Z.of_nat (List.length (cashFlowSchedule result))).
Proof.
  eexists. split; [vm_compute; reflexivity|]. split; [vm_compute; reflexivity|].
  match goal with
  | |- _ = IZR (Z.of_nat (List.length (cashFlowSchedule ?result))) =>
      apply (schedule_rows_and_principal reference
               (bond 1000 4 1000 2.5 "semi-annual") result)
  end; vm_compute; reflexivity.
Defined.

(** C5 fails as stated: with the face value 1000.125 the remaining principal
    of the first row is 1000.13, not the face value. *)
Lemma schedule_principal_counterexample :
  (forall (host : Host) result first,
      calculateBondMetrics (bond 1000.125 5 1000 2 "annual") = Returned result ->
      nth_error (cashFlowSchedule result) 0 = Some first ->
      CashFlowRow.remainingPrincipal first = 1000.13 /\
      (CashFlowRow.remainingPrincipal first =? 1000.125) = false) /\
  (exists result first,
      validateBondInput (host := reference) (bond 1000.125 5 1000 2 "annual") = [] /\
      (1 <=? totalPeriodsOf (bond 1000.125 5 1000 2 "annual")) = true /\
      calculateBondMetrics (host := reference) (bond 1000.125 5 1000 2 "annual")
        = Returned result /\
      nth_error (cashFlowSchedule result) 0 = Some first).
Proof.
  split.
  - intros host result first H Hrow.
    apply calculateBondMetrics_returned in H
      as (_ & _ & _ & _ & _ & _ & _ & _ & _ & n & settlement & _ & Hrows).
    apply schedule_rows_spec in Hrows as [_ Hnth].
    destruct (Hnth 0%nat first Hrow) as (_ & _ & _ & Hp).
    rewrite Hp. vm_compute. split; reflexivity.
  - do 2 eexists. repeat (split; [vm_compute; reflexivity|]). vm_compute. reflexivity.
Qed.

(** ** Classification and yields *)

(** C2, as the code has it: for a validated input the trading status
    follows the comparison of market price and face value, and at par the
    premium or discount amount is 0. *)
Theorem tradingStatus_follows_price :
  forall (host : Host) input result,
    validateBondInput input = [] ->
    calculateBondMetrics input = Returned result ->
    ((marketPrice input <? faceValue input) = true -> tradingStatus result = discount) /\
    ((faceValue input <? marketPrice input) = true -> tradingStatus result = premium) /\
    ((marketPrice input =? faceValue input) = true ->
     tradingStatus result = par /\ premiumDiscountAmount result = 0).
Proof.
  intros host input result Hvalid H.
  apply valid_input_numbers in Hvalid as (Fface & _ & _ & _ & Fprice & _).
  apply calculateBondMetrics_returned in H
    as (_ & _ & _ & _ & _ & _ & _ & Hstatus & Hamount & _).
  destruct (sub_sign (marketPrice input) (faceValue input) Fprice Fface)
    as (Hbelow & Habove & Hequal).
  rewrite Hstatus, Hamount. repeat split.
  - intros Hlt. destruct (Hbelow Hlt) as [Hneg Hpos]. now rewrite Hpos, Hneg.
  - intros Hgt. now rewrite (Habove Hgt).
  - destruct (Hequal H) as (Hpos & Hneg & _). now rewrite Hpos, Hneg.
  - destruct (Hequal H) as (_ & _ & Hzero). now apply round2_zero.
Qed.

Lemma tradingStatus_witness :
  exists result,
    calculateBondMetrics (host := reference) (bond 1000 5 950 10 "semi-annual")
      = Returned result /\
    ((marketPrice (bond 1000 5 950 10 "semi-annual")
        <? faceValue (bond 1000 5 950 10 "semi-annual")) = true ->
     tradingStatus result = discount).
Proof.
  eexists. split; [vm_compute; reflexivity|].
  match goal with
  | |- _ -> tradingStatus ?result = _ =>
      apply (tradingStatus_follows_price reference
               (bond 1000 5 950 10 "semi-annual") result)
  end; vm_compute; reflexivity.
Defined.

(** C2 fails as stated: a zero-coupon bond of face 1000 priced within the
    solver's tolerance of it, below or above, is classified as discount or as
    premium, while its yield to maturity and its current yield are both
    returned as 0. *)
Lemma yield_order_counterexample :
  (forall (host : Host) result,
      calculateBondMetrics (bond 1000 0 999.99999999995 1 "annual") = Returned result ->
      tradingStatus result = discount /\
      ytmPct result = 0 /\ currentYieldPct result = 0 /\
      (currentYieldPct result <? ytmPct result) = false) /\
  (forall (host : Host) result,
      calculateBondMetrics (bond 1000 0 1000.00000000005 1 "annual") = Returned result ->
      tradingStatus result = premium /\
      ytmPct result = 0 /\ currentYieldPct result = 0 /\
      (ytmPct result <? currentYieldPct result) = false) /\
  validateBondInput (host := reference) (bond 1000 0 999.99999999995 1 "annual") = [] /\
  validateBondInput (host := reference) (bond 1000 0 1000.00000000005 1 "annual") = [] /\
  (999.99999999995 <? 1000) = true /\ (1000 <? 1000.00000000005) = true /\
  match calculateBondMetrics (host := reference) (bond 1000 0 999.99999999995 1 "annual"),
        calculateBondMetrics (host := reference) (bond 1000 0 1000.00000000005 1 "annual")
  with
  | Returned below, Returned above =>
      (currentYieldPct below <? ytmPct below) = false /\
      (ytmPct above <? currentYieldPct above) = false
  | _, _ => False
  end.
Proof.
  split; [|split].
  - intros host result H.
    apply calculateBondMetrics_returned in H
      as (_ & _ & _ & _ & Hcurrent & (periodicYtm & Hsolve & Hytm) & _ & Hstatus & _).
    vm_compute in Hsolve. injection Hsolve as <-.
    rewrite Hstatus, Hytm, Hcurrent. vm_compute. repeat split.
  - intros host result H.
    apply calculateBondMetrics_returned in H
      as (_ & _ & _ & _ & Hcurrent & (periodicYtm & Hsolve & Hytm) & _ & Hstatus & _).
    vm_compute in Hsolve. injection Hsolve as <-.
    rewrite Hstatus, Hytm, Hcurrent. vm_compute. repeat split.
  - vm_compute. repeat split.
Qed.

(** ** Rounding *)

(** C6, as the code has it: every monetary output is [round2] of its raw
    value and every yield percentage is [round6] of its raw value, where
    [round2] and [round6] add [Number.EPSILON], scale by 100 or 1,000,000,
    apply [Math.round] and scale back; [Math.round] takes a finite number to
    the nearest integer and a tie to the integer above. *)
Theorem outputs_are_rounded_half_up :
  forall (host : Host) input result,
    validateBondInput input = [] ->
    calculateBondMetrics input = Returned result ->
    (annualCouponAmount result = round2 (annualCouponAmountOf input) /\
     couponPayment result = round2 (couponPaymentOf input) /\
     totalInterestEarned result = round2 (couponPaymentOf input * totalPeriodsOf input) /\
     premiumDiscountAmount result = round2 (marketPrice input - faceValue input) /\
     forall index row,
       nth_error (cashFlowSchedule result) index = Some row ->
       CashFlowRow.couponPayment row = round2 (couponPaymentOf input) /\
       CashFlowRow.cumulativeInterest row
         = round2 (accumulated (couponPaymentOf input) (S index)) /\
       (CashFlowRow.remainingPrincipal row = 0 \/
        CashFlowRow.remainingPrincipal row = round2 (faceValue input))) /\
    (currentYieldPct result
       = round6 (annualCouponAmountOf input / marketPrice input * 100) /\
     exists periodicYtm,
       solvePeriodicYtm (marketPrice input) (couponPaymentOf input) (faceValue input)
         (totalPeriodsOf input) (frequencyOf input) (annualCouponRatePct input / 100)
         = Some periodicYtm /\
       ytmPct result = round6 (periodicYtm * frequencyOf input * 100)) /\
    (forall value,
        round2 value = Math_round ((value + EPSILON) * 100) / 100 /\
        round6 value = Math_round ((value + EPSILON) * 1000000) / 1000000) /\
    (forall x,
        is_finite x = true ->
        exists z, B2R (Math_round x) = IZR z /\
          (IZR z - 1 / 2 <= B2R x < IZR z + 1 / 2)%R).
Proof.
  intros host input result _ H.
  apply calculateBondMetrics_returned in H
    as (_ & Hannual & Hcoupon & _ & Hcurrent & Hytm & Htotal & _ & Hamount
        & n & settlement & _ & Hrows).
  apply schedule_rows_spec in Hrows as [_ Hnth].
  split; [|split; [|split]].
  - repeat (split; [assumption|]).
    intros index row Hrow. destruct (Hnth index row Hrow) as (_ & Hc & Hi & Hp).
    split; [exact Hc|]. split; [exact Hi|].
    rewrite Hp. destruct (_ =? _); auto.
  - split; [exact Hcurrent|exact Hytm].
  - intros value. split; reflexivity.
  - intros x Fx. destruct (Math_round_spec x Fx) as (_ & z & Hz). now exists z.
Qed.

Lemma outputs_rounded_witness :
  exists result,
    calculateBondMetrics (host := reference) (bond 1000.125 5 1000 2 "annual")
      = Returned result /\
    premiumDiscountAmount result
      = round2 (marketPrice (bond 1000.125 5 1000 2 "annual")
                - faceValue (bond 1000.125 5 1000 2 "annual")).
Proof.
  eexists. split; [vm_compute; reflexivity|].
  match goal with
  | |- premiumDiscountAmount ?result = _ =>
      apply (outputs_are_rounded_half_up reference
               (bond 1000.125 5 1000 2 "annual") result)
  end; vm_compute; reflexivity.
Defined.

(** C6 fails as stated: a price of 1000 against a face value of 1000.125
    makes the raw premium or discount amount -0.125, a negative half-value at
    2 decimals, and the amount returned is -0.12, toward zero, not -0.13. *)
Lemma negative_half_counterexample :
  (forall (host : Host) result,
      calculateBondMetrics (bond 1000.125 5 1000 2 "annual") = Returned result ->
      marketPrice (bond 1000.125 5 1000 2 "annual")
        - faceValue (bond 1000.125 5 1000 2 "annual") = -0.125 /\
      premiumDiscountAmount result = -0.12 /\
      (premiumDiscountAmount result =? -0.13) = false) /\
  (exists result,
      validateBondInput (host := reference) (bond 1000.125 5 1000 2 "annual") = [] /\
      calculateBondMetrics (host := reference) (bond 1000.125 5 1000 2 "annual")
        = Returned result) /\
  Math_round (-2.5) = -2 /\ Math_round 2.5 = 3 /\ round2 (-0.125) = -0.12.
Proof.
  split; [|split].
  - intros host result H.
    apply calculateBondMetrics_returned in H as (_ & _ & _ & _ & _ & _ & _ & _ & Hamount & _).
    rewrite Hamount. vm_compute. repeat split.
  - eexists. split; vm_compute; reflexivity.
  - vm_compute. repeat split.
Qed.

(** ** The solver *)

(** C9: the solver is a deterministic function of its arguments: run as the
    state machine of its control flow from the same arguments, every run
    returns the same rate, the runs return exactly what the function
    computes, and there is a run whenever the pricing loops end, that is for
    a period count below 2^53. *)
Theorem solvePeriodicYtm_is_deterministic :
  forall (host : Host)
         (marketPrice couponPayment faceValue periods frequencyPerYear couponRateDecimal
            : number),
    let start := entry frequencyPerYear couponRateDecimal in
    let run := returns marketPrice couponPayment faceValue periods in
    (forall r1 r2, run start r1 -> run start r2 -> r1 = r2) /\
    (forall r, run start r <->
       solvePeriodicYtm marketPrice couponPayment faceValue periods
         frequencyPerYear couponRateDecimal = Some r) /\
    ((periods <? 0x1p53) = true -> exists r, run start r).
Proof.
  intros host marketPrice couponPayment faceValue periods frequencyPerYear
    couponRateDecimal start run.
  split; [|split].
  - intros r1 r2. apply returns_unique.
  - intros r. apply solvePeriodicYtm_returns.
  - intros Hperiods. destruct (iterations_below_limit periods Hperiods) as [n Hn].
    destruct (solvePeriodicYtm_ends marketPrice couponPayment faceValue periods n Hn
                frequencyPerYear couponRateDecimal) as [r Hr].
    exists r. apply solvePeriodicYtm_returns. exact Hr.
Qed.

(** C10, as the code has it: for a period count of at least 1 and below
    2^53, a finite positive market price and face value, a finite coupon
    payment that is not negative, a finite coupon rate and a frequency of 1 or
    2 (or any other for which the quotient of rate and frequency is finite),
    the solver returns a finite rate above -1. *)
Theorem solvePeriodicYtm_is_finite_and_above_minus_one :
  forall (host : Host)
         (marketPrice couponPayment faceValue periods frequencyPerYear couponRateDecimal
            : number),
    (1 <=? periods) = true -> (periods <? 0x1p53) = true ->
    is_finite marketPrice = true -> (0 <? marketPrice) = true ->
    is_finite faceValue = true -> (0 <? faceValue) = true ->
    is_finite couponPayment = true -> (0 <=? couponPayment) = true ->
    is_finite couponRateDecimal = true ->
    frequencyPerYear = 1 \/ frequencyPerYear = 2 \/
      is_finite (couponRateDecimal / frequencyPerYear) = true ->
    exists r,
      solvePeriodicYtm marketPrice couponPayment faceValue periods
        frequencyPerYear couponRateDecimal = Some r /\
      is_finite r = true /\ (-1 <? r) = true /\ (0 <? 1 + r) = true.
Proof.
  intros host marketPrice couponPayment faceValue periods frequencyPerYear
    couponRateDecimal _ Hperiods _ _ _ _ _ _ Frate Hfrequency.
  destruct (iterations_below_limit periods Hperiods) as [n Hn].
  destruct (solvePeriodicYtm_ends marketPrice couponPayment faceValue periods n Hn
              frequencyPerYear couponRateDecimal) as [r Hsolve].
  assert (Hq : is_finite (couponRateDecimal / frequencyPerYear) = true).
  { destruct Hfrequency as [-> |[-> |Hq]];
      [apply div_1_finite|apply div_2_finite|exact Hq]; exact Frate. }
  destruct (solvePeriodicYtm_sane _ _ _ _ _ _ _ Hq Hsolve) as [Fr Hr].
  exists r. split; [exact Hsolve|]. split; [exact Fr|]. split; [exact Hr|].
  apply add_positive; auto.
  apply ltb_R in Hr; auto.
  rewrite B2R_1. replace (B2R (-1)) with (- B2R 1)%R in Hr; [rewrite B2R_1 in Hr; lra|].
  unfold B2R. change (Prim2SF (-1)) with (SFopp (Prim2SF 1)).
  destruct (Prim2SF 1) as [s|s| |s p e]; simpl; try lra.
  rewrite !F2R_cond_Zopp. destruct s; simpl; lra.
Qed.

Lemma solvePeriodicYtm_finite_witness :
  exists r,
    solvePeriodicYtm (host := reference) 950 25 1000 20 2 0.05 = Some r /\
    is_finite r = true /\ (-1 <? r) = true /\ (0 <? 1 + r) = true.
Proof.
  apply (solvePeriodicYtm_is_finite_and_above_minus_one reference 950 25 1000 20 2 0.05);
    solve [vm_compute; reflexivity | right; left; reflexivity].
Defined.

(** C10 fails as stated. With the frequency 0 the initial guess is
    [Infinity], at which a bond priced below the tolerance of the solver
    is taken as priced: the call returns [Infinity]. With a period count of
    2^53 the pricing loops never end, and the call does not return. *)
Lemma solvePeriodicYtm_counterexample :
  (1 <=? 1) = true /\
  is_finite 1e-11 = true /\ (0 <? 1e-11) = true /\
  is_finite 1 = true /\ (0 <? 1) = true /\
  is_finite 0 = true /\ (0 <=? 0) = true /\
  is_finite 0.05 = true /\
  solvePeriodicYtm (host := reference) 1e-11 0 1 1 0 0.05 = Some infinity /\
  is_finite infinity = false /\
  (1 <=? 0x1p53) = true /\
  (forall host : Host, solvePeriodicYtm 950 25 1000 0x1p53 2 0.05 = None) /\
  (forall (A : Type) (body : number -> A -> A) (init : A) (fuel : nat),
      for_loop fuel 1 0x1p53 body init = None).
Proof.
  do 11 (split; [vm_compute; reflexivity|]).
  split; [intros host; vm_compute; reflexivity|].
  intros A body init fuel.
  assert (E : of_Z 1 = 1) by (vm_compute; reflexivity). rewrite <- E.
  apply for_loop_never_ends; [vm_compute; reflexivity|lia].
Qed.

(** * Further properties of the code *)

(** ** The service *)


(** ** The solver *)

(** X2: a rate that [solvePeriodicYtm] returns is the initial guess
    [Math.max(-0.95, couponRateDecimal / frequencyPerYear)], or a Newton
    iterate that passed the test of the bounds (finite, above -0.999999, at
    most 10), or a midpoint of the bisection (finite, from -0.99 to 1048576,
    which is 1 doubled 20 times). *)
Theorem solvePeriodicYtm_range :
  forall (host : Host)
         (marketPrice couponPayment faceValue periods frequencyPerYear couponRateDecimal r
            : number),
    solvePeriodicYtm marketPrice couponPayment faceValue periods
      frequencyPerYear couponRateDecimal = Some r ->
    r = Math_max (-0.95) (couponRateDecimal / frequencyPerYear) \/
    within_newton_bounds r \/ within_bracket r.
Proof.
  intros host marketPrice couponPayment faceValue periods frequencyPerYear
    couponRateDecimal r H.
  unfold solvePeriodicYtm in H.
  apply and_then_some in H as ([r'|] & Hnewton & H).
  - injection H as <-.
    destruct (newton_range _ _ _ _ _ _ _ Hnewton) as [-> |Hr]; [now left|right; now left].
  - right. right. apply bracketed_within.
    exact (bisection_bracketed _ _ _ _ r H).
Qed.

Lemma solvePeriodicYtm_range_witness :
  exists r,
    solvePeriodicYtm (host := reference) 950 25 1000 20 2 0.05 = Some r /\
    (r = Math_max (-0.95) (0.05 / 2) \/ within_newton_bounds r \/ within_bracket r).
Proof.
  eexists. split; [vm_compute; reflexivity|].
  match goal with
  | |- ?r = _ \/ _ =>
      apply (solvePeriodicYtm_range reference 950 25 1000 20 2 0.05 r)
  end.
  vm_compute. reflexivity.
Defined.

(** X3: with a period count of 2^53 or more the pricing loops never end,
    and [solvePeriodicYtm] returns in one case only: the initial guess is
    within 1e-12 of zero, where the price is taken without a loop, and
    already prices the bond within 1e-10; the initial guess is then what it
    returns. *)
Theorem solvePeriodicYtm_with_endless_loops :
  forall (host : Host)
         (marketPrice couponPayment faceValue periods frequencyPerYear couponRateDecimal
            : number),
    (0x1p53 <=? periods) = true ->
    forall r,
      solvePeriodicYtm marketPrice couponPayment faceValue periods
        frequencyPerYear couponRateDecimal = Some r <->
      r = Math_max (-0.95) (couponRateDecimal / frequencyPerYear) /\
      (abs r <? 1e-12) = true /\
      (abs (couponPayment * periods + faceValue - marketPrice) <? 1e-10) = true.
Proof.
  intros host marketPrice couponPayment faceValue periods frequencyPerYear
    couponRateDecimal Hperiods r.
  apply iterations_none in Hperiods. unfold solvePeriodicYtm.
  rewrite (newton_of_endless_loop _ _ _ _ Hperiods 49).
  set (x := Math_max (-0.95) (couponRateDecimal / frequencyPerYear)).
  destruct (abs x <? 1e-12) eqn:Hzero; cbn [andb].
  - destruct (abs (couponPayment * periods + faceValue - marketPrice) <? 1e-10) eqn:Hfx;
      cbn [and_then].
    + split.
      * intros H. injection H as <-. now rewrite Hzero.
      * intros (-> & _). reflexivity.
    + split; [discriminate|]. intros (_ & _ & H). discriminate H.
  - cbn [and_then]. split; [discriminate|].
    intros (-> & H & _). rewrite Hzero in H. discriminate H.
Qed.

Lemma solvePeriodicYtm_endless_witness :
  solvePeriodicYtm (host := reference) 1000 0 1000 0x1p53 1 0 = Some 0.
Proof.
  apply (solvePeriodicYtm_with_endless_loops reference 1000 0 1000 0x1p53 1 0);
    [vm_compute; reflexivity|].
  vm_compute. repeat split.
Defined.

(** X4: the loop [for (let t = 1; t <= periods; t += 1)] of the pricing
    functions ends exactly when [periods] is not 2^53 or more; it then runs
    its body on 1, 2, ..., up to the integer part of [periods]. *)
Theorem pricing_loop_ends_below_limit :
  forall (A : Type) (periods : number) (body : number -> A -> A) (init : A),
    ((exists fuel result, for_loop fuel 1 periods body init = Some result) <->
     (0x1p53 <=? periods) = false) /\
    (forall fuel result,
        for_loop fuel 1 periods body init = Some result ->
        exists n,
          iterations periods = Some n /\
          result = fold_left (fun acc t => body (of_nat t) acc) (seq 1 n) init).
Proof.
  intros A periods body init.
  assert (Hspec : forall fuel result,
             for_loop fuel 1 periods body init = Some result ->
             exists n,
               iterations periods = Some n /\
               result = fold_left (fun acc t => body (of_nat t) acc) (seq 1 n) init).
  { intros fuel result H.
    assert (H' : for_periods periods body init = Some result)
      by (apply for_periods_spec; eauto).
    destruct (iterations periods) as [n|] eqn:Hn.
    - exists n. split; [reflexivity|].
      rewrite (for_periods_ends periods body n init Hn) in H'. congruence.
    - unfold for_periods in H'. rewrite Hn in H'. discriminate H'. }
  split; [|exact Hspec].
  split.
  - intros (fuel & result & H). destruct (Hspec fuel result H) as (n & Hn & _).
    destruct (0x1p53 <=? periods) eqn:Hlimit; [|reflexivity].
    apply iterations_none in Hlimit. congruence.
  - intros Hlimit. destruct (iterations periods) as [n|] eqn:Hn.
    + pose proof (for_periods_ends periods body n init Hn) as H.
      apply for_periods_spec in H. destruct H as [fuel H]. eauto.
    + apply iterations_none in Hn. congruence.
Qed.

(** ** The label of the trading status *)

(** X5: for an input that passes validation, the label that [statusLabel]
    gives to the trading status of the result is "Trading at Premium" exactly
    when the market price is above the face value, "Trading at Discount"
    exactly when it is below, and "Trading at Par" exactly when they are
    equal. *)
Theorem statusLabel_follows_price :
  forall (host : Host) input result,
    validateBondInput input = [] ->
    calculateBondMetrics input = Returned result ->
    let label := statusLabel (status_text (tradingStatus result)) in
    (label = "Trading at Premium" <-> (faceValue input <? marketPrice input) = true) /\
    (label = "Trading at Discount" <-> (marketPrice input <? faceValue input) = true) /\
    (label = "Trading at Par" <-> (marketPrice input =? faceValue input) = true).
Proof.
  intros host input result Hvalid H label.
  apply valid_input_numbers in Hvalid as (Fface & _ & _ & _ & Fprice & _).
  apply calculateBondMetrics_returned in H
    as (_ & _ & _ & _ & _ & _ & _ & Hstatus & _).
  destruct (sub_sign (marketPrice input) (faceValue input) Fprice Fface)
    as (Hbelow & Habove & Hequal).
  unfold label. rewrite Hstatus. clear label Hstatus.
  assert (Hne : forall x y, is_finite x = true -> is_finite y = true ->
                  B2R x <> B2R y -> (x =? y) = false).
  { intros x y Fx Fy Hxy. destruct (x =? y) eqn:E; [|reflexivity].
    apply eqb_R in E; auto. contradiction. }
  destruct (Rtotal_order (B2R (marketPrice input)) (B2R (faceValue input))) as [C|[C|C]].
  - assert (L : (marketPrice input <? faceValue input) = true) by (apply ltb_R; auto).
    assert (G : (faceValue input <? marketPrice input) = false)
      by (apply ltb_false_R; auto; lra).
    assert (E : (marketPrice input =? faceValue input) = false) by (apply Hne; auto; lra).
    destruct (Hbelow L) as [Hneg Hpos]. rewrite Hpos, Hneg, L, G, E. cbn.
    repeat split; intros H; discriminate H || reflexivity.
  - assert (L : (marketPrice input <? faceValue input) = false)
      by (apply ltb_false_R; auto; lra).
    assert (G : (faceValue input <? marketPrice input) = false)
      by (apply ltb_false_R; auto; lra).
    assert (E : (marketPrice input =? faceValue input) = true) by (apply eqb_R; auto).
    destruct (Hequal E) as (Hpos & Hneg & _). rewrite Hpos, Hneg, L, G, E. cbn.
    repeat split; intros H; discriminate H || reflexivity.
  - assert (L : (marketPrice input <? faceValue input) = false)
      by (apply ltb_false_R; auto; lra).
    assert (G : (faceValue input <? marketPrice input) = true) by (apply ltb_R; auto).
    assert (E : (marketPrice input =? faceValue input) = false) by (apply Hne; auto; lra).
    rewrite (Habove G), L, G, E. cbn.
    repeat split; intros H; discriminate H || reflexivity.
Qed.

Lemma statusLabel_witness :
  exists result,
    calculateBondMetrics (host := reference) (bond 1000 6 1080 7 "semi-annual")
      = Returned result /\
    statusLabel (status_text (tradingStatus result)) = "Trading at Premium".
Proof.
  eexists. split; [vm_compute; reflexivity|].
  match goal with
  | |- statusLabel (status_text (tradingStatus ?result)) = _ =>
      apply (statusLabel_follows_price reference
               (bond 1000 6 1080 7 "semi-annual") result)
  end; vm_compute; reflexivity.
Defined.

(** ** The period count *)

(** X6: for an input that passes validation, [calculateBondMetrics] throws
    "Total periods must be at least 1." exactly when the years to maturity
    are below half a period: below 0.5 for annual coupons, below 0.25 for
    semi-annual ones. [BondService.calculate] lets this error through as it
    is: it does not answer with a [BadRequestException]. *)
Theorem period_error_below_half_a_period :
  forall (host : Host) input,
    validateBondInput input = [] ->
    let limit := if String.eqb (couponFrequency input) "annual" then 0.5 else 0.25 in
    (calculateBondMetrics input = Thrown "Total periods must be at least 1." <->
     (yearsToMaturity input <? limit) = true) /\
    (BondService.calculate input = Failed "Total periods must be at least 1." <->
     (yearsToMaturity input <? limit) = true).
Proof.
  intros host input Hvalid limit.
  assert (Hcore : calculateBondMetrics input = Thrown "Total periods must be at least 1."
                  <-> (yearsToMaturity input <? limit) = true).
  { pose proof Hvalid as Hnumbers.
    apply valid_input_numbers in Hnumbers as (_ & _ & _ & _ & _ & _ & Fy & Hy & _).
    apply ltb_R in Hy; auto. rewrite B2R_0 in Hy.
    rewrite period_error_iff. unfold totalPeriodsOf, frequencyOf, limit.
    destruct (String.eqb (couponFrequency input) "annual").
    - rewrite degenerate_periods_annual by exact Fy.
      rewrite ltb_R, B2R_half by auto. reflexivity.
    - rewrite degenerate_periods_semi_annual by (auto; lra).
      rewrite ltb_R, B2R_quarter by auto. reflexivity. }
  split; [exact Hcore|]. rewrite <- Hcore.
  unfold BondService.calculate. rewrite Hvalid. simpl.
  destruct (calculateBondMetrics input); split; intros H;
    try discriminate H; now injection H as <-.
Qed.

Lemma period_error_witness :
  BondService.calculate (host := reference) (bond 1000 5 950 0.2 "annual")
    = Failed "Total periods must be at least 1.".
Proof.
  destruct (period_error_below_half_a_period reference (bond 1000 5 950 0.2 "annual"))
    as [_ H]; [vm_compute; reflexivity|].
  apply H. vm_compute. reflexivity.
Defined.

(** X7: for an input that passes validation, the schedule of a result has
    N rows, where N is the integer nearest to years x periods a year (1 for
    annual coupons, 2 for semi-annual ones; a tie goes up), taken exactly,
    and N is from 1 to 4294967295. *)
Theorem row_count_is_nearest_integer :
  forall (host : Host) input result,
    validateBondInput input = [] ->
    calculateBondMetrics input = Returned result ->
    let rows := Z.of_nat (List.length (cashFlowSchedule result)) in
    let periodsPerYear :=
      if String.eqb (couponFrequency input) "annual" then 1%Z else 2%Z in
    (1 <= rows <= 4294967295)%Z /\
    (IZR rows - 1 / 2 <= B2R (yearsToMaturity input) * IZR periodsPerYear
       < IZR rows + 1 / 2)%R.
Proof.
  intros host input result Hvalid H rows periodsPerYear.
  apply valid_input_numbers in Hvalid as (_ & _ & _ & _ & _ & _ & Fy & Hy & _).
  apply ltb_R in Hy; auto. rewrite B2R_0 in Hy.
  apply calculateBondMetrics_returned in H
    as (Hleb & _ & _ & _ & _ & _ & _ & _ & _ & n & settlement & Hlen & Hrows).
  apply schedule_rows_spec in Hrows as [Hcount _].
  unfold rows. rewrite Hcount. unfold totalPeriodsOf in *.
  apply (returned_period_count (yearsToMaturity input) (frequencyOf input)); auto.
  unfold frequencyOf, periodsPerYear.
  destruct (String.eqb (couponFrequency input) "annual"); auto.
Qed.

Lemma row_count_witness :
  exists result,
    calculateBondMetrics (host := reference) (bond 1000 4 1000 2.5 "semi-annual")
      = Returned result /\
    List.length (cashFlowSchedule result) = 5%nat /\
    (IZR (Z.of_nat (List.length (cashFlowSchedule result))) - 1 / 2
       <= B2R 2.5 * IZR 2
       < IZR (Z.of_nat (List.length (cashFlowSchedule result))) + 1 / 2)%R.
Proof.
  eexists. split; [vm_compute; reflexivity|]. split; [vm_compute; reflexivity|].
  match goal with
  | |- (IZR (Z.of_nat (List.length (cashFlowSchedule ?result))) - _ <= _ < _)%R =>
      apply (row_count_is_nearest_integer reference
               (bond 1000 4 1000 2.5 "semi-annual") result)
  end; vm_compute; reflexivity.
Defined.

(** ** The amounts of a result *)

(** X8: for an input that passes validation, no amount of a result is
    negative or NaN: the annual coupon amount, the coupon payment, the
    current yield, the total interest and, in every row of the schedule, the
    coupon payment, the cumulative interest and the remaining principal are
    zero or more. *)
Theorem amounts_are_never_negative :
  forall (host : Host) input result,
    validateBondInput input = [] ->
    calculateBondMetrics input = Returned result ->
    (0 <=? annualCouponAmount result) = true /\
    (0 <=? couponPayment result) = true /\
    (0 <=? currentYieldPct result) = true /\
    (0 <=? totalInterestEarned result) = true /\
    forall row,
      In row (cashFlowSchedule result) ->
      (0 <=? CashFlowRow.couponPayment row) = true /\
      (0 <=? CashFlowRow.cumulativeInterest row) = true /\
      (0 <=? CashFlowRow.remainingPrincipal row) = true.
Proof.
  intros host input result Hvalid H.
  destruct (valid_raw_amounts input Hvalid) as (_ & Nannual & Ncoupon & Ncurrent & Nface).
  apply calculateBondMetrics_returned in H
    as (Hleb & Hannual & Hcoupon & _ & Hcurrent & _ & Htotal & _ & _
        & n & settlement & Hlen & Hrows).
  destruct (valid_period_count input n Hvalid Hleb Hlen) as [Fperiods Hperiods].
  apply schedule_rows_spec in Hrows as [_ Hnth].
  rewrite Hannual, Hcoupon, Hcurrent, Htotal.
  split; [now apply round2_nonneg|]. split; [now apply round2_nonneg|].
  split; [now apply round6_nonneg|].
  split; [apply round2_nonneg; now apply mul_nonneg_positive|].
  intros row Hin. apply In_nth_error in Hin as [k Hk].
  destruct (Hnth k row Hk) as (_ & Hc & Hi & Hp). rewrite Hc, Hi, Hp.
  split; [now apply round2_nonneg|]. split.
  - apply round2_nonneg. now apply (accumulated_nonneg _ (S k)).
  - destruct (_ =? _); [reflexivity|now apply round2_nonneg].
Qed.

Lemma amounts_witness :
  exists result,
    calculateBondMetrics (host := reference) (bond 1000 5 950 10 "semi-annual")
      = Returned result /\
    (0 <=? totalInterestEarned result) = true.
Proof.
  eexists. split; [vm_compute; reflexivity|].
  match goal with
  | |- (0 <=? totalInterestEarned ?result) = true =>
      destruct (amounts_are_never_negative reference
                  (bond 1000 5 950 10 "semi-annual") result)
        as (_ & _ & _ & H & _); [vm_compute; reflexivity..|exact H]
  end.
Defined.

(** X9: for an input that passes validation, the cumulative interest never
    decreases from a row of the schedule to the next, and in the first row it
    is the coupon payment of the row. *)
Theorem cumulativeInterest_never_decreases :
  forall (host : Host) input result,
    validateBondInput input = [] ->
    calculateBondMetrics input = Returned result ->
    (forall index row next,
        nth_error (cashFlowSchedule result) index = Some row ->
        nth_error (cashFlowSchedule result) (S index) = Some next ->
        (CashFlowRow.cumulativeInterest row <=? CashFlowRow.cumulativeInterest next)
          = true) /\
    (forall first,
        nth_error (cashFlowSchedule result) 0 = Some first ->
        CashFlowRow.cumulativeInterest first = CashFlowRow.couponPayment first).
Proof.
  intros host input result Hvalid H.
  destruct (valid_raw_amounts input Hvalid) as (_ & _ & Ncoupon & _).
  apply calculateBondMetrics_returned in H
    as (_ & _ & _ & _ & _ & _ & _ & _ & _ & n & settlement & _ & Hrows).
  apply schedule_rows_spec in Hrows as [_ Hnth]. split.
  - intros index row next Hrow Hnext.
    destruct (Hnth _ _ Hrow) as (_ & _ & -> & _).
    destruct (Hnth _ _ Hnext) as (_ & _ & -> & _).
    apply round2_mono.
    + now apply (accumulated_nonneg _ (S index)).
    + now apply (accumulated_nonneg _ (S (S index))).
    + now apply (accumulated_increases _ (S index)).
  - intros first Hfirst. destruct (Hnth _ _ Hfirst) as (_ & -> & -> & _).
    now apply round2_add_zero.
Qed.

Lemma cumulativeInterest_order_witness :
  exists result row next,
    calculateBondMetrics (host := reference) (bond 1000 8 1000 2 "semi-annual")
      = Returned result /\
    nth_error (cashFlowSchedule result) 1 = Some row /\
    nth_error (cashFlowSchedule result) 2 = Some next /\
    (CashFlowRow.cumulativeInterest row <=? CashFlowRow.cumulativeInterest next) = true.
Proof.
  do 3 eexists. split; [vm_compute; reflexivity|].
  match goal with
  | |- nth_error (cashFlowSchedule ?result) _ = _ /\ _ =>
      destruct (cumulativeInterest_never_decreases reference
                  (bond 1000 8 1000 2 "semi-annual") result
                  ltac:(vm_compute; reflexivity) ltac:(vm_compute; reflexivity))
        as [T _]
  end.
  split; [vm_compute; reflexivity|]. split; [vm_compute; reflexivity|].
  apply (T 1%nat); vm_compute; reflexivity.
Defined.

(** X10: for an input that passes validation with a coupon rate of zero,
    every coupon amount of a result is 0: the annual coupon amount, the
    coupon payment, the current yield, the total interest, and the coupon
    payment and the cumulative interest of every row. *)
Theorem zero_coupon_amounts_are_zero :
  forall (host : Host) input result,
    validateBondInput input = [] ->
    (annualCouponRatePct input =? 0) = true ->
    calculateBondMetrics input = Returned result ->
    annualCouponAmount result = 0 /\
    couponPayment result = 0 /\
    currentYieldPct result = 0 /\
    totalInterestEarned result = 0 /\
    forall row,
      In row (cashFlowSchedule result) ->
      CashFlowRow.couponPayment row = 0 /\ CashFlowRow.cumulativeInterest row = 0.
Proof.
  intros host input result Hvalid Hzero H.
  change (is_zero (annualCouponRatePct input) = true) in Hzero.
  pose proof Hvalid as Hnumbers.
  apply valid_input_numbers in Hnumbers
    as (Fface & _ & _ & _ & Fprice & Hprice & _ & _ & Hfrequency).
  assert (Zannual : is_zero (annualCouponAmountOf input) = true).
  { unfold annualCouponAmountOf. apply mul_zero_r; [exact Fface|].
    apply div_zero; auto; reflexivity. }
  assert (Zcoupon : is_zero (couponPaymentOf input) = true).
  { unfold couponPaymentOf. destruct Hfrequency as [-> | ->];
      apply div_zero; auto; reflexivity. }
  apply calculateBondMetrics_returned in H
    as (Hleb & Hannual & Hcoupon & _ & Hcurrent & _ & Htotal & _ & _
        & n & settlement & Hlen & Hrows).
  destruct (valid_period_count input n Hvalid Hleb Hlen) as [Fperiods _].
  apply schedule_rows_spec in Hrows as [_ Hnth].
  rewrite Hannual, Hcoupon, Hcurrent, Htotal.
  split; [now apply round2_zero|]. split; [now apply round2_zero|].
  split; [apply round6_zero, mul_zero_l; [now apply div_zero|reflexivity]|].
  split; [apply round2_zero; now apply mul_zero_l|].
  intros row Hin. apply In_nth_error in Hin as [k Hk].
  destruct (Hnth k row Hk) as (_ & -> & -> & _).
  split; [now apply round2_zero|].
  apply round2_zero. now apply (accumulated_zero _ (S k)).
Qed.

Lemma zero_coupon_witness :
  exists result,
    calculateBondMetrics (host := reference) (bond 1000 0 620.92 10 "annual")
      = Returned result /\
    totalInterestEarned result = 0.
Proof.
  eexists. split; [vm_compute; reflexivity|].
  match goal with
  | |- totalInterestEarned ?result = 0 =>
      destruct (zero_coupon_amounts_are_zero reference
                  (bond 1000 0 620.92 10 "annual") result)
        as (_ & _ & _ & H & _); [vm_compute; reflexivity..|exact H]
  end.
Defined.

(** X11: for an input that passes validation, the premium or discount
    amount never has the sign opposite to the trading status: it is zero or
    more at a premium, zero or less at a discount, and 0 at par. *)
Theorem premiumDiscountAmount_has_the_sign_of_the_status :
  forall (host : Host) input result,
    validateBondInput input = [] ->
    calculateBondMetrics input = Returned result ->
    match tradingStatus result with
    | premium => (0 <=? premiumDiscountAmount result) = true
    | discount => (premiumDiscountAmount result <=? 0) = true
    | par => premiumDiscountAmount result = 0
    end.
Proof.
  intros host input result Hvalid H.
  apply valid_input_numbers in Hvalid as (Fface & _ & _ & _ & Fprice & _).
  apply calculateBondMetrics_returned in H
    as (_ & _ & _ & _ & _ & _ & _ & Hstatus & Hamount & _).
  rewrite Hstatus, Hamount.
  destruct (0 <? marketPrice input - faceValue input) eqn:Hpos.
  - apply round2_nonneg. now apply positive_is_nonneg.
  - destruct (marketPrice input - faceValue input <? 0) eqn:Hneg.
    + now apply round2_negative.
    + apply round2_zero. now apply sub_neither.
Qed.

Lemma premiumDiscountAmount_sign_witness :
  exists result,
    calculateBondMetrics (host := reference) (bond 1000.125 5 1000 2 "annual")
      = Returned result /\
    tradingStatus result = discount /\
    (premiumDiscountAmount result <=? 0) = true.
Proof.
  eexists. split; [vm_compute; reflexivity|]. split; [vm_compute; reflexivity|].
  match goal with
  | |- (premiumDiscountAmount ?result <=? 0) = true =>
      exact (premiumDiscountAmount_has_the_sign_of_the_status reference
               (bond 1000.125 5 1000 2 "annual") result
               ltac:(vm_compute; reflexivity) ltac:(vm_compute; reflexivity))
  end.
Defined.

(** ** Rounding to cents *)

(** X12: [round2] never reverses the order of two amounts that are zero or
    more, and leaves them zero or more. *)
Theorem round2_keeps_order :
  forall x y : number,
    (0 <=? x) = true -> (x <=? y) = true ->
    (round2 x <=? round2 y) = true /\ (0 <=? round2 x) = true.
Proof.
  intros x y Hx Hle. split.
  - apply round2_mono; [exact Hx| |exact Hle]. exact (leb_nonneg x y Hx Hle).
  - now apply round2_nonneg.
Qed.

Lemma round2_order_witness :
  (round2 1.004 <=? round2 1.005) = true /\ (0 <=? round2 1.004) = true.
Proof. apply round2_keeps_order; reflexivity. Defined.

(** X13: [round2] returns a number within half a cent of its argument, and
    [round6] within half a millionth, up to the error of the four
    floating-point operations, which is at most 2^-50 of the magnitude of the
    argument plus one; this for every argument up to 1e300 in magnitude. *)
Theorem rounding_is_within_half_a_unit :
  forall x : number,
    (abs x <=? 1e300) = true ->
    is_finite (round2 x) = true /\
    (Rabs (B2R (round2 x) - B2R x)
     <= 1 / 200 + (Rabs (B2R x) + 1) * bpow (-50))%R /\
    is_finite (round6 x) = true /\
    (Rabs (B2R (round6 x) - B2R x)
     <= 1 / 2000000 + (Rabs (B2R x) + 1) * bpow (-50))%R.
Proof.
  intros x Hx. destruct (abs_leb_R x 1e300 eq_refl Hx) as [Fx Hb].
  pose proof B2R_1e300 as Hc.
  destruct (scaled_accuracy 100 x eq_refl) as [F2 H2];
    [rewrite B2R_100, bpow_20; lra|exact Fx|lra|].
  destruct (scaled_accuracy 1000000 x eq_refl) as [F6 H6];
    [rewrite B2R_1000000, bpow_20; lra|exact Fx|lra|].
  rewrite B2R_100 in H2. rewrite B2R_1000000 in H6.
  split; [exact F2|]. split.
  - replace (1 / 200)%R with (/ (2 * 100))%R by lra. exact H2.
  - split; [exact F6|].
    replace (1 / 2000000)%R with (/ (2 * 1000000))%R by lra. exact H6.
Qed.

Lemma rounding_accuracy_witness :
  is_finite (round2 1.005%float) = true /\
  (Rabs (B2R (round2 1.005%float) - B2R 1.005%float)
   <= 1 / 200 + (Rabs (B2R 1.005%float) + 1) * bpow (-50))%R /\
  is_finite (round6 1.005%float) = true /\
  (Rabs (B2R (round6 1.005%float) - B2R 1.005%float)
   <= 1 / 2000000 + (Rabs (B2R 1.005%float) + 1) * bpow (-50))%R.
Proof. apply rounding_is_within_half_a_unit. reflexivity. Defined.

(** ** A call that skips the validation *)

(** X14: the test of the period count lets a NaN through: with a NaN for the
    years to maturity, [calculateBondMetrics] does not throw the error of the
    period count; it returns a result whose period count is NaN and whose
    schedule has no row, or throws the RangeError of an invalid settlement
    date. *)
Theorem nan_years_pass_the_period_check :
  forall (host : Host) input,
    is_nan (yearsToMaturity input) = true ->
    calculateBondMetrics input = Thrown "Invalid time value" \/
    exists result,
      calculateBondMetrics input = Returned result /\
      is_nan (totalPeriods result) = true /\
      cashFlowSchedule result = [].
Proof.
  intros host input Hnan.
  assert (Eperiods : totalPeriodsOf input = nan).
  { assert (E : yearsToMaturity input = nan).
    { apply Prim2SF_inj. rewrite is_nan_spec in Hnan.
      destruct (Prim2SF (yearsToMaturity input)); try discriminate Hnan. reflexivity. }
    unfold totalPeriodsOf, frequencyOf. rewrite E.
    destruct (String.eqb _ _); reflexivity. }
  unfold calculateBondMetrics.
  fold (frequencyOf input). fold (totalPeriodsOf input). rewrite !Eperiods.
  change (nan <=? 0) with false. cbv iota.
  match goal with
  | |- context [solvePeriodicYtm ?mp ?c ?f nan ?q ?d] =>
      destruct (solvePeriodicYtm_ends mp c f nan O eq_refl q d) as [r ->]
  end.
  change (array_length nan) with (Some O). cbn [schedule_rows].
  destruct (Date_toISOString _) as [iso|]; [right|left; reflexivity].
  eexists. split; [reflexivity|]. split; reflexivity.
Qed.

Lemma nan_years_witness :
  calculateBondMetrics (host := reference) (bond 1000 5 950 nan "annual")
    = Thrown "Invalid time value" \/
  exists result,
    calculateBondMetrics (host := reference) (bond 1000 5 950 nan "annual")
      = Returned result /\
    is_nan (totalPeriods result) = true /\
    cashFlowSchedule result = [].
Proof. apply nan_years_pass_the_period_check. reflexivity. Defined.

(** ** The yield to maturity of a result *)

(** X15: for an input that passes validation, the annualised yield to
    maturity of a result is never NaN and is above -100 percent per coupon
    period of the year: above -100 for an annual bond and above -200 for a
    semi-annual one. *)
Theorem ytmPct_is_above_minus_100_per_period :
  forall (host : Host) input result,
    validateBondInput input = [] ->
    calculateBondMetrics input = Returned result ->
    (-100 * frequencyOf input <? ytmPct result) = true.
Proof.
  intros host input result Hvalid H.
  destruct (valid_raw_amounts input Hvalid) as (Nrate & _).
  apply valid_input_numbers in Hvalid as (_ & _ & _ & _ & _ & _ & _ & _ & Hfrequency).
  apply calculateBondMetrics_returned in H
    as (_ & _ & _ & _ & _ & (r & Hsolve & ->) & _).
  assert (Nq : nonneg (annualCouponRatePct input / 100 / frequencyOf input))
    by (destruct Hfrequency as [-> | ->]; apply div_nonneg_positive; auto; reflexivity).
  assert (Hnonneg :
            nonneg r ->
            (-100 * frequencyOf input <? round6 (r * frequencyOf input * 100)) = true).
  { intros Nr. destruct Hfrequency as [-> | ->];
      (apply negative_below_nonneg; [reflexivity|]);
      apply round6_nonneg;
      (apply mul_nonneg_positive; [|reflexivity|reflexivity]);
      (apply mul_nonneg_positive; [exact Nr|reflexivity|reflexivity]). }
  destruct (solver_floor _ _ _ _ _ _ _ Hsolve Nq) as [Nr|[Fr Hr]]; [now apply Hnonneg|].
  destruct (0 <=? r) eqn:Hs; [now apply Hnonneg|].
  apply leb_false_R in Hs; [|reflexivity|exact Fr]. rewrite B2R_0 in Hs.
  pose proof B2R_floor as Hfloor.
  destruct Hfrequency as [-> | ->].
  - destruct (mul_1_exact r Fr) as [F1 V1].
    destruct (percent_above (r * 1) 1 F1) as [Fy Hy]; [lra|rewrite V1; lra|].
    change (-100 * 1) with (-100). apply ltb_R; [reflexivity|exact Fy|].
    rewrite B2R_minus_100. lra.
  - destruct (mul_2_finite r 2 Fr eq_refl) as [F2 V2].
    { rewrite B2R_2, Rabs_left by exact Hs. lra. }
    destruct (percent_above (r * 2) 2 F2) as [Fy Hy]; [lra|rewrite V2; lra|].
    change (-100 * 2) with (-200). apply ltb_R; [reflexivity|exact Fy|].
    rewrite B2R_minus_200. lra.
Qed.

Lemma ytmPct_floor_witness :
  exists result,
    calculateBondMetrics (host := reference) (bond 1000 5 950 10 "semi-annual")
      = Returned result /\
    (-200 <? ytmPct result) = true.
Proof.
  eexists. split; [vm_compute; reflexivity|].
  match goal with
  | |- (-200 <? ytmPct ?result) = true =>
      exact (ytmPct_is_above_minus_100_per_period reference
               (bond 1000 5 950 10 "semi-annual") result
               ltac:(vm_compute; reflexivity) ltac:(vm_compute; reflexivity))
  end.
Defined.
